(** * jasmine-utils-lite: a shallow embedding of [src/jasmine-utils-lite.js]

    The file models the JavaScript object store the helpers work on
    (objects with ordered own properties, property attributes and a
    prototype link), the reflective property walk
    [forEachWritableProperties], and the spy helpers built on it.

    Conventions of the embedding:
    - the heap is a list of objects, an object reference is an index;
    - every operation threads the heap and returns it together with a
      [result]: side effects made before a [throw] stay visible;
    - the pristine built-in [Object.prototype] is not a heap object: it is
      the prototype marker [ProtoObject], and its members are [VNative]
      values;
    - numbers are integers plus [NaN]; an accessor property has a getter
      that either returns a fixed value or throws, and no setter;
    - every object is extensible, and an assignment is made outside strict
      mode: one that cannot take is dropped without an error;
    - [Stuck] marks behaviour outside this object model (a dangling
      reference, a cyclic prototype chain, a primitive used as an object);
    - [OutOfFuel] marks a [while] loop cut off by its iteration budget. *)

From stdpp Require Import gmap strings list.

Open Scope string_scope.
Open Scope list_scope.
Open Scope nat_scope.

(** ** Values and objects *)

(** An object reference is an index into the heap. *)
Abbreviation loc := nat (only parsing).

Inductive native : Type :=
  | NObjectPrototype
  | NObjectMethod (name : string).

Inductive value : Type :=
  | VUndefined
  | VNull
  | VBool (b : bool)
  | VNum (z : Z)
  | VNaN
  | VStr (s : string)
  | VRef (l : loc)
  | VNative (n : native).

Inductive exn : Type :=
  | TypeError
  | GetterError.

Inductive result (A : Type) : Type :=
  | Return (a : A)
  | Throw (e : exn)
  | Stuck
  | OutOfFuel.
Arguments Return {A} a.
Arguments Throw {A} e.
Arguments Stuck {A}.
Arguments OutOfFuel {A}.

#[global] Instance native_eq_dec : EqDecision native.
Proof. solve_decision. Defined.
#[global] Instance value_eq_dec : EqDecision value.
Proof. solve_decision. Defined.
#[global] Instance exn_eq_dec : EqDecision exn.
Proof. solve_decision. Defined.

(** A getter is modelled by its outcome. *)
Inductive getter : Type :=
  | GetReturns (v : value)
  | GetThrows.

Inductive property : Type :=
  | DataProp (v : value) (writable enumerable : bool)
  | AccessorProp (g : getter) (enumerable : bool).

Inductive protoref : Type :=
  | ProtoNull
  | ProtoObject
  | ProtoLoc (p : loc).

(** A recorded invocation of a spy: the ordered arguments. *)
Record call : Type := Call { args : list value }.

(** The configured behaviour of a spy. *)
Inductive plan : Type :=
  | PlanDefault
  | PlanReturn (v : value)
  | PlanCallFake (f : value)
  | PlanCallThrough.

Record spy : Type := Spy {
  calls : list call;
  spy_plan : plan;
  originalValue : value
}.

Inductive kind : Type :=
  | KObject
  | KFunction
  | KSpy (s : spy).

Record obj : Type := Obj {
  proto : protoref;
  props : list (string * property);
  okind : kind
}.

Abbreviation heap := (list obj) (only parsing).

(** [{name: ..., arguments: [...]}] *)
Record behavior : Type := Behavior {
  name : string;
  arguments : list value
}.

(** ** The state-and-exception monad of the helpers *)

Definition ST (S A : Type) : Type := S → S * result A.

(** The helpers run on the heap. *)
Definition M (A : Type) : Type := ST heap A.

Definition ret {S A} (a : A) : ST S A := λ s, (s, Return a).
Definition throw {S A} (e : exn) : ST S A := λ s, (s, Throw e).
Definition stuck {S A} : ST S A := λ s, (s, Stuck).

Definition bind {S A B} (c : ST S A) (k : A → ST S B) : ST S B :=
  λ s, match c s with
       | (s', Return a) => k a s'
       | (s', Throw e) => (s', Throw e)
       | (s', Stuck) => (s', Stuck)
       | (s', OutOfFuel) => (s', OutOfFuel)
       end.

Notation "'let!' x ':=' c 'in' k" := (bind c (λ x, k))
  (at level 10, x name, c at level 100, k at level 200).

(** A read that cannot change the state. *)
Definition lift {S A} (f : S → result A) : ST S A := λ s, (s, f s).

(** ** Primitive operations of the host *)

Definition truthy (v : value) : bool :=
  match v with
  | VUndefined | VNull | VBool false | VNaN => false
  | VNum z => negb (z =? 0)%Z
  | VStr s => negb (String.eqb s "")
  | _ => true
  end.

(** [a === b], the comparison used by [Array.prototype.indexOf]. *)
Definition strict_equals (a b : value) : bool :=
  match a, b with
  | VNaN, _ | _, VNaN => false
  | _, _ => bool_decide (a = b)
  end.

(** [args.indexOf(arg) != -1] *)
Definition indexOf_found (l : list value) (arg : value) : bool :=
  existsb (strict_equals arg) l.

(** The members of the pristine [Object.prototype]: the ES5 methods, the
    legacy accessor helpers every host ships, and the [__proto__]
    accessor. None of them is enumerable. *)
Definition objectPrototypeMethods : list string :=
  [ "constructor"; "toString"; "toLocaleString"; "valueOf";
    "hasOwnProperty"; "isPrototypeOf"; "propertyIsEnumerable";
    "__defineGetter__"; "__defineSetter__";
    "__lookupGetter__"; "__lookupSetter__" ].

Definition protoValue (p : protoref) : value :=
  match p with
  | ProtoNull => VNull
  | ProtoObject => VNative NObjectPrototype
  | ProtoLoc l => VRef l
  end.

(** Reading [name] from [Object.prototype] on behalf of a receiver whose
    own prototype link is [rp]. *)
Definition objectPrototypeGet (rp : protoref) (name : string) : value :=
  if bool_decide (name ∈ objectPrototypeMethods) then VNative (NObjectMethod name)
  else if bool_decide (name = "__proto__") then protoValue rp
  else VUndefined.

(** Own property lookup: the first entry with that key. *)
Fixpoint ownProp (ps : list (string * property)) (name : string) : option property :=
  match ps with
  | [] => None
  | (k, p) :: rest => if bool_decide (k = name) then Some p else ownProp rest name
  end.

(** [Object.getOwnPropertyNames] on the property list. *)
Definition ownNames (ps : list (string * property)) : list string := ps.*1.

(** Define or overwrite an own property, keeping its position. *)
Fixpoint setOwn (ps : list (string * property)) (name : string) (p : property)
    : list (string * property) :=
  match ps with
  | [] => [(name, p)]
  | (k, q) :: rest =>
      if bool_decide (k = name) then (k, p) :: rest else (k, q) :: setOwn rest name p
  end.

Inductive chain_end : Type := EndNull | EndObjectPrototype.

(** The objects on the prototype chain of [l], [l] first. *)
Fixpoint protoChainFrom (fuel : nat) (h : heap) (l : loc) : option (list loc * chain_end) :=
  match fuel with
  | O => None
  | S f =>
      match h !! l with
      | None => None
      | Some o =>
          match proto o with
          | ProtoNull => Some ([l], EndNull)
          | ProtoObject => Some ([l], EndObjectPrototype)
          | ProtoLoc p =>
              match protoChainFrom f h p with
              | Some (c, e) => Some (l :: c, e)
              | None => None
              end
          end
      end
  end.

Definition protoChain (h : heap) (l : loc) : option (list loc * chain_end) :=
  protoChainFrom (length h) h l.

Definition propsOf (h : heap) (l : loc) : list (string * property) :=
  match h !! l with
  | Some o => props o
  | None => []
  end.

Definition protoOf (h : heap) (l : loc) : protoref :=
  match h !! l with
  | Some o => proto o
  | None => ProtoNull
  end.

Definition readProp (p : property) : result value :=
  match p with
  | DataProp v _ _ => Return v
  | AccessorProp (GetReturns v) _ => Return v
  | AccessorProp GetThrows _ => Throw GetterError
  end.

(** The first object of the chain that defines [name]. *)
Fixpoint findProp (h : heap) (c : list loc) (name : string) : option property :=
  match c with
  | [] => None
  | l :: rest =>
      match ownProp (propsOf h l) name with
      | Some p => Some p
      | None => findProp h rest name
      end
  end.

(** [o[name]] for a heap object. *)
Definition get (h : heap) (l : loc) (name : string) : result value :=
  match protoChain h l with
  | None => Stuck
  | Some (c, e) =>
      match findProp h c name with
      | Some p => readProp p
      | None =>
          match e with
          | EndNull => Return VUndefined
          | EndObjectPrototype => Return (objectPrototypeGet (protoOf h l) name)
          end
      end
  end.

(** [v[name]] for any value: [undefined] and [null] have no properties. *)
Definition getV (h : heap) (v : value) (name : string) : result value :=
  match v with
  | VRef l => get h l name
  | VUndefined | VNull => Throw TypeError
  | _ => Stuck
  end.

(** [typeof v === 'function'] *)
Definition isFunction (h : heap) (v : value) : bool :=
  match v with
  | VRef l =>
      match h !! l with
      | Some (Obj _ _ KFunction) | Some (Obj _ _ (KSpy _)) => true
      | _ => false
      end
  | VNative (NObjectMethod _) => true
  | _ => false
  end.

(** ** The spy framework

    The helpers call into Jasmine ([jasmine.isSpy], [spyOn], the spy's
    configuration methods and [spy.reset]); its source is not part of this
    repository. *)

(** Modelled from the spec: the framework's "predicate to test is this
    value a spy handle" ([jasmine.isSpy]). A spy handle is a function
    object tagged as a spy. *)
Definition isSpy (h : heap) (v : value) : bool :=
  match v with
  | VRef l =>
      match h !! l with
      | Some (Obj _ _ (KSpy _)) => true
      | _ => false
      end
  | _ => false
  end.

Definition spyOf (h : heap) (v : value) : option spy :=
  match v with
  | VRef l =>
      match h !! l with
      | Some (Obj _ _ (KSpy s)) => Some s
      | _ => None
      end
  | _ => None
  end.

Definition alloc (o : obj) : M value :=
  λ h, (h ++ [o], Return (VRef (length h))).

(** Where the assignment [o[name] = v] goes. *)
Inductive putTarget : Type :=
  | PutOwn
  | PutIgnored
  | PutProtoSetter.

#[global] Instance putTarget_eq_dec : EqDecision putTarget.
Proof. solve_decision. Defined.

(** The property that decides the assignment is the first one of that
    name on the prototype chain. A writable data property, or none at all,
    lets the assignment define or overwrite an own data property of [l];
    a data property that is not writable, or an accessor (it has no
    setter), makes it a no-op; and [__proto__], when it is found on
    [Object.prototype] only, is the accessor whose setter changes the
    prototype link. *)
Definition putTargetOf (h : heap) (l : loc) (name : string) : option putTarget :=
  match protoChain h l with
  | None => None
  | Some (c, e) =>
      match findProp h c name with
      | Some (DataProp _ w _) => Some (if w then PutOwn else PutIgnored)
      | Some (AccessorProp _ _) => Some PutIgnored
      | None =>
          match e with
          | EndNull => Some PutOwn
          | EndObjectPrototype =>
              Some (if bool_decide (name = "__proto__") then PutProtoSetter else PutOwn)
          end
      end
  end.

(** What the assignment leaves in the own slot of that name: a writable
    data property takes the value and keeps its attributes, any other
    property stays as it is, and a new slot is writable and enumerable. *)
Definition installedProp (old : option property) (v : value) : property :=
  match old with
  | Some (DataProp _ true e) => DataProp v true e
  | Some p => p
  | None => DataProp v true true
  end.

(** The setter of [__proto__]: an object or [null] becomes the prototype
    of [l], unless that closes a cycle; any other value is ignored. A
    built-in function cannot be a prototype link in this model. *)
Definition setPrototype (l : loc) (v : value) : M unit :=
  λ h, match h !! l with
       | None => (h, Stuck)
       | Some o =>
           match v with
           | VRef p =>
               match protoChain h p with
               | Some (c, _) =>
                   if bool_decide (l ∈ c) then (h, Throw TypeError)
                   else (<[l := Obj (ProtoLoc p) (props o) (okind o)]> h, Return tt)
               | None => (h, Stuck)
               end
           | VNull => (<[l := Obj ProtoNull (props o) (okind o)]> h, Return tt)
           | VNative NObjectPrototype =>
               (<[l := Obj ProtoObject (props o) (okind o)]> h, Return tt)
           | VNative (NObjectMethod _) => (h, Stuck)
           | _ => (h, Return tt)
           end
       end.

(** [obj[method] = v] *)
Definition install (l : loc) (method : string) (v : value) : M unit :=
  λ h, match h !! l, putTargetOf h l method with
       | Some o, Some PutOwn =>
           let p := installedProp (ownProp (props o) method) v in
           (<[l := Obj (proto o) (setOwn (props o) method p) (okind o)]> h, Return tt)
       | Some o, Some PutIgnored => (h, Return tt)
       | Some o, Some PutProtoSetter => setPrototype l v h
       | _, _ => (h, Stuck)
       end.

(** Modelled from the spec: the framework's "constructor/installer that
    turns a plain function member into a spy handle, returning the handle"
    ([spyOn]). The new spy starts with no recorded call and no configured
    behaviour, and is assigned to the member ([obj[methodName] = spyObj]):
    it takes the member's place on the object itself where that assignment
    takes. *)
Definition spyOn (target : value) (method : string) : M value :=
  match target with
  | VRef l =>
      let! original := lift (λ h, get h l method) in
      let! s := alloc (Obj ProtoObject [] (KSpy (Spy [] PlanDefault original))) in
      let! _ := install l method s in
      ret s
  | VUndefined | VNull => throw TypeError
  | _ => stuck
  end.

Definition setSpy (l : loc) (s : spy) : M unit :=
  λ h, match h !! l with
       | Some o => (<[l := Obj (proto o) (props o) (KSpy s)]> h, Return tt)
       | None => (h, Stuck)
       end.

(** Modelled from the spec: the "spy-handle behavior configuration calls,
    addressed by name with an ordered argument list", with the required
    set "return a fixed value", "delegate to a supplied replacement
    function" and "delegate to the original implementation"
    ([spy[behavior.name].apply(spy, behavior.arguments)]). Any other name
    is outside the model. *)
Definition planOf (b : behavior) : option plan :=
  if bool_decide (name b = "andReturn") then Some (PlanReturn (default VUndefined (head (arguments b))))
  else if bool_decide (name b = "andCallFake") then Some (PlanCallFake (default VUndefined (head (arguments b))))
  else if bool_decide (name b = "andCallThrough") then Some PlanCallThrough
  else None.

Definition configure (sp : value) (b : behavior) : M unit :=
  match sp, planOf b with
  | VRef l, Some p =>
      λ h, match spyOf h sp with
           | Some s => setSpy l (Spy (calls s) p (originalValue s)) h
           | None => (h, Stuck)
           end
  | _, _ => stuck
  end.

(** Modelled from the spec: the framework's "reset operation on a spy
    handle that clears recorded calls and configured behavior"
    ([spy.reset()]); it "fails (propagates) if the argument is not a valid
    spy handle". *)
Definition spyReset (sp : value) : M unit :=
  λ h, match sp, spyOf h sp with
       | VRef l, Some s => setSpy l (Spy [] PlanDefault (originalValue s)) h
       | _, _ => (h, Throw TypeError)
       end.

(** ** The helpers of [jasmine-utils-lite.js] *)

(** [spyIf(obj, method, behavior)] *)
Definition spyIf (obj : value) (method : string) (behavior : option behavior) : M value :=
  let! methodToSpy := lift (λ h, getV h obj method) in
  let! isFn := lift (λ h, Return (isFunction h methodToSpy && negb (isSpy h methodToSpy))) in
  if isFn : bool then
    let! spy := spyOn obj method in
    let! _ := match behavior with
              | Some b => configure spy b
              | None => ret tt
              end in
    ret spy
  else ret methodToSpy.

(** [reset(spy)] *)
Definition reset (spy : value) : M unit := spyReset spy.

(** A method-name argument: a single name or an array of names. *)
Inductive names : Type :=
  | OneName (method : string)
  | NameArray (methods : list string).

(** [Array.isArray(methods) ? methods : [methods]] *)
Definition toArray (ms : names) : list string :=
  match ms with
  | OneName m => [m]
  | NameArray l => l
  end.

(** A behaviour argument: a single value (possibly absent) or an array. *)
Inductive behaviors : Type :=
  | OneBehavior (b : option behavior)
  | BehaviorArray (bs : list (option behavior)).

Definition toBehaviorArray (bs : behaviors) : list (option behavior) :=
  match bs with
  | OneBehavior b => [b]
  | BehaviorArray l => l
  end.

(** [spyBehaviors[i]]: an index past the end reads [undefined]. *)
Definition behaviorAt (bs : list (option behavior)) (i : nat) : option behavior :=
  default None (bs !! i).

(** The [for] loop of [spyEach], from index [i] on. *)
Fixpoint spyEachLoop (obj : value) (isSingleBehavior : bool)
    (spyBehaviors : list (option behavior)) (i : nat) (methodsToSpy : list string) : M unit :=
  match methodsToSpy with
  | [] => ret tt
  | m :: rest =>
      let! _ := (if isSingleBehavior then spyIf obj m (behaviorAt spyBehaviors 0)
                 else spyIf obj m (behaviorAt spyBehaviors i)) in
      spyEachLoop obj isSingleBehavior spyBehaviors (S i) rest
  end.

(** [spyEach(obj, methods, behaviors)] *)
Definition spyEach (obj : value) (methods : names) (bs : behaviors) : M value :=
  let methodsToSpy := toArray methods in
  let spyBehaviors := toBehaviorArray bs in
  let isSingleBehavior := bool_decide (length spyBehaviors = 1) in
  let! _ := spyEachLoop obj isSingleBehavior spyBehaviors 0 methodsToSpy in
  ret obj.

(** [resetEach(obj, methods)] *)
Fixpoint resetEachLoop (obj : value) (methodsToSpy : list string) : M unit :=
  match methodsToSpy with
  | [] => ret tt
  | m :: rest =>
      let! spy := lift (λ h, getV h obj m) in
      let! sp := lift (λ h, Return (isSpy h spy)) in
      let! _ := (if sp : bool then reset spy else ret tt) in
      resetEachLoop obj rest
  end.

Definition resetEach (obj : value) (methods : names) : M value :=
  let! _ := resetEachLoop obj (toArray methods) in
  ret obj.

(** [getCallWithArg]: the scan of the recorded calls. *)
Fixpoint findCall (cs : list call) (arg : value) : option call :=
  match cs with
  | [] => None
  | call :: rest =>
      if indexOf_found (args call) arg then Some call else findCall rest arg
  end.

(** [obj[method].calls]: the recorded calls of a spy handle. Any other
    value has no array under [calls]: reading [calls.length] of
    [undefined] throws, anything else is outside the model. *)
Definition callsOf (v : value) : M (list call) :=
  let! s := lift (λ h, Return (spyOf h v)) in
  match s with
  | Some s => ret (calls s)
  | None =>
      let! c := lift (λ h, getV h v "calls") in
      match c with
      | VUndefined | VNull => throw TypeError
      | _ => stuck
      end
  end.

(** [getCallWithArg(obj, method, arg)]; [None] is [undefined]. *)
Definition getCallWithArg (obj : value) (method : string) (arg : value) : M (option call) :=
  let! sp := lift (λ h, getV h obj method) in
  let! cs := callsOf sp in
  ret (findCall cs arg).

(** ** Object literals used as maps

    [foundProps] and [methodsToSkip] start as [{}]: they hold their own
    keys and inherit the members of [Object.prototype]. *)

Definition dictGet (d : gmap string value) (k : string) : value :=
  match d !! k with
  | Some v => v
  | None => objectPrototypeGet ProtoObject k
  end.

(** [d[k] = true]. Assigning a primitive to [__proto__] runs the inherited
    setter, which ignores it. *)
Definition dictSetTrue (d : gmap string value) (k : string) : gmap string value :=
  if bool_decide (k = "__proto__") then d else <[k := VBool true]> d.

(** [getMethodsToSkip(excepts)] *)
Definition getMethodsToSkip (excepts : names) : gmap string value :=
  match excepts with
  | NameArray l => foldl dictSetTrue ∅ l
  | OneName m => dictSetTrue ∅ m
  end.

(** ** The property walk *)

Inductive path : Type :=
  | ViaForIn
  | ViaOwnNames.

(** One invocation of the iterator: its two arguments, the step of the
    walk that made it, and the heap it was called on. *)
Record visit : Type := Visit {
  target : value;
  visited : string;
  via : path;
  store : heap
}.

(** The state of a walk: the heap, the local [foundProps], and the
    iterator invocations made so far. *)
Record walk : Type := Walk {
  heapOf : heap;
  foundProps : gmap string value;
  visits : list visit
}.

Definition isEnumerable (p : option property) : bool :=
  match p with
  | Some (DataProp _ _ e) | Some (AccessorProp _ e) => e
  | None => false
  end.

(** The keys of [for (var i in o)]: the enumerable properties along the
    prototype chain, nearest object first, skipping names shadowed by a
    nearer object. The keys are fixed when the loop starts: that is what
    the host does as long as the loop body removes no property and hides
    none (the two iterators of this file do neither); a key deleted before
    the loop reaches it would not be visited. *)
Fixpoint enumKeys (h : heap) (c : list loc) (shadowed : list string) : list string :=
  match c with
  | [] => []
  | l :: rest =>
      let ps := propsOf h l in
      List.filter (λ k, isEnumerable (ownProp ps k) && negb (bool_decide (k ∈ shadowed)))
        (ownNames ps)
      ++ enumKeys h rest (shadowed ++ ownNames ps)
  end.

Definition forInKeys (h : heap) (l : loc) : result (list string) :=
  match protoChain h l with
  | Some (c, _) => Return (enumKeys h c [])
  | None => Stuck
  end.

(** The callback of line 177: [true] exactly when the read throws. *)
Definition readThrows (h : heap) (l : loc) (propName : string) : bool :=
  match get h l propName with
  | Throw _ => true
  | _ => false
  end.

(** [Object.getOwnPropertyNames(currentProto).filter(...)] *)
Definition filteredOwnNames (h : heap) (l : loc) : list string :=
  List.filter (readThrows h l) (ownNames (propsOf h l)).

(** The [forEach] of lines 189-193. *)
Definition foldInNames (l : list string) (ancestor : list string) : list string :=
  foldl (λ ps p, if negb (bool_decide (p = "constructor")) && negb (bool_decide (p ∈ ps))
                 then ps ++ [p] else ps) l ancestor.

(** Lines 186-195. *)
Definition collectProps (h : heap) (l : loc) (ps : list string) : result (list string) :=
  match get h l "prototype" with
  | Return slot =>
      if truthy slot then Return ps
      else match protoOf h l with
           | ProtoObject => Return ps
           | ProtoNull => Throw TypeError
           | ProtoLoc p =>
               match h !! p with
               | Some o => Return (foldInNames ps (ownNames (props o)))
               | None => Stuck
               end
           end
  | Throw e => Throw e
  | Stuck => Stuck
  | OutOfFuel => OutOfFuel
  end.

Definition objectPrototypeDescriptor (propName : string) : option property :=
  if bool_decide (propName ∈ objectPrototypeMethods)
  then Some (DataProp (VNative (NObjectMethod propName)) true false)
  else if bool_decide (propName = "__proto__")
  then Some (AccessorProp (GetReturns VNull) false)
  else None.

(** Line 202; reading [writable] off a missing descriptor throws. *)
Definition descriptorOf (h : heap) (l : loc) (propName : string) : result property :=
  match ownProp (propsOf h l) propName with
  | Some d => Return d
  | None =>
      match protoOf h l with
      | ProtoNull => Throw TypeError
      | ProtoObject =>
          match objectPrototypeDescriptor propName with
          | Some d => Return d
          | None => Throw TypeError
          end
      | ProtoLoc p =>
          match h !! p with
          | Some o =>
              match ownProp (props o) propName with
              | Some d => Return d
              | None => Throw TypeError
              end
          | None => Stuck
          end
      end
  end.

Definition writable (d : property) : bool :=
  match d with
  | DataProp _ w _ => w
  | AccessorProp _ _ => false
  end.

Section Walk.

Variable iterator : value → string → M unit.

(** [foundProps[i] = true; iterator(currentProto, i);] *)
Definition visitProp (currentProto : loc) (i : string) (p : path) : ST walk unit :=
  λ w, let (h', r) := iterator (VRef currentProto) i (heapOf w) in
       (Walk h' (dictSetTrue (foundProps w) i)
             (visits w ++ [Visit (VRef currentProto) i p (heapOf w)]), r).

(** Lines 165-171. *)
Fixpoint forInLoop (currentProto : loc) (keys : list string) : ST walk unit :=
  match keys with
  | [] => ret tt
  | i :: rest =>
      let! found := lift (λ w, Return (truthy (dictGet (foundProps w) i))) in
      if found : bool then forInLoop currentProto rest
      else
        let! prop := lift (λ w, get (heapOf w) currentProto i) in
        let! _ := visitProp currentProto i ViaForIn in
        forInLoop currentProto rest
  end.

(** Lines 197-209. *)
Fixpoint propsLoop (currentProto : loc) (ps : list string) : ST walk unit :=
  match ps with
  | [] => ret tt
  | propName :: rest =>
      let! _prop := lift (λ w, get (heapOf w) currentProto propName) in
      let! found := lift (λ w, Return (truthy (dictGet (foundProps w) propName))) in
      if negb (bool_decide (propName = "prototype")) && negb found then
        let! descriptor := lift (λ w, descriptorOf (heapOf w) currentProto propName) in
        if writable descriptor then
          let! _ := visitProp currentProto propName ViaOwnNames in
          propsLoop currentProto rest
        else propsLoop currentProto rest
      else propsLoop currentProto rest
  end.

(** One turn of the [while] loop; the result is the next
    [currentProto]. *)
Definition walkLevel (currentProto : loc) : ST walk value :=
  let! keys := lift (λ w, forInKeys (heapOf w) currentProto) in
  let! _ := forInLoop currentProto keys in
  let! ps := lift (λ w, Return (filteredOwnNames (heapOf w) currentProto)) in
  let! ps := lift (λ w, collectProps (heapOf w) currentProto ps) in
  let! _ := propsLoop currentProto ps in
  let! slot := lift (λ w, get (heapOf w) currentProto "prototype") in
  ret (if truthy slot then slot else VNull).

(** [while (currentProto) { ... }]; a truthy primitive as level (a
    string, a number) is outside the object model. *)
Fixpoint walkFrom (fuel : nat) (currentProto : value) : ST walk unit :=
  if truthy currentProto then
    match fuel with
    | O => λ w, (w, OutOfFuel)
    | S f =>
        match currentProto with
        | VRef l =>
            let! next := walkLevel l in
            walkFrom f next
        | _ => stuck
        end
    end
  else ret tt.

Definition runWalk (fuel : nat) (obj : value) (h : heap) : walk * result unit :=
  walkFrom fuel obj (Walk h ∅ []).

(** [forEachWritableProperties(obj, iterator)] *)
Definition forEachWritableProperties (fuel : nat) (obj : value) : M unit :=
  λ h, let (w, r) := runWalk fuel obj h in (heapOf w, r).

End Walk.

(** The test of line 47:
    [typeof methodsToSkip[method] !== 'undefined' && methodsToSkip[method]] *)
Definition skipsMethod (methodsToSkip : gmap string value) (method : string) : bool :=
  negb (bool_decide (dictGet methodsToSkip method = VUndefined))
  && truthy (dictGet methodsToSkip method).

(** The test of line 113:
    [typeof methodsToSkip[method] !== 'undefined' && !methodsToSkip[method]] *)
Definition resetSkipsMethod (methodsToSkip : gmap string value) (method : string) : bool :=
  negb (bool_decide (dictGet methodsToSkip method = VUndefined))
  && negb (truthy (dictGet methodsToSkip method)).

(** The iterator of [spyAllExcept]. *)
Definition spyAllExceptIterator (methodsToSkip : gmap string value)
    (behavior : option behavior) (targetObj : value) (method : string) : M unit :=
  let! methodToSpy := lift (λ h, getV h targetObj method) in
  let! fn := lift (λ h, Return (isFunction h methodToSpy)) in
  if negb fn then ret tt
  else
    let skipMethod := skipsMethod methodsToSkip method in
    if negb skipMethod then
      let! _ := spyIf targetObj method behavior in
      ret tt
    else ret tt.

(** [spyAllExcept(obj, excepts, behavior)] *)
Definition spyAllExcept (fuel : nat) (obj : value) (excepts : names)
    (behavior : option behavior) : M value :=
  let methodsToSkip := getMethodsToSkip excepts in
  let! _ := forEachWritableProperties (spyAllExceptIterator methodsToSkip behavior) fuel obj in
  ret obj.

(** [spyAll(obj)] *)
Definition spyAll (fuel : nat) (obj : value) : M value :=
  spyAllExcept fuel obj (NameArray []) None.

(** The iterator of [resetAllExcept]. *)
Definition resetAllExceptIterator (methodsToSkip : gmap string value)
    (targetObj : value) (method : string) : M unit :=
  let! methodToSpy := lift (λ h, getV h targetObj method) in
  let! fn := lift (λ h, Return (isFunction h methodToSpy)) in
  if negb fn then ret tt
  else
    let skipMethod := resetSkipsMethod methodsToSkip method in
    if negb skipMethod then
      let! sp := lift (λ h, Return (isSpy h methodToSpy)) in
      if sp : bool then reset methodToSpy else ret tt
    else ret tt.

(** [resetAllExcept(obj, excepts)] *)
Definition resetAllExcept (fuel : nat) (obj : value) (excepts : names) : M value :=
  let methodsToSkip := getMethodsToSkip excepts in
  let! _ := forEachWritableProperties (resetAllExceptIterator methodsToSkip) fuel obj in
  ret obj.

(** [resetAll(obj)] *)
Definition resetAll (fuel : nat) (obj : value) : M value :=
  resetAllExcept fuel obj (NameArray []).

(** * Specification-side definitions *)

(** A call record mentions [arg] when one of its arguments is [===] to it. *)
Definition mentions (c : call) (arg : value) : Prop :=
  ∃ a, a ∈ args c ∧ strict_equals arg a = true.

(** The first record, in recording order, that mentions [arg]. *)
Definition firstMention (cs : list call) (arg : value) (c : call) : Prop :=
  ∃ before after, cs = before ++ c :: after
    ∧ (∀ c', c' ∈ before → ¬ mentions c' arg) ∧ mentions c arg.

(** ** Sample heaps *)

(** [{save: <spy called with (1,2), (42,3), (5)>}] *)
Definition callsHeap : heap :=
  [ Obj ProtoObject [("save", DataProp (VRef 1) true true)] KObject;
    Obj ProtoObject []
      (KSpy (Spy [Call [VNum 1; VNum 2]; Call [VNum 42; VNum 3]; Call [VNum 5]]
                 PlanDefault VUndefined)) ].

(** ** Relations between heaps *)

(** [h'] keeps every object of [h], with its prototype link and with the
    own property [n] it had. *)
Definition agreeOn (n : string) (h h' : heap) : Prop :=
  length h ≤ length h'
  ∧ ∀ l o, h !! l = Some o →
      ∃ o', h' !! l = Some o' ∧ proto o' = proto o
            ∧ ownProp (props o') n = ownProp (props o) n.

(** [h'] is [h] after a fresh spy with plan [p], wrapping [orig], was
    assigned to member [m] of object [l]: it took the member's place,
    unless the object has that property itself and it cannot be
    assigned. *)
Definition spyInstalled (l : loc) (m : string) (p : plan) (orig : value)
    (h h' : heap) : Prop :=
  length h' = S (length h)
  ∧ (∃ o, h !! l = Some o
        ∧ h' !! l = Some (Obj (proto o)
                           (setOwn (props o) m
                              (installedProp (ownProp (props o) m) (VRef (length h))))
                           (okind o)))
  ∧ (∀ l', l' ≠ l → l' < length h → h' !! l' = h !! l')
  ∧ h' !! length h = Some (Obj ProtoObject [] (KSpy (Spy [] p orig))).

(** The assignment [l[name] = v] takes: it defines or overwrites an own
    data property of [l]. It does not when the property found first on
    the prototype chain is a data property that is not writable or an
    accessor, the [__proto__] accessor of [Object.prototype] included. *)
Definition assignable (h : heap) (l : loc) (name : string) : Prop :=
  putTargetOf h l name = Some PutOwn.

#[global] Instance assignable_dec h l name : Decision (assignable h l name).
Proof. unfold assignable. apply _. Defined.

(** [h'] is [h] after a fresh spy with plan [p], wrapping [orig], was made
    for member [m] of object [l]: the spy is there, and [l] either has it
    in the slot [m] or is as it was. *)
Definition spyMade (l : loc) (m : string) (p : plan) (orig : value)
    (h h' : heap) : Prop :=
  length h' = S (length h)
  ∧ (∃ o, h !! l = Some o
        ∧ (h' !! l = Some o
           ∨ h' !! l = Some (Obj (proto o)
                               (setOwn (props o) m
                                  (installedProp (ownProp (props o) m) (VRef (length h))))
                               (okind o))))
  ∧ (∀ l', l' ≠ l → l' < length h → h' !! l' = h !! l')
  ∧ h' !! length h = Some (Obj ProtoObject [] (KSpy (Spy [] p orig))).

(** The behaviour, when given, names a configuration call of the model. *)
Definition supported (b : option behavior) : Prop :=
  match b with
  | Some b => is_Some (planOf b)
  | None => True
  end.

(** The plan a new spy ends up with under behaviour [b]. *)
Definition planFor (b : option behavior) : plan :=
  match b with
  | Some b => default PlanDefault (planOf b)
  | None => PlanDefault
  end.

(** A member that [spyIf] wraps: a function that is not yet a spy. *)
Definition plainFunction (h : heap) (v : value) : bool :=
  isFunction h v && negb (isSpy h v).

(** The object [o] after [spy.reset()], if it is a spy. *)
Definition resetObj (o : obj) : obj :=
  match okind o with
  | KSpy s => Obj (proto o) (props o) (KSpy (Spy [] PlanDefault (originalValue s)))
  | _ => o
  end.

(** [h'] is [h] with some of its spies reset and nothing else changed. *)
Definition resetsOf (h h' : heap) : Prop :=
  length h' = length h
  ∧ ∀ l o, h !! l = Some o → h' !! l = Some o ∨ h' !! l = Some (resetObj o).

(** [{save: <plain function>}] *)
Definition plainHeap : heap :=
  [ Obj ProtoObject [("save", DataProp (VRef 1) true true)] KObject;
    Obj ProtoObject [] KFunction ].

(** [Object.defineProperty({}, 'save', {value: f, writable: false,
    enumerable: true})], [f] a plain function *)
Definition readOnlyMethodHeap : heap :=
  [ Obj ProtoObject [("save", DataProp (VRef 1) false true)] KObject;
    Obj ProtoObject [] KFunction ].

(** [{foo: <spy called once>, bar: <plain function>}] *)
Definition spiedHeap : heap :=
  [ Obj ProtoObject [("foo", DataProp (VRef 1) true true);
                     ("bar", DataProp (VRef 2) true true)] KObject;
    Obj ProtoObject [] (KSpy (Spy [Call [VNum 1]] PlanDefault VUndefined));
    Obj ProtoObject [] KFunction ].

(** [h'] is [h] after spying: every object of [h] is still there with its
    prototype link and its kind, and every object added is a spy. *)
Definition spiesAdded (h h' : heap) : Prop :=
  length h ≤ length h'
  ∧ (∀ l o, h !! l = Some o →
       ∃ o', h' !! l = Some o' ∧ proto o' = proto o ∧ okind o' = okind o)
  ∧ (∀ l o', length h ≤ l → h' !! l = Some o' →
       proto o' = ProtoObject ∧ ∃ s, okind o' = KSpy s).

(** In [h'], member [n] of [l] is a spy added since [h], with plan [pl],
    wrapping the plain function the member was in [h]. *)
Definition installedAs (h h' : heap) (l : loc) (n : string) (pl : plan) : Prop :=
  ∃ v sp o', get h l n = Return v ∧ plainFunction h v = true
    ∧ get h' l n = Return (VRef sp) ∧ length h ≤ sp
    ∧ h' !! sp = Some o' ∧ okind o' = KSpy (Spy [] pl v).

(** [{save: f, load: g, wipe: k}], three plain functions *)
Definition threeMethods : heap :=
  [ Obj ProtoObject [("save", DataProp (VRef 1) true true);
                     ("load", DataProp (VRef 2) true true);
                     ("wipe", DataProp (VRef 3) true true)] KObject;
    Obj ProtoObject [] KFunction;
    Obj ProtoObject [] KFunction;
    Obj ProtoObject [] KFunction ].

(** The invariant of the loop of [spyEach] on object [l], started on [h]:
    every name is either as it was in [h] or spied since. *)
Definition spyEachInv (h : heap) (l : loc) (hc : heap) : Prop :=
  spiesAdded h hc ∧ ∀ n, agreeOn n h hc ∨ ∃ pl, installedAs h hc l n pl.

(** ** The walk, seen from outside *)

(** The conditions under which the walk hands name [i] of level [cur] to
    the iterator in state [w]. *)
Definition visitGuard (w : walk) (cur : loc) (i : string) (p : path) : Prop :=
  truthy (dictGet (foundProps w) i) = false
  ∧ (∃ v, get (heapOf w) cur i = Return v)
  ∧ match p with
    | ViaForIn => True
    | ViaOwnNames =>
        i ≠ "prototype"
        ∧ ∃ d, descriptorOf (heapOf w) cur i = Return d ∧ writable d = true
    end.

(** A predicate on the outcome of a step: [I] after a return, [F] after
    anything else. *)
Definition outcomeIs {A} (I F : walk → Prop) (x : walk * result A) : Prop :=
  match x with
  | (w, Return _) => I w
  | (w, _) => F w
  end.

(** Every own key of [foundProps] holds [true]. *)
Definition foundOnlyTrue (w : walk) : Prop :=
  ∀ k v, foundProps w !! k = Some v → v = VBool true.

(** The iterator does nothing. *)
Definition observe : value → string → M unit := λ _ _, ret tt.

(** [Object.defineProperty({}, 'x', {get: function () { throw ... }})]:
    one own, non-enumerable property whose read throws. *)
Definition inaccessibleHeap : heap :=
  [ Obj ProtoObject [("x", AccessorProp GetThrows false)] KObject ].

(** [Object.defineProperty({}, 'x', {value: 1, writable: false,
    enumerable: true})] *)
Definition readOnlyHeap : heap :=
  [ Obj ProtoObject [("x", DataProp (VNum 1) false true)] KObject ].

(** A constructor [F] with a read-only, non-enumerable static [x], whose
    [F.prototype] has a writable, enumerable [x]. *)
Definition shadowHeap : heap :=
  [ Obj ProtoObject [("prototype", DataProp (VRef 1) true false);
                     ("x", DataProp (VNum 1) false false)] KFunction;
    Obj ProtoObject [("x", DataProp (VNum 2) true true)] KObject ].

(** [Object.create(null)] with one method. *)
Definition nullProtoHeap : heap :=
  [ Obj ProtoNull [("foo", DataProp (VRef 1) true true)] KObject;
    Obj ProtoObject [] KFunction ].

(** The state kept by the walk itself, whatever the iterator does. *)
Definition walkInv (w : walk) : Prop :=
  foundOnlyTrue w
  ∧ (∀ v, v ∈ visits w → truthy (dictGet (foundProps w) (visited v)) = true)
  ∧ NoDup (visited <$> visits w)
  ∧ (∀ v, v ∈ visits w →
       ∃ l x, target v = VRef l ∧ get (store v) l (visited v) = Return x)
  ∧ (∀ v, v ∈ visits w → via v = ViaOwnNames →
       visited v ≠ "prototype"
       ∧ ∃ l d, target v = VRef l
                ∧ descriptorOf (store v) l (visited v) = Return d ∧ writable d = true).


(** ** Heaps on which the walk runs to its end *)

(** No getter throws, every prototype chain can be followed to its end,
    and no object is without prototype. *)
Definition walkable (h : heap) : Prop :=
  ∀ l o, h !! l = Some o →
    is_Some (protoChain h l) ∧ proto o ≠ ProtoNull
    ∧ ∀ k e, ownProp (props o) k ≠ Some (AccessorProp GetThrows e).

(** Following the [prototype] slots from [v] meets heap objects only and
    ends within [n] levels. *)
Fixpoint levelsWithin (n : nat) (h : heap) (v : value) : Prop :=
  if truthy v then
    match n with
    | O => False
    | S n' =>
        ∃ l next, v = VRef l ∧ is_Some (h !! l)
          ∧ get h l "prototype" = Return next ∧ levelsWithin n' h next
    end
  else True.

(** A spy as [spyOn] leaves it: no property of its own. *)
Definition bareSpy (h : heap) (s : loc) : Prop :=
  ∃ k, h !! s = Some (Obj ProtoObject [] (KSpy k)).

(** The [prototype] slots during a walk started on [h0], on level [cur]:
    either every object of [h0] still reads the slot it had, or the slot
    of [cur] has just been replaced by a bare spy. *)
Definition slotsKept (h0 h : heap) : Prop :=
  ∀ l, is_Some (h0 !! l) → get h l "prototype" = get h0 l "prototype".

Definition slotSpied (h0 h : heap) (cur : loc) : Prop :=
  ∃ s, get h cur "prototype" = Return (VRef s) ∧ length h0 ≤ s ∧ bareSpy h s.

(** The state of the [prototype] slots while level [cur] is walked. *)
Definition slotState (h0 : heap) (cur : loc) (h : heap) : Prop :=
  slotsKept h0 h ∨ slotSpied h0 h cur.

(** A constructor [F] with a static method and a prototype holding two
    methods, one of them excepted. *)
Definition classHeap : heap :=
  [ Obj ProtoObject [("prototype", DataProp (VRef 1) true false);
                     ("create", DataProp (VRef 2) true true)] KFunction;
    Obj ProtoObject [("foo", DataProp (VRef 3) true true);
                     ("bar", DataProp (VRef 4) true true)] KObject;
    Obj ProtoObject [] KFunction;
    Obj ProtoObject [] KFunction;
    Obj ProtoObject [] KFunction ].

(** [{foo: f, bar: g}] inheriting a non-enumerable method [baz]. *)
Definition instanceHeap : heap :=
  [ Obj ProtoObject [("baz", DataProp (VRef 3) true false)] KObject;
    Obj (ProtoLoc 0) [("foo", DataProp (VRef 2) true true);
                      ("bar", DataProp (VRef 3) true true)] KObject;
    Obj ProtoObject [] KFunction;
    Obj ProtoObject [] KFunction ].

(** From [h] to [h'] no own property disappears and no object changes
    its prototype link. *)
Definition grows (h h' : heap) : Prop :=
  (∀ x n, is_Some (ownProp (propsOf h x) n) → is_Some (ownProp (propsOf h' x) n))
  ∧ (∀ x, is_Some (h !! x) → is_Some (h' !! x) ∧ protoOf h' x = protoOf h x).

(** What the walk of [spyAllExcept], started on [h0], keeps true of its
    heap. *)
Definition spyWalkInv (h0 : heap) (w : walk) : Prop :=
  walkable (heapOf w) ∧ spiesAdded h0 (heapOf w).


(** An executable check of [walkable]. *)
Definition walkableObj (h : heap) (l : loc) (o : obj) : bool :=
  bool_decide (is_Some (protoChain h l))
  && match proto o with ProtoNull => false | _ => true end
  && forallb (λ kp, match kp.2 with
                    | AccessorProp GetThrows _ => false
                    | _ => true
                    end) (props o).

Definition walkableb (h : heap) : bool :=
  forallb (λ lo, walkableObj h lo.1 lo.2) (imap (λ l o, (l, o)) h).

(** An object whose [prototype] slot is the object itself. *)
Definition selfSlotHeap : heap :=
  [ Obj ProtoObject [("prototype", DataProp (VRef 0) true false)] KObject ].

(** ** The matcher [toBeEmpty] *)

(** [v.length]: the length of a string, the [length] property of an
    object; numbers and booleans have none. *)
Definition lengthOf (h : heap) (v : value) : result value :=
  match v with
  | VStr s => Return (VNum (Z.of_nat (String.length s)))
  | VRef l => get h l "length"
  | VBool _ | VNum _ | VNaN => Return VUndefined
  | VUndefined | VNull => Throw TypeError
  | VNative _ => Stuck
  end.

(** [toBeEmpty], with [actual] for [this.actual]:
    [return (this.actual && (this.actual.length === 0));] *)
Definition toBeEmpty (actual : value) : M value :=
  if truthy actual then
    let! len := lift (λ h, lengthOf h actual) in
    ret (VBool (strict_equals len (VNum 0)))
  else ret actual.

(** ** More specification-side definitions *)

(** A name that every object literal inherits from [Object.prototype]. *)
Definition inheritedName (k : string) : Prop :=
  k ∈ "__proto__" :: objectPrototypeMethods.

(** The keys a [for .. in] loop over [keys] hands on, given what
    [foundProps] holds when it starts: those not yet marked, each once. *)
Fixpoint freshKeys (found : gmap string value) (keys : list string) : list string :=
  match keys with
  | [] => []
  | k :: rest =>
      if truthy (dictGet found k) then freshKeys found rest
      else k :: freshKeys (dictSetTrue found k) rest
  end.

(** From [h] to [h'] every object keeps its prototype link and its
    property names, each with its enumerable flag, and any property it
    gains is enumerable: a [for .. in] loop that runs across the change
    still meets every key it started with. *)
Definition keepsKeys (h h' : heap) : Prop :=
  ∀ l o, h !! l = Some o →
    ∃ o', h' !! l = Some o' ∧ proto o' = proto o
      ∧ ∀ k, match ownProp (props o) k with
             | Some p =>
                 ∃ p', ownProp (props o') k = Some p'
                       ∧ isEnumerable (Some p') = isEnumerable (Some p)
             | None =>
                 ∀ p', ownProp (props o') k = Some p' → isEnumerable (Some p') = true
             end.

(** The enumerable own names of a property list, in order. *)
Definition enumerableNames (ps : list (string * property)) : list string :=
  List.filter (λ k, isEnumerable (ownProp ps k)) (ownNames ps).

(** An array-like object of length [n]. *)
Definition arrayLike (n : Z) : obj :=
  Obj ProtoObject [("length", DataProp (VNum n) true false)] KObject.

(** [{save: f, toString: g}] with a non-enumerable own method [hidden]. *)
Definition literalHeap : heap :=
  [ Obj ProtoObject [("save", DataProp (VRef 1) true true);
                     ("toString", DataProp (VRef 2) true true);
                     ("hidden", DataProp (VRef 3) true false);
                     ("size", DataProp (VNum 3) true true)] KObject;
    Obj ProtoObject [] KFunction;
    Obj ProtoObject [] KFunction;
    Obj ProtoObject [] KFunction ].

(** [{save: <spy called with (NaN), (7)>, load: <plain function>}] *)
Definition nanHeap : heap :=
  [ Obj ProtoObject [("save", DataProp (VRef 1) true true);
                     ("load", DataProp (VRef 2) true true)] KObject;
    Obj ProtoObject [] (KSpy (Spy [Call [VNaN]; Call [VNum 7]] PlanDefault VUndefined));
    Obj ProtoObject [] KFunction ].

(** What the walk of [resetAllExcept], started on [h0], keeps true: only
    spies were reset, and every spy shown to the iterator has been. *)
Definition resetAllInv (h0 : heap) (w : walk) : Prop :=
  resetsOf h0 (heapOf w)
  ∧ ∀ v tl x o, v ∈ visits w → target v = VRef tl →
      get h0 tl (visited v) = Return (VRef x) → h0 !! x = Some o →
      heapOf w !! x = Some (resetObj o).

(** A constructor whose [create] and whose prototype's [render] are
    spies with recorded calls. *)
Definition spiedClassHeap : heap :=
  [ Obj ProtoObject [("prototype", DataProp (VRef 1) true false);
                     ("create", DataProp (VRef 2) true true)] KFunction;
    Obj ProtoObject [("render", DataProp (VRef 3) true true);
                     ("plain", DataProp (VRef 4) true true)] KObject;
    Obj ProtoObject [] (KSpy (Spy [Call [VNum 1]] (PlanReturn (VNum 5)) VUndefined));
    Obj ProtoObject [] (KSpy (Spy [Call []; Call [VStr "a"]] PlanDefault VUndefined));
    Obj ProtoObject [] KFunction ].

(** The effect of the walk of [spyAllExcept], started on [h0], on each
    name: what was never shown to the iterator is as it was; what was
    shown is as it was too, unless it was a plain function under a name
    that is not skipped, in a slot that could be assigned - then it reads
    as a spy added since, configured with [b] and wrapping that
    function. *)
Definition spyEffectInv (h0 : heap) (ms : gmap string value) (b : option behavior)
    (w : walk) : Prop :=
  spiesAdded h0 (heapOf w)
  ∧ foundOnlyTrue w
  ∧ (∀ v, v ∈ visits w → truthy (dictGet (foundProps w) (visited v)) = true)
  ∧ (∀ l o, length h0 ≤ l → heapOf w !! l = Some o →
       ∃ orig, okind o = KSpy (Spy [] (planFor b) orig))
  ∧ (∀ k, k ∉ visited <$> visits w → agreeOn k h0 (heapOf w))
  ∧ (∀ v, v ∈ visits w →
       agreeOn (visited v) h0 (store v) ∧ spiesAdded h0 (store v)
       ∧ ∃ tl m, target v = VRef tl ∧ get (store v) tl (visited v) = Return m
           ∧ if plainFunction (store v) m && negb (skipsMethod ms (visited v))
                && bool_decide (assignable (store v) tl (visited v))
             then ∃ s o, get (heapOf w) tl (visited v) = Return (VRef s)
                         ∧ length h0 ≤ s ∧ heapOf w !! s = Some o
                         ∧ okind o = KSpy (Spy [] (planFor b) m)
             else agreeOn (visited v) h0 (heapOf w)).

(** The behaviour [spyEach] hands to [spyIf] in turn [j]. *)
Definition turnBehavior (single : bool) (bs : list (option behavior)) (j : nat)
    : option behavior :=
  if single then behaviorAt bs 0 else behaviorAt bs j.

(** [j] is the first index at which [ms] names [m]. *)
Definition firstIndex (ms : list string) (m : string) (j : nat) : Prop :=
  ms !! j = Some m ∧ ∀ j', j' < j → ms !! j' ≠ Some m.

(** [Object.create(F)] for a function [F] with a static member [foo]. *)
Definition protoFunctionHeap : heap :=
  [ Obj ProtoObject [("foo", DataProp (VNum 1) true true)] KFunction;
    Obj (ProtoLoc 0) [] KObject ].

(** [{foo: <spy called once>, bar: <plain function>,
      fixed: <plain function, read-only>}] *)
Definition mixedHeap : heap :=
  [ Obj ProtoObject [("foo", DataProp (VRef 1) true true);
                     ("bar", DataProp (VRef 2) true true);
                     ("fixed", DataProp (VRef 3) false true)] KObject;
    Obj ProtoObject [] (KSpy (Spy [Call [VNum 1]] PlanDefault VUndefined));
    Obj ProtoObject [] KFunction;
    Obj ProtoObject [] KFunction ].

(** * Properties *)

(** ** Own properties *)

Lemma ownProp_setOwn_eq ps m p : ownProp (setOwn ps m p) m = Some p.
Proof.
  induction ps as [|[k q] ps IH]; simpl.
  - by rewrite bool_decide_eq_true_2.
  - destruct (bool_decide (k = m)) eqn:Hk; simpl; rewrite Hk; done.
Qed.

Lemma ownProp_setOwn_ne ps m n p : m ≠ n → ownProp (setOwn ps m p) n = ownProp ps n.
Proof.
  intros Hne. induction ps as [|[k q] ps IH]; simpl.
  - by rewrite bool_decide_eq_false_2.
  - destruct (bool_decide (k = m)) eqn:Hk; simpl.
    + apply bool_decide_eq_true_1 in Hk as ->.
      by rewrite !bool_decide_eq_false_2.
    + by rewrite IH.
Qed.

Lemma ownProp_Some_ownNames ps n p : ownProp ps n = Some p → n ∈ ownNames ps.
Proof.
  induction ps as [|[k q] ps IH]; simpl; [done|].
  destruct (bool_decide (k = n)) eqn:Hk.
  - apply bool_decide_eq_true_1 in Hk as ->. intros _. left.
  - intros H. right. by apply IH.
Qed.

Lemma ownNames_ownProp ps n : n ∈ ownNames ps → is_Some (ownProp ps n).
Proof.
  induction ps as [|[k q] ps IH]; simpl.
  - intros H. by apply elem_of_nil in H.
  - intros H. destruct (bool_decide (k = n)) eqn:Hk; [by eexists|].
    apply bool_decide_eq_false_1 in Hk.
    apply elem_of_cons in H as [->|H]; [done|]. by apply IH.
Qed.

(** ** Prototype chains and reads *)

Lemma protoChainFrom_head f h l c e :
  protoChainFrom f h l = Some (c, e) → ∃ o rest, h !! l = Some o ∧ c = l :: rest.
Proof.
  destruct f as [|f]; cbn [protoChainFrom]; [done|].
  destruct (h !! l) as [o|]; [|done].
  destruct (proto o); try (intros [= <- <-]; by eauto).
  destruct (protoChainFrom f h p) as [[c' e']|]; [|done].
  intros [= <- <-]. eauto.
Qed.

Lemma protoChainFrom_ext f f' h h' l c e :
  protoChainFrom f h l = Some (c, e) → f ≤ f' →
  (∀ l o, h !! l = Some o → ∃ o', h' !! l = Some o' ∧ proto o' = proto o) →
  protoChainFrom f' h' l = Some (c, e).
Proof.
  intros Hc Hle Hext. revert f' l c e Hc Hle.
  induction f as [|f IH]; intros f' l c e Hc Hle; cbn [protoChainFrom] in Hc; [done|].
  destruct f' as [|f']; [lia|]. cbn [protoChainFrom].
  destruct (h !! l) as [o|] eqn:Hl; [|done].
  destruct (Hext _ _ Hl) as (o' & -> & ->).
  destruct (proto o); try done.
  destruct (protoChainFrom f h p) as [[c' e']|] eqn:Hp; [|done].
  rewrite (IH f' p c' e'); [done|done|lia].
Qed.

Lemma protoChainFrom_allocated f h l c e :
  protoChainFrom f h l = Some (c, e) → ∀ l', l' ∈ c → is_Some (h !! l').
Proof.
  revert l c e. induction f as [|f IH]; intros l c e; cbn [protoChainFrom]; [done|].
  destruct (h !! l) as [o|] eqn:Hl; [|done].
  destruct (proto o).
  - intros [= <- <-] l' ->%list_elem_of_singleton. by rewrite Hl.
  - intros [= <- <-] l' ->%list_elem_of_singleton. by rewrite Hl.
  - destruct (protoChainFrom f h p) as [[c' e']|] eqn:Hp; [|done].
    intros [= <- <-] l' [->|Hin]%elem_of_cons; [by rewrite Hl|].
    by eapply IH.
Qed.

Lemma findProp_agree n h h' c :
  agreeOn n h h' → (∀ l, l ∈ c → is_Some (h !! l)) →
  findProp h' c n = findProp h c n.
Proof.
  intros [_ Hag] Hc. induction c as [|l c IH]; simpl; [done|].
  destruct (Hc l) as [o Hl]; [left|].
  destruct (Hag _ _ Hl) as (o' & Hl' & _ & Hown).
  unfold propsOf. rewrite Hl, Hl', Hown.
  destruct (ownProp (props o) n); [done|].
  apply IH. intros l' Hin. apply Hc. by right.
Qed.

Lemma protoChain_agree n h h' l c e :
  agreeOn n h h' → protoChain h l = Some (c, e) → protoChain h' l = Some (c, e).
Proof.
  intros [Hlen Hag] Hc. unfold protoChain in *.
  eapply protoChainFrom_ext; [done|done|].
  intros l0 o Hl0. destruct (Hag _ _ Hl0) as (o' & ? & ? & _). eauto.
Qed.

(** A read that the object model answers keeps its answer in any heap that
    keeps the objects, their links and their own property of that name. *)
Lemma get_agree n h h' l r :
  agreeOn n h h' → get h l n = r → r ≠ Stuck → get h' l n = r.
Proof.
  intros Hag <- Hr. unfold get in *.
  destruct (protoChain h l) as [[c e]|] eqn:Hc; [|done].
  rewrite (protoChain_agree _ _ _ _ _ _ Hag Hc).
  rewrite (findProp_agree n h h' c Hag).
  2:{ eapply protoChainFrom_allocated. exact Hc. }
  destruct (findProp h c n); [done|].
  destruct e; [done|].
  destruct (protoChainFrom_head _ _ _ _ _ Hc) as (o & rest & Hl & _).
  destruct Hag as [_ Hag]. destruct (Hag _ _ Hl) as (o' & Hl' & Hp & _).
  unfold protoOf. rewrite Hl, Hl', Hp. done.
Qed.

Lemma get_Return_allocated h l n v : get h l n = Return v → is_Some (h !! l).
Proof.
  unfold get. destruct (protoChain h l) as [[c e]|] eqn:Hc; [|done].
  intros _. destruct (protoChainFrom_head _ _ _ _ _ Hc) as (o & rest & Hl & _).
  by rewrite Hl.
Qed.

Lemma get_own h l n o p :
  is_Some (protoChain h l) → h !! l = Some o → ownProp (props o) n = Some p →
  get h l n = readProp p.
Proof.
  intros [[c e] Hc] Hl Hown. unfold get. rewrite Hc.
  destruct (protoChainFrom_head _ _ _ _ _ Hc) as (o' & rest & _ & ->).
  simpl. unfold propsOf. by rewrite Hl, Hown.
Qed.

Lemma agreeOn_refl n h : agreeOn n h h.
Proof. split; [done|]. intros l o Hl. eauto. Qed.

Lemma agreeOn_trans n h1 h2 h3 : agreeOn n h1 h2 → agreeOn n h2 h3 → agreeOn n h1 h3.
Proof.
  intros [Hlen1 H1] [Hlen2 H2]. split; [lia|].
  intros l o Hl. destruct (H1 _ _ Hl) as (o' & Hl' & Hp & Ho).
  destruct (H2 _ _ Hl') as (o'' & Hl'' & Hp' & Ho').
  exists o''. split_and!; [done|congruence|congruence].
Qed.



(** ** Call inspection *)

Lemma indexOf_found_mentions c arg :
  indexOf_found (args c) arg = true ↔ mentions c arg.
Proof.
  unfold indexOf_found, mentions. rewrite existsb_exists.
  split; intros (a & Ha & Heq); exists a; split; auto;
    by apply list_elem_of_In.
Qed.

Lemma findCall_Some cs arg c :
  findCall cs arg = Some c ↔ firstMention cs arg c.
Proof.
  induction cs as [|c0 cs IH]; simpl.
  - split; [done|]. intros (b & a & Hnil & _). by destruct b.
  - destruct (indexOf_found (args c0) arg) eqn:Hc0.
    + apply indexOf_found_mentions in Hc0. split.
      * intros [= <-]. exists [], cs. split_and!; [done| |done].
        intros c' Hin. by apply elem_of_nil in Hin.
      * intros (b & a & Heq & Hb & Hm). destruct b as [|c1 b]; simpl in Heq.
        { by inversion Heq. }
        inversion Heq; subst. exfalso. apply (Hb c1); [left|done].
    + assert (¬ mentions c0 arg) as Hn.
      { rewrite <- indexOf_found_mentions. by rewrite Hc0. }
      rewrite IH. split.
      * intros (b & a & -> & Hb & Hm). exists (c0 :: b), a. split_and!; [done| |done].
        intros c' [->|Hin]%elem_of_cons; auto.
      * intros (b & a & Heq & Hb & Hm). destruct b as [|c1 b]; simpl in Heq.
        { inversion Heq; subst. done. }
        inversion Heq; subst. exists b, a. split_and!; [done| |done].
        intros c' Hin. apply Hb. by right.
Qed.

Lemma findCall_None cs arg :
  findCall cs arg = None ↔ ∀ c, c ∈ cs → ¬ mentions c arg.
Proof.
  induction cs as [|c0 cs IH]; simpl.
  - split; [|done]. intros _ c Hin. by apply elem_of_nil in Hin.
  - destruct (indexOf_found (args c0) arg) eqn:Hc0.
    + apply indexOf_found_mentions in Hc0. split; [done|].
      intros H. exfalso. apply (H c0); [left|done].
    + assert (¬ mentions c0 arg) as Hn.
      { rewrite <- indexOf_found_mentions. by rewrite Hc0. }
      rewrite IH. split.
      * intros H c [->|Hin]%elem_of_cons; auto.
      * intros H c Hin. apply H. by right.
Qed.

(** C7. For a member that is a spy with recorded calls [calls s],
    [getCallWithArg] returns the first record, in recording order, one of
    whose arguments is [===] to [arg]; it returns [undefined] ([None])
    exactly when no record mentions [arg], in particular for an empty
    list; and the heap, hence the call list, is left as it was. *)
Theorem getCallWithArg_first_match (h : heap) (obj : value) (method : string)
    (sp : value) (s : spy) (arg : value)
    (Hmember : getV h obj method = Return sp)
    (Hspy : spyOf h sp = Some s) :
  ∃ r, getCallWithArg obj method arg h = (h, Return r)
    ∧ (∀ c, r = Some c ↔ firstMention (calls s) arg c)
    ∧ (r = None ↔ ∀ c, c ∈ calls s → ¬ mentions c arg)
    ∧ (calls s = [] → r = None).
Proof.
  exists (findCall (calls s) arg). split_and!.
  - unfold getCallWithArg, callsOf, bind, lift, ret. rewrite Hmember. simpl.
    by rewrite Hspy.
  - intros c. apply findCall_Some.
  - apply findCall_None.
  - by intros ->.
Qed.

Lemma getCallWithArg_first_match_witness :
  ∃ r, getCallWithArg (VRef 0) "save" (VNum 42) callsHeap = (callsHeap, Return r)
    ∧ (∀ c, r = Some c ↔
         firstMention [Call [VNum 1; VNum 2]; Call [VNum 42; VNum 3]; Call [VNum 5]] (VNum 42) c)
    ∧ (r = None ↔ ∀ c, c ∈ [Call [VNum 1; VNum 2]; Call [VNum 42; VNum 3]; Call [VNum 5]] →
         ¬ mentions c (VNum 42))
    ∧ ([Call [VNum 1; VNum 2]; Call [VNum 42; VNum 3]; Call [VNum 5]] = [] → r = None).
Proof.
  apply (getCallWithArg_first_match callsHeap (VRef 0) "save" (VRef 1)
           (Spy [Call [VNum 1; VNum 2]; Call [VNum 42; VNum 3]; Call [VNum 5]]
                PlanDefault VUndefined) (VNum 42)); reflexivity.
Defined.

Example getCallWithArg_spec_example_found :
  getCallWithArg (VRef 0) "save" (VNum 42) callsHeap
  = (callsHeap, Return (Some (Call [VNum 42; VNum 3]))).
Proof. reflexivity. Qed.

(** ** Conditional spying *)

Lemma plainFunction_allocated h v :
  isFunction h v = true → (∃ l, v = VRef l ∧ is_Some (h !! l)) ∨ (∃ n, v = VNative n).
Proof.
  destruct v; simpl; try done; [|by eauto].
  destruct (h !! l) eqn:Hl; [|done]. intros _. left. eauto.
Qed.

Lemma spyIf_other h l m b v :
  get h l m = Return v → plainFunction h v = false →
  spyIf (VRef l) m b h = (h, Return v).
Proof.
  intros Hget Hpl. unfold spyIf, bind, lift, ret. cbn [getV]. rewrite Hget.
  unfold plainFunction in Hpl. by rewrite Hpl.
Qed.

(** *** Where an assignment goes *)

Lemma get_Return_protoChain h l n v : get h l n = Return v → is_Some (protoChain h l).
Proof. unfold get. destruct (protoChain h l); [by eexists|done]. Qed.

Lemma agreeOn_app n h o : agreeOn n h (h ++ [o]).
Proof.
  split; [rewrite length_app; lia|]. intros l o0 Hl. exists o0.
  split; [|done]. by apply lookup_app_l_Some.
Qed.

Lemma putTargetOf_agree n h h' l :
  agreeOn n h h' → is_Some (protoChain h l) → putTargetOf h' l n = putTargetOf h l n.
Proof.
  intros Hag [[c e] Hc]. unfold putTargetOf.
  rewrite (protoChain_agree _ _ _ _ _ _ Hag Hc), Hc.
  rewrite (findProp_agree n h h' c Hag); [done|].
  eapply protoChainFrom_allocated. exact Hc.
Qed.

Lemma assignable_agree n h h' l :
  agreeOn n h h' → is_Some (protoChain h l) → assignable h' l n ↔ assignable h l n.
Proof. intros Hag Hc. unfold assignable. by rewrite (putTargetOf_agree _ _ _ _ Hag Hc). Qed.

(** Under an assignable name an own property is a writable data
    property. *)
Lemma assignable_own h l m o p :
  assignable h l m → h !! l = Some o → ownProp (props o) m = Some p →
  ∃ v e, p = DataProp v true e.
Proof.
  unfold assignable, putTargetOf. intros Ha Hl Hp.
  destruct (protoChain h l) as [[c e]|] eqn:Hc; [|done].
  destruct (protoChainFrom_head _ _ _ _ _ Hc) as (o' & rest & Hl' & ->).
  cbn [findProp] in Ha. unfold propsOf in Ha. rewrite Hl, Hp in Ha.
  destruct p as [v [] e'|g e']; try done. eauto.
Qed.

Lemma installedProp_assignable h l m o v :
  assignable h l m → h !! l = Some o →
  readProp (installedProp (ownProp (props o) m) v) = Return v.
Proof.
  intros Ha Hl. destruct (ownProp (props o) m) as [p|] eqn:Hp; [|done].
  destruct (assignable_own _ _ _ _ _ Ha Hl Hp) as (v0 & e & ->). done.
Qed.

Lemma install_run h l m v o :
  h !! l = Some o → is_Some (protoChain h l) →
  putTargetOf h l m ≠ Some PutProtoSetter →
  ∃ h', install l m v h = (h', Return tt)
    ∧ length h' = length h
    ∧ (∀ l', l' ≠ l → h' !! l' = h !! l')
    ∧ (assignable h l m →
         h' !! l = Some (Obj (proto o)
                           (setOwn (props o) m (installedProp (ownProp (props o) m) v))
                           (okind o)))
    ∧ (¬ assignable h l m → h' = h).
Proof.
  intros Hl [[c e] Hc] Hns. unfold install, assignable. rewrite Hl.
  destruct (putTargetOf h l m) as [[]|] eqn:Hput.
  - eexists. split; [done|]. split_and!.
    + by rewrite length_insert.
    + intros l' Hne. by rewrite list_lookup_insert_ne.
    + intros _. apply list_lookup_insert_eq. by eapply lookup_lt_Some.
    + intros Hn. by destruct Hn.
  - exists h. split_and!; done.
  - done.
  - unfold putTargetOf in Hput. rewrite Hc in Hput.
    by destruct (findProp h c m) as [[? [] ?|]|], e.
Qed.

Lemma configure_new h n v b :
  h !! n = Some (Obj ProtoObject [] (KSpy (Spy [] PlanDefault v))) → supported b →
  match b with
  | Some b => configure (VRef n) b
  | None => ret tt
  end h
  = (<[n := Obj ProtoObject [] (KSpy (Spy [] (planFor b) v))]> h, Return tt).
Proof.
  intros Hn Hb. destruct b as [b|]; cbn [planFor].
  - destruct Hb as [p Hp]. unfold configure. rewrite Hp. cbn [default].
    unfold spyOf, setSpy. by rewrite Hn.
  - unfold ret. by rewrite list_insert_id.
Qed.

(** [spyIf] on a plain function: a spy is made, and it takes the member's
    place exactly when the slot can be assigned. *)
Lemma spyIf_plain_made h l m b v :
  get h l m = Return v → plainFunction h v = true → supported b →
  putTargetOf h l m ≠ Some PutProtoSetter →
  ∃ h', spyIf (VRef l) m b h = (h', Return (VRef (length h)))
    ∧ spyMade l m (planFor b) v h h'
    ∧ (assignable h l m → spyInstalled l m (planFor b) v h h')
    ∧ (¬ assignable h l m → h' !! l = h !! l).
Proof.
  intros Hget Hpl Hb Hns.
  destruct (get_Return_allocated _ _ _ _ Hget) as [o Hl].
  pose proof (get_Return_protoChain _ _ _ _ Hget) as Hc.
  assert (l < length h) as Hlt by (by eapply lookup_lt_Some).
  set (S0 := Obj ProtoObject [] (KSpy (Spy [] PlanDefault v))).
  pose proof (agreeOn_app m h S0) as Hag.
  pose proof (putTargetOf_agree _ _ _ _ Hag Hc) as Hput.
  assert ((h ++ [S0]) !! l = Some o) as Hl0 by (by apply lookup_app_l_Some).
  assert (is_Some (protoChain (h ++ [S0]) l)) as Hc0.
  { destruct Hc as [[c e] Hc]. rewrite (protoChain_agree _ _ _ _ _ _ Hag Hc). by eexists. }
  destruct (install_run (h ++ [S0]) l m (VRef (length h)) o Hl0 Hc0)
    as (h1 & Hinst & Hlen1 & Hoth1 & Hyes & Hno).
  { by rewrite Hput. }
  assert (h1 !! length h = Some S0) as Hn1.
  { rewrite Hoth1 by lia. by apply list_lookup_middle. }
  assert (length h1 = S (length h)) as Hlen1'.
  { rewrite Hlen1, length_app. simpl. lia. }
  exists (<[length h := Obj ProtoObject [] (KSpy (Spy [] (planFor b) v))]> h1).
  assert (∀ l', l' ≠ l → l' < length h →
            <[length h := Obj ProtoObject [] (KSpy (Spy [] (planFor b) v))]> h1 !! l'
            = h !! l') as Hother.
  { intros l' Hne Hl'. rewrite list_lookup_insert_ne by lia.
    rewrite Hoth1 by done. by rewrite lookup_app_l. }
  assert (<[length h := Obj ProtoObject [] (KSpy (Spy [] (planFor b) v))]> h1 !! length h
          = Some (Obj ProtoObject [] (KSpy (Spy [] (planFor b) v)))) as Hnew.
  { apply list_lookup_insert_eq. lia. }
  assert (assignable h l m →
          <[length h := Obj ProtoObject [] (KSpy (Spy [] (planFor b) v))]> h1 !! l
          = Some (Obj (proto o)
                    (setOwn (props o) m
                       (installedProp (ownProp (props o) m) (VRef (length h))))
                    (okind o))) as Hset.
  { intros Ha. rewrite list_lookup_insert_ne by lia. apply Hyes.
    unfold assignable in *. by rewrite Hput. }
  assert (¬ assignable h l m →
          <[length h := Obj ProtoObject [] (KSpy (Spy [] (planFor b) v))]> h1 !! l
          = Some o) as Hkept.
  { intros Ha. rewrite list_lookup_insert_ne by lia. rewrite Hno; [done|].
    unfold assignable in *. by rewrite Hput. }
  split_and!.
  - unfold spyIf, bind, lift. cbn [getV]. rewrite Hget.
    unfold plainFunction in Hpl. rewrite Hpl.
    unfold spyOn, bind, lift, alloc. rewrite Hget. fold S0. rewrite Hinst.
    pose proof (configure_new h1 (length h) v b Hn1 Hb) as Hconf.
    unfold ret at 1. cbv beta iota.
    destruct b as [b0|]; cbv beta iota in Hconf; by rewrite Hconf.
  - split_and!; [by rewrite length_insert| |done|done].
    exists o. split; [done|].
    destruct (decide (assignable h l m)) as [Ha|Ha]; [right; by apply Hset|left; by apply Hkept].
  - intros Ha. split_and!; [by rewrite length_insert| |done|done].
    exists o. split; [done|by apply Hset].
  - intros Ha. by rewrite Hkept, Hl.
Qed.

Lemma assignable_not_setter h l m :
  assignable h l m → putTargetOf h l m ≠ Some PutProtoSetter.
Proof. unfold assignable. by intros ->. Qed.

Lemma spyIf_plain h l m b v :
  get h l m = Return v → plainFunction h v = true → supported b → assignable h l m →
  ∃ h', spyIf (VRef l) m b h = (h', Return (VRef (length h)))
        ∧ spyInstalled l m (planFor b) v h h'.
Proof.
  intros Hget Hpl Hb Ha.
  destruct (spyIf_plain_made _ _ _ _ _ Hget Hpl Hb (assignable_not_setter _ _ _ Ha))
    as (h' & Hrun & _ & Hi & _).
  exists h'. split; [done|by apply Hi].
Qed.

(** What a made spy leaves in place. *)
Lemma spyInstalled_made l m p orig h h' :
  spyInstalled l m p orig h h' → spyMade l m p orig h h'.
Proof.
  intros (Hlen & (o & Hl & Hl') & Hother & Hn).
  split_and!; [done| |done|done]. exists o. split; [done|by right].
Qed.

Lemma spyMade_agreeOn l m p orig h h' n :
  spyMade l m p orig h h' → m ≠ n → agreeOn n h h'.
Proof.
  intros (Hlen & (o & Hl & Hl') & Hother & _) Hne. split; [lia|].
  intros l0 o0 Hl0. destruct (decide (l0 = l)) as [->|Hl0ne].
  - rewrite Hl in Hl0. injection Hl0 as <-. destruct Hl' as [Hl'|Hl'].
    + eauto.
    + eexists. split; [exact Hl'|]. split; [done|]. cbn [props].
      by apply ownProp_setOwn_ne.
  - exists o0. rewrite Hother; [done|done|]. by eapply lookup_lt_Some.
Qed.

(** A spy that did not take the member's place changed no name. *)
Lemma spyMade_kept_agreeOn l m p orig h h' n :
  spyMade l m p orig h h' → h' !! l = h !! l → agreeOn n h h'.
Proof.
  intros (Hlen & _ & Hother & _) Hkept. split; [lia|].
  intros l0 o0 Hl0. exists o0. split; [|done].
  destruct (decide (l0 = l)) as [->|Hl0ne]; [congruence|].
  rewrite Hother; [done|done|]. by eapply lookup_lt_Some.
Qed.

Lemma spyMade_links l m p orig h h' :
  spyMade l m p orig h h' →
  ∀ l0 o0, h !! l0 = Some o0 →
    ∃ o', h' !! l0 = Some o' ∧ proto o' = proto o0 ∧ okind o' = okind o0.
Proof.
  intros (Hlen & (o & Hl & Hl') & Hother & _) l0 o0 Hl0.
  destruct (decide (l0 = l)) as [->|Hl0ne].
  - rewrite Hl in Hl0. injection Hl0 as <-. destruct Hl' as [Hl'|Hl']; eauto.
  - exists o0. rewrite Hother; [done|done|]. by eapply lookup_lt_Some.
Qed.

Lemma spyMade_protoChain l m p orig h h' l0 c e :
  spyMade l m p orig h h' → protoChain h l0 = Some (c, e) →
  protoChain h' l0 = Some (c, e).
Proof.
  intros Hi Hc. unfold protoChain in *.
  eapply protoChainFrom_ext; [exact Hc| |].
  - destruct Hi as [-> _]. lia.
  - intros l1 o1 Hl1. destruct (spyMade_links _ _ _ _ _ _ Hi _ _ Hl1) as (o' & ? & ? & _).
    eauto.
Qed.

(** What an installation leaves in place. *)
Lemma spyInstalled_agreeOn l m p orig h h' n :
  spyInstalled l m p orig h h' → m ≠ n → agreeOn n h h'.
Proof. intros Hi. by eapply spyMade_agreeOn, spyInstalled_made. Qed.

Lemma spyInstalled_protoChain l m p orig h h' l0 c e :
  spyInstalled l m p orig h h' → protoChain h l0 = Some (c, e) →
  protoChain h' l0 = Some (c, e).
Proof. intros Hi. by eapply spyMade_protoChain, spyInstalled_made. Qed.

(** After an installation in a slot that can be assigned the member
    reads as the new spy. *)
Lemma spyInstalled_get l m p orig h h' v :
  spyInstalled l m p orig h h' → assignable h l m → get h l m = Return v →
  get h' l m = Return (VRef (length h)).
Proof.
  intros Hi Ha Hget. pose proof Hi as (Hlen & (o & Hl & Hl') & _ & _).
  erewrite get_own; [| |exact Hl'|cbn [props]; apply ownProp_setOwn_eq].
  - by eapply installedProp_assignable.
  - unfold get in Hget. destruct (protoChain h l) as [[c e]|] eqn:Hc; [|done].
    rewrite (spyInstalled_protoChain _ _ _ _ _ _ _ _ _ Hi Hc). by eexists.
Qed.

Lemma spyMade_isSpy l m p orig h h' :
  spyMade l m p orig h h' →
  spyOf h' (VRef (length h)) = Some (Spy [] p orig).
Proof. intros (_ & _ & _ & Hn). unfold spyOf. by rewrite Hn. Qed.

Lemma spyInstalled_isSpy l m p orig h h' :
  spyInstalled l m p orig h h' →
  spyOf h' (VRef (length h)) = Some (Spy [] p orig).
Proof. intros Hi. by eapply spyMade_isSpy, spyInstalled_made. Qed.

Lemma spyOf_isSpy h v s : spyOf h v = Some s → isSpy h v = true.
Proof.
  destruct v; simpl; try done. destruct (h !! l) as [[? ? []]|]; done.
Qed.

Lemma isSpy_isFunction h v : isSpy h v = true → isFunction h v = true.
Proof.
  destruct v; simpl; try done. destruct (h !! l) as [[? ? []]|]; done.
Qed.



(** Where the slot cannot be assigned the spy does not take the member's
    place: the member reads as the function it was, and a second call
    makes a second spy. *)
Example spyIf_read_only_member :
  spyIf (VRef 0) "save" None readOnlyMethodHeap
  = (readOnlyMethodHeap ++ [Obj ProtoObject [] (KSpy (Spy [] PlanDefault (VRef 1)))],
     Return (VRef 2))
  ∧ get (spyIf (VRef 0) "save" None readOnlyMethodHeap).1 0 "save" = Return (VRef 1)
  ∧ (spyIf (VRef 0) "save" None (spyIf (VRef 0) "save" None readOnlyMethodHeap).1).2
    = Return (VRef 3).
Proof. split_and!; reflexivity. Qed.

(** ** Resetting named spies *)

Lemma resetObj_shape o : proto (resetObj o) = proto o ∧ props (resetObj o) = props o.
Proof. unfold resetObj. by destruct (okind o). Qed.

Lemma resetObj_idemp o : resetObj (resetObj o) = resetObj o.
Proof. unfold resetObj. destruct o as [p ps []]; done. Qed.

Lemma resetsOf_refl h : resetsOf h h.
Proof. split; [done|]. intros l o Hl. by left. Qed.

Lemma resetsOf_agreeOn n h h' : resetsOf h h' → agreeOn n h h'.
Proof.
  intros [Hlen Hr]. split; [lia|]. intros l o Hl.
  destruct (Hr _ _ Hl) as [Hl'|Hl']; eexists; (split; [exact Hl'|]).
  - done.
  - destruct (resetObj_shape o) as [-> ->]. done.
Qed.

Lemma resetsOf_get n h h' l v :
  resetsOf h h' → get h l n = Return v → get h' l n = Return v.
Proof. intros Hr Hget. eapply get_agree; [by apply resetsOf_agreeOn|done|done]. Qed.

Lemma resetsOf_isSpy h h' v : resetsOf h h' → isSpy h' v = isSpy h v.
Proof.
  intros [Hlen Hr]. destruct v; try done. simpl.
  destruct (h !! l) as [o|] eqn:Hl.
  - destruct (Hr _ _ Hl) as [->| ->]; [done|].
    unfold resetObj. destruct o as [p ps []]; done.
  - apply lookup_ge_None in Hl. rewrite (proj2 (lookup_ge_None h' l)); [done|lia].
Qed.

(** One [reset(spy)] on a heap that already is a reset of [h]. *)
Lemma reset_run h hc l s o :
  resetsOf h hc → h !! l = Some o → okind o = KSpy s →
  ∃ h', reset (VRef l) hc = (h', Return tt)
        ∧ resetsOf h h'
        ∧ h' !! l = Some (resetObj o)
        ∧ (∀ l', l' ≠ l → h' !! l' = hc !! l').
Proof.
  intros [Hlen Hr] Hl Hk.
  assert (l < length hc) as Hlt by (apply lookup_lt_Some in Hl; lia).
  assert (∃ oc sc, hc !! l = Some oc ∧ okind oc = KSpy sc
                   ∧ Obj (proto oc) (props oc) (KSpy (Spy [] PlanDefault (originalValue sc)))
                     = resetObj o) as (oc & sc & Hlc & Hkc & Heq).
  { destruct (Hr _ _ Hl) as [Hc|Hc].
    - exists o, s. split_and!; [done|done|]. unfold resetObj. by rewrite Hk.
    - eexists (resetObj o), _. split; [done|]. unfold resetObj. rewrite Hk. done. }
  exists (<[l := resetObj o]> hc). split_and!.
  - destruct oc as [pc psc kc]. cbn [okind proto props] in *. subst kc.
    unfold reset, spyReset, spyOf, setSpy. rewrite Hlc. cbn [proto props originalValue].
    by rewrite Heq.
  - split; [by rewrite length_insert|]. intros l0 o0 Hl0.
    destruct (decide (l0 = l)) as [->|Hne].
    + rewrite Hl in Hl0. injection Hl0 as <-. right. by apply list_lookup_insert_eq.
    + rewrite list_lookup_insert_ne by done. by apply Hr.
  - by apply list_lookup_insert_eq.
  - intros l' Hne. by rewrite list_lookup_insert_ne.
Qed.

Lemma resetEachLoop_run h l ms :
  (∀ m, m ∈ ms → ∃ v, get h l m = Return v) →
  ∀ hc, resetsOf h hc →
  ∃ h', resetEachLoop (VRef l) ms hc = (h', Return tt)
        ∧ resetsOf h h'
        ∧ (∀ l0 o, h !! l0 = Some o → hc !! l0 = Some (resetObj o) → h' !! l0 = Some (resetObj o))
        ∧ (∀ m l0 o, m ∈ ms → get h l m = Return (VRef l0) → h !! l0 = Some o →
             h' !! l0 = Some (resetObj o))
        ∧ (∀ l0, (∀ m, m ∈ ms → get h l m ≠ Return (VRef l0)) → h' !! l0 = hc !! l0).
Proof.
  induction ms as [|m ms IH]; intros Hread hc Hr.
  - exists hc. split_and!; [done|done|done| |done].
    intros m l0 o Hin. by apply elem_of_nil in Hin.
  - destruct (Hread m) as [v Hv]; [left|].
    assert (∀ m0, m0 ∈ ms → ∃ v0, get h l m0 = Return v0) as Hread'.
    { intros m0 Hin. apply Hread. by right. }
    cbn [resetEachLoop]. unfold bind at 1, lift at 1. cbn [getV].
    rewrite (resetsOf_get _ _ _ _ _ Hr Hv).
    unfold bind at 1, lift at 1. rewrite (resetsOf_isSpy _ _ _ Hr).
    destruct (isSpy h v) eqn:Hspy.
    + destruct v as [| | | | | |l1|]; try done. simpl in Hspy.
      destruct (h !! l1) as [o1|] eqn:Hl1; [|done].
      destruct o1 as [p1 ps1 k1]. destruct k1 as [| |s1]; try done.
      destruct (reset_run h hc l1 s1 _ Hr Hl1 eq_refl) as (h1 & Hrun & Hr1 & Hl1' & Hoth).
      unfold bind at 1. rewrite Hrun.
      destruct (IH Hread' h1 Hr1) as (h' & Hloop & Hr' & Hkeep & Hnamed & Hframe).
      exists h'. split_and!; [done|done| | |].
      * intros l0 o Hl0 Hc. apply Hkeep; [done|].
        destruct (decide (l0 = l1)) as [->|Hne]; [congruence|]. by rewrite Hoth.
      * intros m0 l0 o [->|Hin]%elem_of_cons Hg Hl0.
        -- rewrite Hv in Hg. injection Hg as <-. rewrite Hl1 in Hl0. injection Hl0 as <-.
           by apply Hkeep.
        -- by eapply Hnamed.
      * intros l0 Hno. rewrite Hframe.
        -- apply Hoth. intros ->. apply (Hno m); [left|done].
        -- intros m0 Hin. apply Hno. by right.
    + unfold bind at 1, ret at 1.
      destruct (IH Hread' hc Hr) as (h' & Hloop & Hr' & Hkeep & Hnamed & Hframe).
      exists h'. split_and!; [done|done|done| |].
      * intros m0 l0 o [->|Hin]%elem_of_cons Hg Hl0.
        -- rewrite Hv in Hg. injection Hg as ->. simpl in Hspy. rewrite Hl0 in Hspy.
           destruct (Hr' ) as [_ Hr'']. destruct (Hr'' _ _ Hl0) as [->| ->]; [|done].
           unfold resetObj. destruct o as [p ps []]; done.
        -- by eapply Hnamed.
      * intros l0 Hno. apply Hframe. intros m0 Hin. apply Hno. by right.
Qed.

(** C8. On an object whose named members can all be read, [resetEach]
    raises no error and returns the object; every named member that is a
    spy is reset (no recorded call, no configured behaviour); every named
    member that is not a spy still reads as the same value, and the object
    it refers to is untouched; and no object other than the named spies
    changes. *)
Theorem resetEach_resets_named_spies (h : heap) (l : loc) (methods : names)
    (Hread : ∀ m, m ∈ toArray methods → ∃ v, get h l m = Return v) :
  ∃ h', resetEach (VRef l) methods h = (h', Return (VRef l))
    ∧ (∀ m v s, m ∈ toArray methods → get h l m = Return v → spyOf h v = Some s →
         spyOf h' v = Some (Spy [] PlanDefault (originalValue s)))
    ∧ (∀ m v, m ∈ toArray methods → get h l m = Return v → isSpy h v = false →
         get h' l m = Return v ∧ ∀ l0, v = VRef l0 → h' !! l0 = h !! l0)
    ∧ (∀ l0, (∀ m, m ∈ toArray methods → get h l m ≠ Return (VRef l0)) →
         h' !! l0 = h !! l0).
Proof.
  destruct (resetEachLoop_run h l (toArray methods) Hread h (resetsOf_refl h))
    as (h' & Hloop & Hr & _ & Hnamed & Hframe).
  exists h'. split_and!.
  - unfold resetEach, bind, ret. by rewrite Hloop.
  - intros m v s Hin Hg Hs. destruct v as [| | | | | |l0|]; try done.
    simpl in Hs. destruct (h !! l0) as [o|] eqn:Hl0; [|done].
    destruct o as [p ps k]. destruct k as [| |s0]; try done. injection Hs as ->.
    simpl. by rewrite (Hnamed m l0 _ Hin Hg Hl0).
  - intros m v Hin Hg Hspy. split; [by eapply resetsOf_get|].
    intros l0 ->. simpl in Hspy. destruct Hr as [Hlen Hr].
    destruct (h !! l0) as [o|] eqn:Hl0.
    + destruct (Hr _ _ Hl0) as [->| ->]; [done|].
      unfold resetObj. destruct o as [p ps []]; done.
    + apply lookup_ge_None in Hl0. apply lookup_ge_None. lia.
  - done.
Qed.

Lemma resetEach_resets_named_spies_witness :
  ∃ h', resetEach (VRef 0) (NameArray ["foo"; "bar"]) spiedHeap = (h', Return (VRef 0))
    ∧ (∀ m v s, m ∈ ["foo"; "bar"] → get spiedHeap 0 m = Return v →
         spyOf spiedHeap v = Some s →
         spyOf h' v = Some (Spy [] PlanDefault (originalValue s)))
    ∧ (∀ m v, m ∈ ["foo"; "bar"] → get spiedHeap 0 m = Return v →
         isSpy spiedHeap v = false →
         get h' 0 m = Return v ∧ ∀ l0, v = VRef l0 → h' !! l0 = spiedHeap !! l0)
    ∧ (∀ l0, (∀ m, m ∈ ["foo"; "bar"] → get spiedHeap 0 m ≠ Return (VRef l0)) →
         h' !! l0 = spiedHeap !! l0).
Proof.
  apply (resetEach_resets_named_spies spiedHeap 0 (NameArray ["foo"; "bar"])).
  intros m Hin. cbn [toArray] in Hin.
  apply elem_of_cons in Hin as [->|Hin]; [by eexists|].
  apply elem_of_cons in Hin as [->|Hin]; [by eexists|].
  by apply elem_of_nil in Hin.
Defined.

Example resetEach_not_a_spy :
  resetEach (VRef 0) (OneName "save") plainHeap = (plainHeap, Return (VRef 0)).
Proof. reflexivity. Qed.
(** ** Spying preserves the rest of the heap *)

Lemma spiesAdded_refl h : spiesAdded h h.
Proof.
  split_and!; [done| |].
  - intros l o Hl. eauto.
  - intros l o' Hle Hl. apply lookup_lt_Some in Hl. lia.
Qed.

Lemma spyMade_spiesAdded h hc h1 l m p v :
  spiesAdded h hc → spyMade l m p v hc h1 → spiesAdded h h1.
Proof.
  intros (Hlen & Hold & Hnew) Hi.
  pose proof (spyMade_links _ _ _ _ _ _ Hi) as Hlinks.
  destruct Hi as (Hlen1 & _ & Hother & Hn).
  split_and!; [lia| |].
  - intros l0 o0 Hl0. destruct (Hold _ _ Hl0) as (oc & Hlc & Hp & Hk).
    destruct (Hlinks _ _ Hlc) as (o' & ? & ? & ?). exists o'. split_and!; congruence.
  - intros l0 o' Hle Hl0. destruct (decide (l0 = length hc)) as [->|Hne].
    + rewrite Hn in Hl0. injection Hl0 as <-. split; [done|]. by eexists.
    + assert (l0 < length hc) as Hlt.
      { apply lookup_lt_Some in Hl0. lia. }
      destruct (lookup_lt_is_Some_2 hc l0 Hlt) as [oc Hlc].
      destruct (Hlinks _ _ Hlc) as (o'' & Hl0' & Hp & Hk).
      rewrite Hl0 in Hl0'. injection Hl0' as <-.
      destruct (Hnew _ _ Hle Hlc) as (Hp' & s & Hs). split; [congruence|].
      exists s. congruence.
Qed.

Lemma spiesAdded_plainFunction h hc v :
  spiesAdded h hc → plainFunction hc v = plainFunction h v.
Proof.
  intros (Hlen & Hold & Hnew). unfold plainFunction.
  destruct v as [| | | | | |l0|]; try done. simpl.
  destruct (h !! l0) as [o|] eqn:Hl0.
  - destruct (Hold _ _ Hl0) as (o' & -> & _ & Hk).
    destruct o as [? ? k], o' as [? ? k']. simpl in Hk. subst k'. done.
  - apply lookup_ge_None in Hl0.
    destruct (hc !! l0) as [o'|] eqn:Hlc; [|done].
    destruct (Hnew _ _ Hl0 Hlc) as (_ & s & Hs).
    destruct o' as [? ? k']. simpl in Hs. by subst k'.
Qed.


(** A spied name stays spied while the name itself is left alone. *)
Lemma installedAs_made h hc h1 l l1 n m p v pl :
  spyMade l1 m p v hc h1 → agreeOn n hc h1 →
  installedAs h hc l n pl → installedAs h h1 l n pl.
Proof.
  intros Hi Hag (v0 & sp & o' & Hg & Hpl & Hgc & Hsp & Hlsp & Hk).
  destruct (spyMade_links _ _ _ _ _ _ Hi _ _ Hlsp) as (o'' & Hl1 & _ & Hk1).
  exists v0, sp, o''. split_and!; try done.
  - eapply get_agree; [exact Hag|done|done].
  - congruence.
Qed.

Lemma installedAs_not_agreeOn h hc l n pl :
  installedAs h hc l n pl → agreeOn n h hc → False.
Proof.
  intros (v0 & sp & o' & Hg & Hpl & Hgc & Hsp & Hlsp & Hk) Hag.
  pose proof (get_agree _ _ _ _ _ Hag Hg ltac:(done)) as Hgc'.
  rewrite Hgc in Hgc'. injection Hgc' as <-.
  assert (h !! sp = None) as Hnone by (apply lookup_ge_None; lia).
  unfold plainFunction in Hpl. simpl in Hpl. by rewrite Hnone in Hpl.
Qed.

Lemma installedAs_not_plain h hc l n pl sp :
  installedAs h hc l n pl → get hc l n = Return sp → plainFunction hc sp = false.
Proof.
  intros (v0 & sp0 & o' & Hg & Hpl & Hgc & Hsp & Hlsp & Hk) Hget.
  rewrite Hgc in Hget. injection Hget as <-.
  unfold plainFunction. simpl. rewrite Hlsp.
  destruct o' as [? ? k]. simpl in Hk. by subst k.
Qed.

(** ** [spyEach] *)

Lemma firstIndex_exists (ms : list string) m : m ∈ ms → ∃ j, firstIndex ms m j.
Proof.
  induction ms as [|m0 ms IH]; intros Hin; [by apply elem_of_nil in Hin|].
  destruct (decide (m0 = m)) as [->|Hne].
  - exists 0. split; [done|]. intros j' Hj'. lia.
  - apply elem_of_cons in Hin as [->|Hin]; [done|].
    destruct (IH Hin) as (j & Hj & Hfirst). exists (S j). split; [done|].
    intros [|j'] Hj'; cbn; [congruence|]. apply Hfirst. lia.
Qed.

Lemma firstIndex_tail (ms : list string) m0 m j :
  firstIndex (m0 :: ms) m (S j) → m ≠ m0 ∧ firstIndex ms m j.
Proof.
  intros [Hj Hfirst]. split.
  - intros ->. by apply (Hfirst 0); [lia|].
  - split; [done|]. intros j' Hj'. apply (Hfirst (S j')). lia.
Qed.

Lemma firstIndex_head (ms : list string) m0 m : firstIndex (m0 :: ms) m 0 → m = m0.
Proof. intros [[= ->] _]. done. Qed.

Lemma spyEachLoop_cons obj single bs i m rest :
  spyEachLoop obj single bs i (m :: rest)
  = (let! _ := spyIf obj m (turnBehavior single bs i) in
     spyEachLoop obj single bs (S i) rest).
Proof. unfold turnBehavior. by destruct single. Qed.



Lemma behaviorAt_supported (bs : list (option behavior)) i :
  (∀ b, b ∈ bs → supported b) → supported (behaviorAt bs i).
Proof.
  intros Hsup. unfold behaviorAt. destruct (bs !! i) as [b|] eqn:Hb; [|done].
  apply Hsup. by eapply list_elem_of_lookup_2.
Qed.

Lemma turnBehavior_supported single (bs : list (option behavior)) j :
  (∀ b, b ∈ bs → supported b) → supported (turnBehavior single bs j).
Proof. intros Hsup. unfold turnBehavior. destruct single; by apply behaviorAt_supported. Qed.

Lemma spyEachInv_init h l : spyEachInv h l h.
Proof. split; [apply spiesAdded_refl|]. intros n. left. apply agreeOn_refl. Qed.

(** One turn of the loop on a member that is still the plain function it
    was: a spy is made, and it takes the member's place if the slot can be
    assigned. *)
Lemma spyEach_turn h l hc m b v :
  spyEachInv h l hc → agreeOn m h hc →
  get h l m = Return v → plainFunction h v = true → supported b →
  putTargetOf h l m ≠ Some PutProtoSetter →
  ∃ h1, spyIf (VRef l) m b hc = (h1, Return (VRef (length hc)))
    ∧ spyEachInv h l h1
    ∧ spiesAdded hc h1
    ∧ (∀ n, n ≠ m ∨ ¬ assignable h l m → agreeOn n hc h1)
    ∧ (∀ n pl, installedAs h hc l n pl → installedAs h h1 l n pl)
    ∧ (assignable h l m →
         spyInstalled l m (planFor b) v hc h1 ∧ installedAs h h1 l m (planFor b)
         ∧ get h1 l m = Return (VRef (length hc))).
Proof.
  intros [Hadd Hnames] Hag Hv Hpl Hb Hns.
  pose proof (get_agree _ _ _ _ _ Hag Hv ltac:(done)) as Hvc.
  pose proof (get_Return_protoChain _ _ _ _ Hv) as Hc.
  pose proof (putTargetOf_agree _ _ _ _ Hag Hc) as Hput.
  assert (plainFunction hc v = true) as Hplc
    by (by rewrite (spiesAdded_plainFunction _ _ _ Hadd)).
  destruct (spyIf_plain_made hc l m b v Hvc Hplc Hb) as (h1 & Hrun & Hmade & Hyes & Hno).
  { by rewrite Hput. }
  assert (∀ n, n ≠ m ∨ ¬ assignable h l m → agreeOn n hc h1) as Hstep.
  { intros n [Hne|Hna].
    - eapply spyMade_agreeOn; [exact Hmade|done].
    - eapply spyMade_kept_agreeOn; [exact Hmade|]. apply Hno.
      unfold assignable in *. by rewrite Hput. }
  assert (∀ n pl, installedAs h hc l n pl → installedAs h h1 l n pl) as Hkeep.
  { intros n pl Hn. eapply installedAs_made; [exact Hmade| |exact Hn].
    apply Hstep. left. intros ->. by eapply installedAs_not_agreeOn. }
  assert (assignable h l m →
          spyInstalled l m (planFor b) v hc h1 ∧ installedAs h h1 l m (planFor b)
          ∧ get h1 l m = Return (VRef (length hc))) as Hinst.
  { intros Ha.
    assert (assignable hc l m) as Hac by (unfold assignable in *; by rewrite Hput).
    pose proof (Hyes Hac) as Hi.
    pose proof (spyInstalled_get _ _ _ _ _ _ _ Hi Hac Hvc) as Hg1.
    split; [done|]. split; [|done].
    exists v, (length hc), (Obj ProtoObject [] (KSpy (Spy [] (planFor b) v))).
    split_and!; try done.
    - by destruct Hadd.
    - by destruct Hi as (_ & _ & _ & Hn). }
  exists h1. split_and!; try done.
  - split; [by eapply spyMade_spiesAdded|].
    intros n. destruct (decide (n = m)) as [->|Hne].
    + destruct (decide (assignable h l m)) as [Ha|Ha].
      * right. exists (planFor b). by apply Hinst.
      * left. eapply agreeOn_trans; [exact Hag|]. apply Hstep. by right.
    + destruct (Hnames n) as [Hagn|(pln & Hinsn)].
      * left. eapply agreeOn_trans; [exact Hagn|]. apply Hstep. by left.
      * right. exists pln. by apply Hkeep.
  - eapply spyMade_spiesAdded; [apply spiesAdded_refl|exact Hmade].
Qed.

(** The loop of [spyEach] on object [l], started on [h] and now on [hc],
    turn [i]. *)
Lemma spyEachLoop_effect h l single bs ms :
  ∀ i hc,
    spyEachInv h l hc →
    (∀ m, m ∈ ms → ∃ v, get h l m = Return v) →
    (∀ j, supported (turnBehavior single bs j)) →
    (∀ m v, m ∈ ms → get h l m = Return v → plainFunction h v = true →
       putTargetOf h l m ≠ Some PutProtoSetter) →
    ∃ h', spyEachLoop (VRef l) single bs i ms hc = (h', Return tt)
      ∧ spyEachInv h l h'
      ∧ spiesAdded hc h'
      ∧ (∀ n pl, installedAs h hc l n pl → installedAs h h' l n pl)
      ∧ (∀ n, n ∉ ms → agreeOn n hc h')
      ∧ (∀ n v, get hc l n = Return v → plainFunction hc v = false → agreeOn n hc h')
      ∧ (∀ n, agreeOn n h hc → ¬ assignable h l n → agreeOn n hc h')
      ∧ (∀ j m v, firstIndex ms m j → agreeOn m h hc →
           get h l m = Return v → plainFunction h v = true → assignable h l m →
           installedAs h h' l m (planFor (turnBehavior single bs (i + j)))).
Proof.
  induction ms as [|m ms IH]; intros i hc Hinv Hread Hsup Hns.
  - exists hc. split_and!; try done.
    + apply spiesAdded_refl.
    + intros n _. apply agreeOn_refl.
    + intros n v _ _. apply agreeOn_refl.
    + intros n _ _. apply agreeOn_refl.
    + intros j m v [Hj _]. done.
  - destruct (Hread m) as [v Hv]; [left|].
    assert (∀ m0, m0 ∈ ms → ∃ v0, get h l m0 = Return v0) as Hread'.
    { intros m0 Hin. apply Hread. by right. }
    assert (∀ m0 v0, m0 ∈ ms → get h l m0 = Return v0 → plainFunction h v0 = true →
              putTargetOf h l m0 ≠ Some PutProtoSetter) as Hns'.
    { intros m0 v0 Hin. apply Hns. by right. }
    rewrite spyEachLoop_cons. unfold bind at 1.
    assert (∀ sp, get hc l m = Return sp → plainFunction hc sp = false →
              ∃ h', spyEachLoop (VRef l) single bs (S i) ms hc = (h', Return tt)
                ∧ spyEachInv h l h'
                ∧ spiesAdded hc h'
                ∧ (∀ n pl, installedAs h hc l n pl → installedAs h h' l n pl)
                ∧ (∀ n, n ∉ m :: ms → agreeOn n hc h')
                ∧ (∀ n v, get hc l n = Return v → plainFunction hc v = false →
                     agreeOn n hc h')
                ∧ (∀ n, agreeOn n h hc → ¬ assignable h l n → agreeOn n hc h')
                ∧ (∀ j m0 v0, firstIndex ms m0 j → agreeOn m0 h hc →
                     get h l m0 = Return v0 → plainFunction h v0 = true →
                     assignable h l m0 →
                     installedAs h h' l m0 (planFor (turnBehavior single bs (S i + j)))))
      as Hskip.
    { intros sp Hsp Hnp.
      destruct (IH (S i) hc Hinv Hread' Hsup Hns')
        as (h' & Hloop & Hinv' & Hadd' & Hkeep & Hunt & Hnonpl & Hnoassign & Hfirst).
      exists h'. split_and!; try done.
      intros n Hn. apply Hunt. intros Hin. apply Hn. by right. }
    destruct Hinv as [Hadd Hnames].
    destruct (Hnames m) as [Hag|(pl & Hins)].
    + (* the member is as it was in [h] *)
      pose proof (get_agree _ _ _ _ _ Hag Hv ltac:(done)) as Hvc.
      destruct (plainFunction h v) eqn:Hpl.
      * destruct (spyEach_turn h l hc m (turnBehavior single bs i) v
                    (conj Hadd Hnames) Hag Hv Hpl (Hsup i))
          as (h1 & -> & Hinv1 & Hadd1 & Hstep & Hkeep1 & Hinst).
        { eapply Hns; [left|done|done]. }
        destruct (IH (S i) h1 Hinv1 Hread' Hsup Hns')
          as (h' & Hloop & Hinv' & Hadd' & Hkeep & Hunt & Hnonpl & Hnoassign & Hfirst).
        assert (∀ sp, get h1 l m = Return sp → plainFunction h1 sp = false →
                  agreeOn m h1 h') as Hm.
        { intros sp. apply Hnonpl. }
        exists h'. split_and!; [done|done| | | | | |].
        -- destruct Hadd1 as (Hl1 & Ho1 & Hn1), Hadd' as (Hl2 & Ho2 & Hn2).
           split_and!; [lia| |].
           ++ intros x o Hx. destruct (Ho1 _ _ Hx) as (o1 & Hx1 & ? & ?).
              destruct (Ho2 _ _ Hx1) as (o2 & Hx2 & ? & ?).
              exists o2. split_and!; congruence.
           ++ intros x o' Hle Hx. destruct (decide (length h1 ≤ x)) as [Hge|Hlt].
              ** by apply (Hn2 x o').
              ** assert (x < length h1) as Hlt' by lia.
                 destruct (lookup_lt_is_Some_2 h1 x Hlt') as [o1 Hx1].
                 destruct (Ho2 _ _ Hx1) as (o2 & Hx2 & ? & ?).
                 rewrite Hx in Hx2. injection Hx2 as <-.
                 destruct (Hn1 _ _ Hle Hx1) as (? & s & ?).
                 split; [congruence|]. exists s. congruence.
        -- intros n pln Hn. by apply Hkeep, Hkeep1.
        -- intros n Hn. eapply agreeOn_trans.
           ++ apply Hstep. left. intros ->. apply Hn. left.
           ++ apply Hunt. intros Hin. apply Hn. by right.
        -- intros n v0 Hg0 Hpl0.
           assert (n ≠ m) as Hne.
           { intros ->. rewrite Hvc in Hg0. injection Hg0 as <-.
             rewrite (spiesAdded_plainFunction _ _ _ Hadd) in Hpl0. congruence. }
           assert (agreeOn n hc h1) as Hag1 by (apply Hstep; by left).
           eapply agreeOn_trans; [exact Hag1|].
           eapply Hnonpl.
           ++ eapply get_agree; [exact Hag1|exact Hg0|done].
           ++ destruct Hinv1 as [Hadd1' _].
              rewrite (spiesAdded_plainFunction _ _ _ Hadd1').
              by rewrite <- (spiesAdded_plainFunction _ _ _ Hadd).
        -- intros n Hagn Hna.
           assert (agreeOn n hc h1) as Hag1.
           { destruct (decide (n = m)) as [->|Hne]; apply Hstep; [by right|by left]. }
           eapply agreeOn_trans; [exact Hag1|].
           apply Hnoassign; [|done]. by eapply agreeOn_trans.
        -- intros [|j] m0 v0 Hj Hag0 Hg0 Hpl0 Ha0.
           ++ apply firstIndex_head in Hj as ->. rewrite Nat.add_0_r.
              apply Hkeep. by apply Hinst.
           ++ apply firstIndex_tail in Hj as [Hne Hj].
              replace (i + S j) with (S i + j) by lia.
              eapply Hfirst; [done| |done|done|done].
              eapply agreeOn_trans; [exact Hag0|]. apply Hstep. by left.
      * assert (plainFunction hc v = false) as Hplc
          by (by rewrite (spiesAdded_plainFunction _ _ _ Hadd)).
        rewrite (spyIf_other _ _ _ _ _ Hvc Hplc).
        destruct (Hskip v Hvc Hplc)
          as (h' & Hloop & Hinv' & Hadd' & Hkeep & Hunt & Hnonpl & Hnoassign & Hfirst).
        exists h'. split_and!; try done.
        intros [|j] m0 v0 Hj Hag0 Hg0 Hpl0 Ha0.
        -- apply firstIndex_head in Hj as ->. congruence.
        -- apply firstIndex_tail in Hj as [Hne Hj].
           replace (i + S j) with (S i + j) by lia. by eapply Hfirst.
    + (* the member was spied by an earlier turn *)
      pose proof Hins as (v0 & sp & o' & Hg & Hpl & Hgc & Hsp & Hlsp & Hk).
      pose proof (installedAs_not_plain _ _ _ _ _ _ Hins Hgc) as Hnp.
      rewrite (spyIf_other _ _ _ _ _ Hgc Hnp).
      destruct (Hskip _ Hgc Hnp)
        as (h' & Hloop & Hinv' & Hadd' & Hkeep & Hunt & Hnonpl & Hnoassign & Hfirst).
      exists h'. split_and!; try done.
      intros [|j] m0 v1 Hj Hag0 Hg0 Hpl0 Ha0.
      * apply firstIndex_head in Hj as ->. exfalso. by eapply installedAs_not_agreeOn.
      * apply firstIndex_tail in Hj as [Hne Hj].
        replace (i + S j) with (S i + j) by lia. by eapply Hfirst.
Qed.



(** The run of the witness: [wipe], named past the end, gets a spy
    without configured behaviour; [save], named again past the end, keeps
    the spy and the behaviour of its first turn. *)
Example spyEach_three_methods_run :
  spyOf (spyEach (VRef 0) (NameArray ["save"; "load"; "wipe"; "save"])
           (BehaviorArray [Some (Behavior "andReturn" [VNum 10]);
                           Some (Behavior "andCallThrough" [])]) threeMethods).1
        (VRef 6)
  = Some (Spy [] PlanDefault (VRef 3))
  ∧ get (spyEach (VRef 0) (NameArray ["save"; "load"; "wipe"; "save"])
           (BehaviorArray [Some (Behavior "andReturn" [VNum 10]);
                           Some (Behavior "andCallThrough" [])]) threeMethods).1
        0 "save"
    = Return (VRef 4)
  ∧ spyOf (spyEach (VRef 0) (NameArray ["save"; "load"; "wipe"; "save"])
             (BehaviorArray [Some (Behavior "andReturn" [VNum 10]);
                             Some (Behavior "andCallThrough" [])]) threeMethods).1
          (VRef 4)
    = Some (Spy [] (PlanReturn (VNum 10)) (VRef 1))
  ∧ length (spyEach (VRef 0) (NameArray ["save"; "load"; "wipe"; "save"])
              (BehaviorArray [Some (Behavior "andReturn" [VNum 10]);
                              Some (Behavior "andCallThrough" [])]) threeMethods).1
    = 7.
Proof. split_and!; reflexivity. Qed.

(** ** Invariants of the walk *)

Section WalkInvariant.

Variable iterator : value → string → M unit.
(** [I] holds between iterator calls; [F] holds after a call that did
    not return. *)
Variables I F : walk → Prop.

Hypothesis visit_step :
  ∀ w cur i p, I w → visitGuard w cur i p →
    outcomeIs I F (visitProp iterator cur i p w).

Lemma forInLoop_inv cur keys :
  ∀ w, I w → outcomeIs I (λ w', I w' ∨ F w') (forInLoop iterator cur keys w).
Proof.
  induction keys as [|i keys IH]; intros w Hw; [done|].
  cbn [forInLoop]. unfold bind at 1, lift at 1.
  destruct (truthy (dictGet (foundProps w) i)) eqn:Hfound; [by apply IH|].
  unfold bind at 1, lift at 1.
  destruct (get (heapOf w) cur i) as [v|e| |] eqn:Hget; try (by left).
  unfold bind at 1.
  assert (visitGuard w cur i ViaForIn) as Hg by (split_and!; eauto).
  pose proof (visit_step w cur i ViaForIn Hw Hg) as Hv.
  destruct (visitProp iterator cur i ViaForIn w) as [w' [[]|e| |]];
    try (by right).
  by apply IH.
Qed.

Lemma propsLoop_inv cur ps :
  ∀ w, I w → outcomeIs I (λ w', I w' ∨ F w') (propsLoop iterator cur ps w).
Proof.
  induction ps as [|n ps IH]; intros w Hw; [done|].
  cbn [propsLoop]. unfold bind at 1, lift at 1.
  destruct (get (heapOf w) cur n) as [v|e| |] eqn:Hget; try (by left).
  unfold bind at 1, lift at 1.
  destruct (bool_decide (n = "prototype")) eqn:Hproto; [by apply IH|].
  destruct (truthy (dictGet (foundProps w) n)) eqn:Hfound; [by apply IH|].
  cbn [negb andb]. unfold bind at 1, lift at 1.
  destruct (descriptorOf (heapOf w) cur n) as [d|e| |] eqn:Hd; try (by left).
  destruct (writable d) eqn:Hw'; [|by apply IH].
  unfold bind at 1.
  apply bool_decide_eq_false_1 in Hproto.
  assert (visitGuard w cur n ViaOwnNames) as Hg by (split_and!; eauto).
  pose proof (visit_step w cur n ViaOwnNames Hw Hg) as Hv.
  destruct (visitProp iterator cur n ViaOwnNames w) as [w' [[]|e| |]];
    try (by right).
  by apply IH.
Qed.

Lemma walkLevel_inv cur :
  ∀ w, I w → outcomeIs I (λ w', I w' ∨ F w') (walkLevel iterator cur w).
Proof.
  intros w Hw. unfold walkLevel. unfold bind at 1, lift at 1.
  destruct (forInKeys (heapOf w) cur) as [keys|e| |]; try (by left).
  unfold bind at 1.
  pose proof (forInLoop_inv cur keys w Hw) as H1.
  destruct (forInLoop iterator cur keys w) as [w1 [[]|e| |]]; try done.
  cbn [outcomeIs] in H1.
  unfold bind at 1, lift at 1. unfold bind at 1, lift at 1.
  destruct (collectProps _ _ _) as [ps|e| |]; try (by left).
  unfold bind at 1.
  pose proof (propsLoop_inv cur ps w1 H1) as H2.
  destruct (propsLoop iterator cur ps w1) as [w2 [[]|e| |]]; try done.
  cbn [outcomeIs] in H2.
  unfold bind at 1, lift at 1.
  destruct (get (heapOf w2) cur "prototype") as [slot|e| |]; try (by left).
  done.
Qed.

Lemma walkFrom_inv fuel :
  ∀ v w, I w → outcomeIs I (λ w', I w' ∨ F w') (walkFrom iterator fuel v w).
Proof.
  induction fuel as [|fuel IH]; intros v w Hw; cbn [walkFrom].
  - destruct (truthy v); [by left|done].
  - destruct (truthy v); [|done].
    destruct v as [| | | | | |l|]; try (by left).
    unfold bind at 1.
    pose proof (walkLevel_inv l w Hw) as H1.
    destruct (walkLevel iterator l w) as [w1 [next|e| |]]; try done.
    by apply IH.
Qed.

End WalkInvariant.

(** A predicate kept by every iterator call holds when the walk stops,
    however it stops. *)
Lemma walk_invariant iterator (I : walk → Prop) fuel obj h :
  (∀ w cur i p, I w → visitGuard w cur i p → I (visitProp iterator cur i p w).1) →
  I (Walk h ∅ []) →
  I (runWalk iterator fuel obj h).1.
Proof.
  intros Hstep H0.
  pose proof (walkFrom_inv iterator I I) as Hinv.
  unfold runWalk. specialize (Hinv ltac:(
    intros w cur i p Hw Hg; specialize (Hstep w cur i p Hw Hg);
    destruct (visitProp iterator cur i p w) as [w' [[]|e| |]]; exact Hstep) fuel obj _ H0).
  destruct (walkFrom iterator fuel obj (Walk h ∅ [])) as [w' [[]|e| |]];
    cbn [outcomeIs fst] in *; tauto.
Qed.

(** ** The local map [foundProps] *)

Lemma dictGet_inherited_truthy (d : gmap string value) k :
  (∀ k' v, d !! k' = Some v → v = VBool true) →
  k ∈ "__proto__" :: objectPrototypeMethods → truthy (dictGet d k) = true.
Proof.
  intros Htrue Hin. unfold dictGet. destruct (d !! k) as [v|] eqn:Hk.
  - by rewrite (Htrue _ _ Hk).
  - unfold objectPrototypeGet.
    apply elem_of_cons in Hin as [->|Hin]; [done|].
    by rewrite bool_decide_eq_true_2.
Qed.

Lemma dictSetTrue_onlyTrue (d : gmap string value) i :
  (∀ k v, d !! k = Some v → v = VBool true) →
  ∀ k v, dictSetTrue d i !! k = Some v → v = VBool true.
Proof.
  intros Htrue k v. unfold dictSetTrue. case_bool_decide; [by apply Htrue|].
  rewrite lookup_insert. case_decide; [by intros [= <-]|by apply Htrue].
Qed.

Lemma dictSetTrue_keeps (d : gmap string value) i k :
  truthy (dictGet d k) = true → truthy (dictGet (dictSetTrue d i) k) = true.
Proof.
  unfold dictSetTrue. case_bool_decide; [done|].
  unfold dictGet. rewrite lookup_insert. by case_decide.
Qed.

Lemma dictSetTrue_marks (d : gmap string value) i :
  (∀ k v, d !! k = Some v → v = VBool true) →
  truthy (dictGet (dictSetTrue d i) i) = true.
Proof.
  intros Htrue. unfold dictSetTrue. case_bool_decide as Hi.
  - subst i. apply dictGet_inherited_truthy; [done|left].
  - unfold dictGet. by rewrite lookup_insert_eq.
Qed.

(** ** What the iterator is shown *)

Lemma walkInv_init h : walkInv (Walk h ∅ []).
Proof.
  split_and!; unfold foundOnlyTrue; cbn [visits foundProps].
  - intros k v Hk. by rewrite lookup_empty in Hk.
  - intros v Hin. by apply elem_of_nil in Hin.
  - constructor.
  - intros v Hin. by apply elem_of_nil in Hin.
  - intros v Hin. by apply elem_of_nil in Hin.
Qed.

Lemma walkInv_step iterator w cur i p :
  walkInv w → visitGuard w cur i p → walkInv (visitProp iterator cur i p w).1.
Proof.
  intros (Htrue & Hseen & Hnodup & Hread & Hwr) (Hfresh & Hget & Hp).
  unfold visitProp. destruct (iterator (VRef cur) i (heapOf w)) as [h' r].
  cbn [fst]. split_and!; unfold foundOnlyTrue; cbn [visits foundProps].
  - by apply dictSetTrue_onlyTrue.
  - intros v [Hin|Hin]%elem_of_app.
    + by apply dictSetTrue_keeps, Hseen.
    + apply list_elem_of_singleton in Hin as ->. cbn [visited].
      by apply dictSetTrue_marks.
  - rewrite fmap_app. apply NoDup_app. split_and!; [done| |apply NoDup_singleton].
    intros n Hn Hin. cbn in Hin. apply list_elem_of_singleton in Hin as ->.
    apply list_elem_of_fmap in Hn as (v & -> & Hv).
    specialize (Hseen v Hv). congruence.
  - intros v [Hin|Hin]%elem_of_app; [by apply Hread|].
    apply list_elem_of_singleton in Hin as ->. cbn. destruct Hget as [x Hx]. eauto.
  - intros v [Hin|Hin]%elem_of_app; [by apply Hwr|].
    apply list_elem_of_singleton in Hin as ->. cbn. intros ->.
    destruct Hp as (Hne & d & Hd & Hw). eauto 10.
Qed.

Lemma walkInv_runWalk iterator fuel obj h : walkInv (runWalk iterator fuel obj h).1.
Proof.
  apply (walk_invariant iterator walkInv).
  - intros w cur i p. apply walkInv_step.
  - apply walkInv_init.
Qed.

(** C4. Within one walk the iterator is called at most once per property
    name, for every iterator, target and heap, and however the walk ends. *)
Theorem walk_visits_each_name_once (iterator : value → string → M unit)
    (fuel : nat) (obj : value) (h : heap) :
  NoDup (visited <$> visits (runWalk iterator fuel obj h).1).
Proof. apply walkInv_runWalk. Qed.

(** Whatever is shown to the iterator could be read on its level just
    before the call. *)
Lemma visited_members_were_readable iterator fuel obj h v :
  v ∈ visits (runWalk iterator fuel obj h).1 →
  ∃ l x, target v = VRef l ∧ get (store v) l (visited v) = Return x.
Proof.
  intros Hin. destruct (walkInv_runWalk iterator fuel obj h) as (_ & _ & _ & Hread & _).
  by apply Hread.
Qed.

(** The names inherited by [{}] are never shown to the iterator: the fresh
    [foundProps] already reads truthy for them. *)
Lemma inherited_names_never_visited iterator fuel obj h v :
  v ∈ visits (runWalk iterator fuel obj h).1 →
  visited v ∉ "__proto__" :: objectPrototypeMethods.
Proof.
  revert v. apply (walk_invariant iterator
    (λ w, foundOnlyTrue w
          ∧ ∀ v, v ∈ visits w → visited v ∉ "__proto__" :: objectPrototypeMethods)).
  - intros w cur i p [Htrue Hvis] (Hfresh & _ & _).
    unfold visitProp. destruct (iterator (VRef cur) i (heapOf w)) as [h' r].
    unfold foundOnlyTrue. cbn [fst visits foundProps].
    split; [by apply dictSetTrue_onlyTrue|].
    intros v [Hin|Hin]%elem_of_app; [by apply Hvis|].
    apply list_elem_of_singleton in Hin as ->. cbn. intros Hin.
    rewrite (dictGet_inherited_truthy _ _ Htrue Hin) in Hfresh. done.
  - split.
    + intros k v Hk. cbn [foundProps] in Hk. by rewrite lookup_empty in Hk.
    + intros v Hin. by apply elem_of_nil in Hin.
Qed.

Lemma foldInNames_spec ancestor :
  ∀ ps, ∃ extra, foldInNames ps ancestor = (ps ++ extra)
    ∧ ("constructor" ∉ extra) ∧ ∀ p, p ∈ extra → p ∈ ancestor.
Proof.
  unfold foldInNames. induction ancestor as [|a ancestor IH]; intros ps.
  - exists []. rewrite app_nil_r. split_and!; [done| |done].
    intros Hin. by apply elem_of_nil in Hin.
  - cbn [foldl].
    destruct (negb (bool_decide (a = "constructor")) && negb (bool_decide (a ∈ ps))) eqn:Ha.
    + destruct (IH (ps ++ [a])) as (extra & -> & Hc & Hsub).
      exists (a :: extra). rewrite <- app_assoc. split_and!; [done| |].
      * apply andb_true_iff in Ha as [Ha _]. apply negb_true_iff in Ha.
        apply bool_decide_eq_false_1 in Ha.
        intros [Heq|Hin]%elem_of_cons; [by subst|done].
      * intros p [->|Hin]%elem_of_cons; [left|right; by apply Hsub].
    + destruct (IH ps) as (extra & -> & Hc & Hsub).
      exists extra. split_and!; [done|done|].
      intros p Hin. right. by apply Hsub.
Qed.

(** C9. The names folded in from the prototype of a level without a
    [prototype] slot never include [constructor]: the fold-in only appends
    names of the ancestor other than [constructor]. And no call the walk
    makes from the collected names - the only route folded-in names take
    to the iterator - is for [constructor], for any iterator and target. *)
Theorem constructor_never_folded_in (iterator : value → string → M unit)
    (fuel : nat) (obj : value) (h : heap) :
  (∀ ps ancestor, ∃ extra, foldInNames ps ancestor = (ps ++ extra)
     ∧ ("constructor" ∉ extra) ∧ ∀ p, p ∈ extra → p ∈ ancestor)
  ∧ ∀ v, v ∈ visits (runWalk iterator fuel obj h).1 →
      via v = ViaOwnNames → visited v ≠ "constructor".
Proof.
  split.
  - intros ps ancestor. apply foldInNames_spec.
  - intros v Hin _ Heq.
    apply (inherited_names_never_visited _ _ _ _ _ Hin).
    rewrite Heq. right. left.
Qed.

(** C3, as amended. Whatever the own-names step of the walk (lines
    197-209) hands to the iterator had, at that moment, a descriptor on the
    level - its own, else that of the level's prototype - reporting
    [writable]: a property whose descriptor is not writable is never
    handed over by that step. *)
Theorem own_names_step_visits_writable_only (iterator : value → string → M unit)
    (fuel : nat) (obj : value) (h : heap) (v : visit)
    (Hvisit : v ∈ visits (runWalk iterator fuel obj h).1)
    (Hstep : via v = ViaOwnNames) :
  ∃ l d, target v = VRef l
    ∧ descriptorOf (store v) l (visited v) = Return d ∧ writable d = true.
Proof.
  destruct (walkInv_runWalk iterator fuel obj h) as (_ & _ & _ & _ & Hwr).
  by destruct (Hwr v Hvisit Hstep).
Qed.

Lemma own_names_step_visits_writable_only_witness :
  ∃ l d, target (Visit (VRef 1) "baz" ViaOwnNames instanceHeap) = VRef l
    ∧ descriptorOf (store (Visit (VRef 1) "baz" ViaOwnNames instanceHeap)) l
        (visited (Visit (VRef 1) "baz" ViaOwnNames instanceHeap)) = Return d
    ∧ writable d = true.
Proof.
  apply (own_names_step_visits_writable_only observe 2 (VRef 1) instanceHeap
           (Visit (VRef 1) "baz" ViaOwnNames instanceHeap)).
  - vm_compute. repeat constructor.
  - reflexivity.
Defined.

(** ** The walk on particular objects *)

(** C2. An own property whose read throws is kept, not dropped, by the
    filter of line 177, and the unguarded read of line 198 then throws:
    the walk of such an object ends with the getter's exception, for
    every iterator and iteration budget, instead of skipping the
    property. *)
Theorem walk_rethrows_inaccessible_read (iterator : value → string → M unit)
    (fuel : nat) :
  filteredOwnNames inaccessibleHeap 0 = ["x"]
  ∧ forEachWritableProperties iterator (S fuel) (VRef 0) inaccessibleHeap
    = (inaccessibleHeap, Throw GetterError).
Proof. split; reflexivity. Qed.

(** The same object with the property enumerable: the read of line 167
    throws first. *)
Example walk_rethrows_enumerable_inaccessible_read (fuel : nat) :
  forEachWritableProperties observe (S fuel) (VRef 0)
    [Obj ProtoObject [("x", AccessorProp GetThrows true)] KObject]
  = ([Obj ProtoObject [("x", AccessorProp GetThrows true)] KObject], Throw GetterError).
Proof. reflexivity. Qed.

(** An object without prototype: [Object.getOwnPropertyNames(null)]. *)
Example walk_throws_on_null_prototype (fuel : nat) :
  (runWalk observe (S fuel) (VRef 0) nullProtoHeap).2 = Throw TypeError.
Proof. reflexivity. Qed.

(** C3, the claim as stated fails: a read-only own property that is
    enumerable is handed to the iterator by the [for .. in] step. *)
Lemma read_only_enumerable_property_is_visited :
  descriptorOf readOnlyHeap 0 "x" = Return (DataProp (VNum 1) false true)
  ∧ writable (DataProp (VNum 1) false true) = false
  ∧ (runWalk observe 1 (VRef 0) readOnlyHeap).2 = Return tt
  ∧ visits (runWalk observe 1 (VRef 0) readOnlyHeap).1
    = [Visit (VRef 0) "x" ViaForIn readOnlyHeap].
Proof. split_and!; reflexivity. Qed.

(** A name skipped on one level is not marked: the next level shows it. *)
Example read_only_name_is_visited_on_later_level :
  descriptorOf shadowHeap 0 "x" = Return (DataProp (VNum 1) false false)
  ∧ (runWalk observe 2 (VRef 0) shadowHeap).2 = Return tt
  ∧ visits (runWalk observe 2 (VRef 0) shadowHeap).1
    = [Visit (VRef 1) "x" ViaForIn shadowHeap].
Proof. split_and!; reflexivity. Qed.

(** ** [resetAllExcept] *)

(** C1. [resetAllExcept(obj, ['foo'])] on [{foo: spy, bar: f}]: the spy
    under the excepted name [foo] has one recorded call before and none
    after - it is reset although it is named in the exception list. *)
Theorem resetAllExcept_resets_excepted_spy (fuel : nat) :
  get spiedHeap 0 "foo" = Return (VRef 1)
  ∧ spyOf spiedHeap (VRef 1) = Some (Spy [Call [VNum 1]] PlanDefault VUndefined)
  ∧ truthy (dictGet (getMethodsToSkip (NameArray ["foo"])) "foo") = true
  ∧ (resetAllExcept (S fuel) (VRef 0) (NameArray ["foo"]) spiedHeap).2 = Return (VRef 0)
  ∧ spyOf (resetAllExcept (S fuel) (VRef 0) (NameArray ["foo"]) spiedHeap).1 (VRef 1)
    = Some (Spy [] PlanDefault VUndefined).
Proof. destruct fuel; split_and!; reflexivity. Qed.

(** The sibling [spyAllExcept] honours the same list. *)
Example spyAllExcept_skips_excepted (fuel : nat) :
  get (spyAllExcept (S fuel) (VRef 0) (NameArray ["bar"]) None spiedHeap).1 0 "bar"
  = Return (VRef 2).
Proof. destruct fuel; reflexivity. Qed.

Lemma getMethodsToSkip_onlyTrue excepts k v :
  getMethodsToSkip excepts !! k = Some v → v = VBool true.
Proof.
  destruct excepts as [m|l]; cbn [getMethodsToSkip].
  - apply dictSetTrue_onlyTrue. intros k' v' Hk. by rewrite lookup_empty in Hk.
  - assert (∀ d : gmap string value,
              (∀ k v, d !! k = Some v → v = VBool true) →
              ∀ k v, foldl dictSetTrue d l !! k = Some v → v = VBool true) as Hfold.
    { induction l as [|m l IH]; intros d Hd; [done|].
      cbn [foldl]. apply IH. by apply dictSetTrue_onlyTrue. }
    apply Hfold. intros k' v' Hk. by rewrite lookup_empty in Hk.
Qed.

(** The test of line 113 never holds for a map built by
    [getMethodsToSkip]: an entry is either absent or truthy. *)
Lemma resetAllExcept_never_skips excepts method :
  resetSkipsMethod (getMethodsToSkip excepts) method = false.
Proof.
  unfold resetSkipsMethod, dictGet.
  destruct (getMethodsToSkip excepts !! method) as [v|] eqn:Hk.
  - by rewrite (getMethodsToSkip_onlyTrue _ _ _ Hk).
  - unfold objectPrototypeGet. repeat case_bool_decide; done.
Qed.

(** Hence the iterator of [resetAllExcept] does not depend on the
    exception list. *)
Lemma resetAllExceptIterator_ignores_excepts excepts excepts' targetObj method h :
  resetAllExceptIterator (getMethodsToSkip excepts) targetObj method h
  = resetAllExceptIterator (getMethodsToSkip excepts') targetObj method h.
Proof.
  unfold resetAllExceptIterator. by rewrite !resetAllExcept_never_skips.
Qed.

(** The walk depends on its iterator only through the iterator's runs. *)
Section WalkExt.

Variables it1 it2 : value → string → M unit.
Hypothesis Hext : ∀ t n h, it1 t n h = it2 t n h.

Lemma visitProp_ext cur i p w : visitProp it1 cur i p w = visitProp it2 cur i p w.
Proof. unfold visitProp. by rewrite Hext. Qed.

Lemma forInLoop_ext cur keys : ∀ w, forInLoop it1 cur keys w = forInLoop it2 cur keys w.
Proof.
  induction keys as [|i keys IH]; intros w; [done|].
  cbn [forInLoop]. unfold bind, lift.
  destruct (truthy (dictGet (foundProps w) i)); [done|].
  destruct (get (heapOf w) cur i); try done.
  rewrite visitProp_ext. by destruct (visitProp it2 cur i ViaForIn w) as [w' []].
Qed.

Lemma propsLoop_ext cur ps : ∀ w, propsLoop it1 cur ps w = propsLoop it2 cur ps w.
Proof.
  induction ps as [|n ps IH]; intros w; [done|].
  cbn [propsLoop]. unfold bind, lift.
  destruct (get (heapOf w) cur n); try done.
  destruct (negb (bool_decide (n = "prototype"))
            && negb (truthy (dictGet (foundProps w) n))); [|done].
  destruct (descriptorOf (heapOf w) cur n) as [d|e| |]; try done.
  destruct (writable d); [|done].
  rewrite visitProp_ext. by destruct (visitProp it2 cur n ViaOwnNames w) as [w' []].
Qed.

Lemma walkLevel_ext cur w : walkLevel it1 cur w = walkLevel it2 cur w.
Proof.
  unfold walkLevel, bind, lift.
  destruct (forInKeys (heapOf w) cur) as [keys|e| |]; try done.
  rewrite forInLoop_ext.
  destruct (forInLoop it2 cur keys w) as [w1 [[]|e| |]]; try done.
  destruct (collectProps _ _ _) as [ps|e| |]; try done.
  by rewrite propsLoop_ext.
Qed.

Lemma walkFrom_ext fuel : ∀ v w, walkFrom it1 fuel v w = walkFrom it2 fuel v w.
Proof.
  induction fuel as [|fuel IH]; intros v w; cbn [walkFrom]; [done|].
  destruct (truthy v); [|done]. destruct v; try done.
  unfold bind. rewrite walkLevel_ext.
  by destruct (walkLevel it2 l w) as [w1 [next|e| |]].
Qed.

End WalkExt.

(** [resetAllExcept] behaves the same whatever the exception list. *)
Lemma resetAllExcept_ignores_excepts fuel obj excepts excepts' h :
  resetAllExcept fuel obj excepts h = resetAllExcept fuel obj excepts' h.
Proof.
  unfold resetAllExcept, forEachWritableProperties, runWalk, bind.
  rewrite (walkFrom_ext _ (resetAllExceptIterator (getMethodsToSkip excepts'))); [done|].
  intros t n h'. apply resetAllExceptIterator_ignores_excepts.
Qed.

(** Without an end to the [prototype] slots the loop does not stop: every
    iteration budget is used up. *)
Example walk_diverges_on_cyclic_prototype_slot (fuel : nat) :
  (runWalk observe fuel (VRef 0) selfSlotHeap).2 = OutOfFuel.
Proof.
  unfold runWalk. induction fuel as [|fuel IH]; [done|].
  cbn [walkFrom truthy]. unfold bind.
  change (walkLevel observe 0 (Walk selfSlotHeap ∅ []))
    with (Walk selfSlotHeap ∅ [], @Return value (VRef 0)).
  exact IH.
Qed.

(** ** The exception map *)

Lemma foldl_dictSetTrue_lookup l :
  ∀ (d : gmap string value) k,
    foldl dictSetTrue d l !! k
    = if bool_decide (k ∈ l ∧ k ≠ "__proto__") then Some (VBool true) else d !! k.
Proof.
  induction l as [|m l IH]; intros d k; cbn [foldl].
  - rewrite bool_decide_eq_false_2; [done|]. intros [Hin _]. by apply elem_of_nil in Hin.
  - rewrite IH. unfold dictSetTrue.
    destruct (bool_decide (k ∈ l ∧ k ≠ "__proto__")) eqn:Hl.
    + apply bool_decide_eq_true_1 in Hl as [Hin Hne].
      rewrite bool_decide_eq_true_2; [done|]. split; [by right|done].
    + apply bool_decide_eq_false_1 in Hl.
      destruct (bool_decide (m = "__proto__")) eqn:Hm.
      * apply bool_decide_eq_true_1 in Hm as ->.
        rewrite bool_decide_eq_false_2; [done|].
        intros [[->|Hin]%elem_of_cons Hne]; [done|]. by apply Hl.
      * apply bool_decide_eq_false_1 in Hm. rewrite lookup_insert. case_decide as Hk.
        -- subst k. rewrite bool_decide_eq_true_2; [done|]. split; [left|done].
        -- rewrite bool_decide_eq_false_2; [done|].
           intros [[->|Hin]%elem_of_cons Hne]; [done|]. by apply Hl.
Qed.

Lemma getMethodsToSkip_lookup excepts k :
  getMethodsToSkip excepts !! k
  = if bool_decide (k ∈ toArray excepts ∧ k ≠ "__proto__") then Some (VBool true) else None.
Proof.
  destruct excepts as [m|l]; cbn [getMethodsToSkip toArray].
  - change (dictSetTrue ∅ m) with (foldl dictSetTrue ∅ [m]).
    by rewrite foldl_dictSetTrue_lookup, lookup_empty.
  - by rewrite foldl_dictSetTrue_lookup, lookup_empty.
Qed.

Lemma skipsMethod_excepted excepts k :
  k ∈ toArray excepts → skipsMethod (getMethodsToSkip excepts) k = true.
Proof.
  intros Hin. unfold skipsMethod, dictGet.
  destruct (decide (k = "__proto__")) as [->|Hne].
  - assert (getMethodsToSkip excepts !! "__proto__" = None) as ->; [|reflexivity].
    rewrite getMethodsToSkip_lookup. rewrite bool_decide_eq_false_2; [done|]. by intros [_ ?].
  - assert (getMethodsToSkip excepts !! k = Some (VBool true)) as ->; [|reflexivity].
    rewrite getMethodsToSkip_lookup. by rewrite bool_decide_eq_true_2.
Qed.

Lemma skipsMethod_other excepts k :
  k ∉ toArray excepts → k ∉ "__proto__" :: objectPrototypeMethods →
  skipsMethod (getMethodsToSkip excepts) k = false.
Proof.
  intros Hnin Hinh. unfold skipsMethod, dictGet.
  assert (getMethodsToSkip excepts !! k = None) as ->.
  { rewrite getMethodsToSkip_lookup. rewrite bool_decide_eq_false_2; [done|]. by intros [? _]. }
  assert (objectPrototypeGet ProtoObject k = VUndefined) as ->; [|reflexivity].
  unfold objectPrototypeGet.
  rewrite (bool_decide_eq_false_2 (k ∈ objectPrototypeMethods))
    by (intros Hin; apply Hinh; by right).
  by rewrite (bool_decide_eq_false_2 (k = "__proto__")) by (intros ->; apply Hinh; left).
Qed.

Lemma skipsMethod_inherited (excepts : names) (k : string) :
  inheritedName k → skipsMethod (getMethodsToSkip excepts) k = true.
Proof.
  intros Hinh. unfold skipsMethod, dictGet. rewrite getMethodsToSkip_lookup.
  destruct (bool_decide (k ∈ toArray excepts ∧ k ≠ "__proto__")); [reflexivity|].
  unfold inheritedName in Hinh. unfold objectPrototypeGet.
  apply elem_of_cons in Hinh as [->|Hinh]; [reflexivity|].
  rewrite (bool_decide_eq_true_2 (k ∈ objectPrototypeMethods)) by done.
  reflexivity.
Qed.

Lemma skipsMethod_proto (excepts : names) :
  skipsMethod (getMethodsToSkip excepts) "__proto__" = true.
Proof. apply skipsMethod_inherited. left. Qed.

(** Only the name [__proto__] reaches the setter of [Object.prototype]. *)
Lemma putTargetOf_setter_name h l n :
  putTargetOf h l n = Some PutProtoSetter → n = "__proto__".
Proof.
  unfold putTargetOf. destruct (protoChain h l) as [[c e]|]; [|done].
  destruct (findProp h c n) as [[? [] ?|]|]; try done.
  destruct e; [done|]. case_bool_decide; done.
Qed.


(** ** One call of the iterator of [spyAllExcept] *)

Lemma spyAllExceptIterator_run ms b cur i h v :
  get h cur i = Return v → supported b →
  (i = "__proto__" → skipsMethod ms i = true) →
  ∃ h', spyAllExceptIterator ms b (VRef cur) i h = (h', Return tt)
    ∧ ((h' = h ∧ (plainFunction h v = false ∨ skipsMethod ms i = true))
       ∨ (skipsMethod ms i = false ∧ plainFunction h v = true
          ∧ spyMade cur i (planFor b) v h h'
          ∧ (assignable h cur i → spyInstalled cur i (planFor b) v h h')
          ∧ (¬ assignable h cur i → h' !! cur = h !! cur))).
Proof.
  intros Hget Hb Hproto. unfold spyAllExceptIterator.
  unfold bind at 1, lift at 1. cbn [getV]. rewrite Hget.
  unfold bind at 1, lift at 1.
  destruct (isFunction h v) eqn:Hfn; cbn [negb].
  2:{ exists h. split; [done|]. left. split; [done|]. left.
      unfold plainFunction. by rewrite Hfn. }
  destruct (skipsMethod ms i) eqn:Hskip; cbn [negb].
  { exists h. split; [done|]. left. split; [done|]. by right. }
  destruct (plainFunction h v) eqn:Hpl.
  - destruct (spyIf_plain_made _ _ _ _ _ Hget Hpl Hb) as (h' & Hrun & Hmade & Hyes & Hno).
    { intros Hset. apply putTargetOf_setter_name in Hset. by specialize (Hproto Hset). }
    exists h'. split; [|by right].
    unfold bind. by rewrite Hrun.
  - exists h. split; [|left; split; [done|by left]].
    unfold bind. by rewrite (spyIf_other _ _ _ _ _ Hget Hpl).
Qed.

(** ** Reads on a walkable heap *)

Lemma findProp_Some h c n p :
  findProp h c n = Some p → ∃ l, l ∈ c ∧ ownProp (propsOf h l) n = Some p.
Proof.
  induction c as [|l c IH]; cbn [findProp]; [done|].
  destruct (ownProp (propsOf h l) n) as [q|] eqn:Hq.
  - intros [= <-]. exists l. split; [left|done].
  - intros Hp. destruct (IH Hp) as (l' & Hin & Hl'). exists l'. split; [by right|done].
Qed.

Lemma walkable_get h l n :
  walkable h → is_Some (h !! l) → ∃ v, get h l n = Return v.
Proof.
  intros Hw [o Hl]. destruct (Hw _ _ Hl) as ([[c e] Hc] & _ & _).
  unfold get. rewrite Hc.
  destruct (findProp h c n) as [p|] eqn:Hp.
  - destruct (findProp_Some _ _ _ _ Hp) as (l' & Hin & Hown).
    destruct (protoChainFrom_allocated _ _ _ _ _ Hc l' Hin) as [o' Hl'].
    destruct (Hw _ _ Hl') as (_ & _ & Hno).
    unfold propsOf in Hown. rewrite Hl' in Hown.
    destruct p as [v w e'|[v|] e']; cbn [readProp]; eauto.
    by destruct (Hno n e').
  - destruct e; eauto.
Qed.

Lemma walkable_filteredOwnNames h l :
  walkable h → is_Some (h !! l) → filteredOwnNames h l = [].
Proof.
  intros Hw Hl. unfold filteredOwnNames.
  induction (ownNames (propsOf h l)) as [|n ns IH]; [done|].
  cbn [List.filter]. unfold readThrows at 1.
  destruct (walkable_get h l n Hw Hl) as [v ->]. done.
Qed.

Lemma spyMade_walkable l m p v h h' :
  walkable h → spyMade l m p v h h' → walkable h'.
Proof.
  intros Hw Hi l0 o0 Hl0.
  pose proof Hi as (Hlen & (o & Hl & Hl') & Hother & Hn).
  destruct (decide (l0 = length h)) as [->|Hne].
  - rewrite Hn in Hl0. injection Hl0 as <-. split_and!; [|done|done].
    unfold protoChain. rewrite Hlen. cbn [protoChainFrom]. rewrite Hn. by eexists.
  - assert (l0 < length h) as Hlt by (apply lookup_lt_Some in Hl0; lia).
    destruct (lookup_lt_is_Some_2 h l0 Hlt) as [oc Hlc].
    destruct (Hw _ _ Hlc) as ([[c e] Hc] & Hnn & Hno).
    split.
    { rewrite (spyMade_protoChain _ _ _ _ _ _ _ _ _ Hi Hc). by eexists. }
    destruct (decide (l0 = l)) as [->|Hl0ne].
    + rewrite Hl in Hlc. injection Hlc as <-. destruct Hl' as [Hl'|Hl'].
      * rewrite Hl' in Hl0. injection Hl0 as <-. done.
      * rewrite Hl' in Hl0. injection Hl0 as <-.
        split; [done|]. cbn [props]. intros k e'.
        destruct (decide (m = k)) as [<-|Hmk].
        -- rewrite ownProp_setOwn_eq. unfold installedProp.
           destruct (ownProp (props o) m) as [[? [] ?|g ?]|] eqn:Hold; try done.
           intros [= -> ->]. by eapply Hno.
        -- rewrite ownProp_setOwn_ne by done. apply Hno.
    + rewrite Hother in Hl0 by done. rewrite Hlc in Hl0. injection Hl0 as <-. done.
Qed.

(** ** The walk of [spyAllExcept] runs to its end *)

Lemma grows_refl h : grows h h.
Proof. split; [done|]. intros x Hx. done. Qed.

Lemma grows_trans h1 h2 h3 : grows h1 h2 → grows h2 h3 → grows h1 h3.
Proof.
  intros [Ho1 Hp1] [Ho2 Hp2]. split.
  - intros x n Hx. by apply Ho2, Ho1.
  - intros x Hx. destruct (Hp1 x Hx) as [Hx2 Hpx]. destruct (Hp2 x Hx2) as [Hx3 Hpx'].
    split; [done|congruence].
Qed.

Lemma spyMade_grows l m p v h h' : spyMade l m p v h h' → grows h h'.
Proof.
  intros Hi. pose proof Hi as (Hlen & (o & Hl & Hl') & Hother & Hn). split.
  - intros x n [q Hq]. unfold propsOf in *.
    destruct (h !! x) as [ox|] eqn:Hx; [|done].
    destruct (decide (x = l)) as [->|Hne].
    + rewrite Hl in Hx. injection Hx as <-. destruct Hl' as [Hl'|Hl']; rewrite Hl'.
      * by eexists.
      * cbn [props]. destruct (decide (m = n)) as [<-|Hmn].
        -- rewrite ownProp_setOwn_eq. by eexists.
        -- rewrite ownProp_setOwn_ne by done. by eexists.
    + rewrite Hother; [|done|by eapply lookup_lt_Some]. rewrite Hx. by eexists.
  - intros x [ox Hx].
    destruct (spyMade_links _ _ _ _ _ _ Hi _ _ Hx) as (o' & Hx' & Hp & _).
    unfold protoOf. rewrite Hx, Hx'. split; [by eexists|done].
Qed.

Lemma descriptorOf_grows h h' l n d :
  grows h h' → descriptorOf h l n = Return d → ∃ d', descriptorOf h' l n = Return d'.
Proof.
  intros [Hown Hproto] Hd. unfold descriptorOf in *.
  destruct (ownProp (propsOf h' l) n) as [d'|] eqn:Hd'; [by eexists|].
  destruct (ownProp (propsOf h l) n) as [d0|] eqn:Hd0.
  { destruct (Hown l n) as [? Hc]; [by eexists|]. congruence. }
  destruct (h !! l) as [o|] eqn:Hl.
  2:{ unfold protoOf in Hd. by rewrite Hl in Hd. }
  destruct (Hproto l) as [_ ->]; [by eexists|].
  destruct (protoOf h l) as [| |p]; [done|by eauto|].
  destruct (h !! p) as [op|] eqn:Hp; [|done].
  destruct (ownProp (props op) n) as [dp|] eqn:Hdp; [|done].
  destruct (Hproto p) as [[op' Hp'] _]; [by eexists|].
  destruct (Hown p n) as [dp' Hdp'].
  { unfold propsOf. rewrite Hp. by eexists. }
  unfold propsOf in Hdp'. rewrite Hp' in Hdp'. rewrite Hp', Hdp'. by eexists.
Qed.

Lemma spiesAdded_allocated h0 h l : spiesAdded h0 h → is_Some (h0 !! l) → is_Some (h !! l).
Proof. intros (_ & Hold & _) [o Hl]. destruct (Hold _ _ Hl) as (o' & -> & _). by eexists. Qed.

Section SpyWalk.

Variables (h0 : heap) (ms : gmap string value) (b : option behavior).
Hypothesis Hb : supported b.
Hypothesis Hproto : skipsMethod ms "__proto__" = true.


Lemma spyVisit_total cur i p w v :
  is_Some (h0 !! cur) → spyWalkInv h0 w → slotState h0 cur (heapOf w) →
  get (heapOf w) cur i = Return v →
  ∃ w', visitProp (spyAllExceptIterator ms b) cur i p w = (w', Return tt)
    ∧ spyWalkInv h0 w' ∧ slotState h0 cur (heapOf w') ∧ grows (heapOf w) (heapOf w').
Proof.
  intros Hcur [Hwalk Hadd] Hslots Hget.
  destruct (spyAllExceptIterator_run ms b cur i (heapOf w) v Hget Hb)
    as (h' & Hrun & [[-> _]|(Hskip & Hpl & Hmade & Hyes & Hno)]).
  { by intros ->. }
  - eexists. unfold visitProp. rewrite Hrun.
    split; [done|]. cbn [heapOf]. split_and!; [by split|done|apply grows_refl].
  - eexists. unfold visitProp. rewrite Hrun.
    split; [done|]. cbn [heapOf].
    assert (spiesAdded h0 h') as Hadd' by (by eapply spyMade_spiesAdded).
    split_and!.
    + split; [by eapply spyMade_walkable|done].
    + destruct (decide (i = "prototype" ∧ assignable (heapOf w) cur i)) as [[-> Ha]|Hne].
      * right. exists (length (heapOf w)). split_and!.
        -- eapply spyInstalled_get; [by apply Hyes|done|done].
        -- by destruct Hadd.
        -- destruct Hmade as (_ & _ & _ & Hn). by eexists.
      * assert (agreeOn "prototype" (heapOf w) h') as Hag.
        { destruct (decide (i = "prototype")) as [->|Hi].
          - eapply spyMade_kept_agreeOn; [exact Hmade|]. apply Hno. tauto.
          - by eapply spyMade_agreeOn. }
        destruct Hslots as [Hkept|(s & Hs & Hle & [k Hk])].
        -- left. intros l Hl. rewrite <- (Hkept l Hl).
           destruct (walkable_get (heapOf w) l "prototype" Hwalk) as [x Hx].
           { by eapply spiesAdded_allocated. }
           rewrite Hx. eapply get_agree; [exact Hag|done|done].
        -- right. exists s. split_and!; [|done|].
           ++ eapply get_agree; [exact Hag|done|done].
           ++ exists k. destruct Hmade as (_ & _ & Hother & _).
              rewrite Hother; [done| |by eapply lookup_lt_Some].
              apply lookup_lt_is_Some in Hcur. lia.
    + by eapply spyMade_grows.
Qed.

Lemma spy_forInLoop_total cur keys :
  is_Some (h0 !! cur) →
  ∀ w, spyWalkInv h0 w → slotState h0 cur (heapOf w) →
  ∃ w', forInLoop (spyAllExceptIterator ms b) cur keys w = (w', Return tt)
    ∧ spyWalkInv h0 w' ∧ slotState h0 cur (heapOf w') ∧ grows (heapOf w) (heapOf w').
Proof.
  intros Hcur. induction keys as [|i keys IH]; intros w Hinv Hslots.
  - exists w. split_and!; [done|done|done|apply grows_refl].
  - cbn [forInLoop]. unfold bind at 1, lift at 1.
    destruct (truthy (dictGet (foundProps w) i)); [by apply IH|].
    unfold bind at 1, lift at 1.
    destruct (walkable_get (heapOf w) cur i) as [v Hv]; [apply Hinv| |].
    { eapply spiesAdded_allocated; [apply Hinv|done]. }
    rewrite Hv. unfold bind at 1.
    destruct (spyVisit_total cur i ViaForIn w v Hcur Hinv Hslots Hv)
      as (w1 & -> & Hinv1 & Hslots1 & Hg1).
    destruct (IH w1 Hinv1 Hslots1) as (w' & Hrun & Hinv' & Hslots' & Hg').
    exists w'. split_and!; [done|done|done|by eapply grows_trans].
Qed.

Lemma spy_propsLoop_total cur ps :
  is_Some (h0 !! cur) →
  ∀ w, spyWalkInv h0 w → slotState h0 cur (heapOf w) →
  (∀ n, n ∈ ps → ∃ d, descriptorOf (heapOf w) cur n = Return d) →
  ∃ w', propsLoop (spyAllExceptIterator ms b) cur ps w = (w', Return tt)
    ∧ spyWalkInv h0 w' ∧ slotState h0 cur (heapOf w').
Proof.
  intros Hcur. induction ps as [|n ps IH]; intros w Hinv Hslots Hdesc.
  - exists w. done.
  - assert (∀ w', grows (heapOf w) (heapOf w') →
              ∀ n', n' ∈ ps → ∃ d, descriptorOf (heapOf w') cur n' = Return d) as Hrest.
    { intros w' Hg n' Hin. destruct (Hdesc n') as [d Hd]; [by right|].
      by eapply descriptorOf_grows. }
    cbn [propsLoop]. unfold bind at 1, lift at 1.
    destruct (walkable_get (heapOf w) cur n) as [v Hv]; [apply Hinv| |].
    { eapply spiesAdded_allocated; [apply Hinv|done]. }
    rewrite Hv. unfold bind at 1, lift at 1.
    destruct (negb (bool_decide (n = "prototype"))
              && negb (truthy (dictGet (foundProps w) n))).
    2:{ apply IH; [done|done|]. apply Hrest, grows_refl. }
    unfold bind at 1, lift at 1.
    destruct (Hdesc n) as [d ->]; [left|].
    destruct (writable d).
    2:{ apply IH; [done|done|]. apply Hrest, grows_refl. }
    unfold bind at 1.
    destruct (spyVisit_total cur n ViaOwnNames w v Hcur Hinv Hslots Hv)
      as (w1 & -> & Hinv1 & Hslots1 & Hg1).
    apply IH; [done|done|]. by apply Hrest.
Qed.

Lemma walkable_proto_allocated h l o p :
  walkable h → h !! l = Some o → proto o = ProtoLoc p → is_Some (h !! p).
Proof.
  intros Hw Hl Hp. destruct (Hw _ _ Hl) as ([[c e] Hc] & _ & _).
  unfold protoChain in Hc. destruct (length h) as [|f]; [done|].
  cbn [protoChainFrom] in Hc. rewrite Hl, Hp in Hc.
  destruct (protoChainFrom f h p) as [[c' e']|] eqn:Hc'; [|done].
  destruct (protoChainFrom_head _ _ _ _ _ Hc') as (op & rest & Hop & _).
  by rewrite Hop.
Qed.

Lemma spy_collectProps_total cur h :
  walkable h → is_Some (h !! cur) →
  ∃ ps, collectProps h cur [] = Return ps
    ∧ ∀ n, n ∈ ps → ∃ d, descriptorOf h cur n = Return d.
Proof.
  intros Hw [o Hl]. unfold collectProps.
  destruct (walkable_get h cur "prototype" Hw) as [slot ->]; [by eexists|].
  assert (∀ n, n ∈ @nil string → ∃ d, descriptorOf h cur n = Return d) as Hnil.
  { intros n Hin. by apply elem_of_nil in Hin. }
  destruct (truthy slot); [by eauto|].
  destruct (Hw _ _ Hl) as (_ & Hnn & _).
  unfold protoOf. rewrite Hl.
  destruct (proto o) as [| |p] eqn:Hp; [done|by eauto|].
  destruct (walkable_proto_allocated h cur o p Hw Hl Hp) as [op Hop].
  rewrite Hop. eexists. split; [done|].
  intros n Hin.
  destruct (foldInNames_spec (ownNames (props op)) []) as (extra & Heq & _ & Hsub).
  rewrite Heq in Hin. cbn [app] in Hin.
  destruct (ownNames_ownProp _ _ (Hsub _ Hin)) as [d Hd].
  unfold descriptorOf.
  destruct (ownProp (propsOf h cur) n); [by eauto|].
  unfold protoOf. rewrite Hl, Hp, Hop, Hd. by eauto.
Qed.

Lemma spy_walkLevel_total cur w next0 :
  is_Some (h0 !! cur) → spyWalkInv h0 w → slotsKept h0 (heapOf w) →
  get h0 cur "prototype" = Return next0 →
  ∃ w' next, walkLevel (spyAllExceptIterator ms b) cur w = (w', Return next)
    ∧ spyWalkInv h0 w'
    ∧ ((slotsKept h0 (heapOf w') ∧ next = if truthy next0 then next0 else VNull)
       ∨ (∃ s, next = VRef s ∧ bareSpy (heapOf w') s)).
Proof.
  intros Hcur Hinv Hkept Hnext0.
  assert (is_Some (heapOf w !! cur)) as [o Hl].
  { eapply spiesAdded_allocated; [apply Hinv|done]. }
  unfold walkLevel. unfold bind at 1, lift at 1.
  unfold forInKeys.
  destruct (proj1 Hinv _ _ Hl) as ([[c e] ->] & _ & _).
  unfold bind at 1.
  destruct (spy_forInLoop_total cur (enumKeys (heapOf w) c []) Hcur w Hinv (or_introl Hkept))
    as (w1 & -> & Hinv1 & Hslots1 & _).
  assert (is_Some (heapOf w1 !! cur)) as Hl1.
  { eapply spiesAdded_allocated; [apply Hinv1|done]. }
  unfold bind at 1, lift at 1. unfold bind at 1, lift at 1.
  rewrite (walkable_filteredOwnNames _ _ (proj1 Hinv1) Hl1).
  destruct (spy_collectProps_total cur (heapOf w1) (proj1 Hinv1) Hl1) as (ps & -> & Hdesc).
  unfold bind at 1.
  destruct (spy_propsLoop_total cur ps Hcur w1 Hinv1 Hslots1 Hdesc)
    as (w2 & -> & Hinv2 & Hslots2).
  unfold bind at 1, lift at 1.
  destruct Hslots2 as [Hkept2|(s & Hs & Hle & Hbare)].
  - rewrite (Hkept2 cur Hcur), Hnext0. unfold ret. eexists _, _.
    split; [done|]. split; [done|]. by left.
  - rewrite Hs. unfold ret. eexists _, _.
    split; [done|]. split; [done|]. right. eauto.
Qed.

(** The level of a bare spy: nothing to visit, no further level. *)
Lemma bareSpy_walkLevel s w :
  bareSpy (heapOf w) s → walkLevel (spyAllExceptIterator ms b) s w = (w, Return VNull).
Proof.
  intros [k Hs].
  assert (protoChain (heapOf w) s = Some ([s], EndObjectPrototype)) as Hc.
  { unfold protoChain. pose proof (lookup_lt_Some _ _ _ Hs) as Hlt.
    destruct (length (heapOf w)) as [|f]; [lia|].
    cbn [protoChainFrom]. by rewrite Hs. }
  assert (get (heapOf w) s "prototype" = Return VUndefined) as Hget.
  { unfold get. rewrite Hc. cbn [findProp]. unfold propsOf, protoOf. by rewrite Hs. }
  unfold walkLevel, bind, lift, forInKeys, ret. rewrite Hc.
  cbn [enumKeys]. unfold propsOf at 1 2. rewrite Hs. cbn [props ownNames fmap list_fmap List.filter app forInLoop].
  unfold ret, filteredOwnNames, propsOf. rewrite Hs. cbn [props ownNames fmap list_fmap List.filter].
  unfold collectProps. rewrite Hget. cbn [truthy]. unfold protoOf. rewrite Hs.
  cbn [proto propsLoop]. unfold ret. by rewrite Hget.
Qed.

Lemma spy_walkFrom_total n :
  ∀ fuel v w,
    levelsWithin n h0 v → n < fuel → spyWalkInv h0 w → slotsKept h0 (heapOf w) →
    ∃ w', walkFrom (spyAllExceptIterator ms b) fuel v w = (w', Return tt) ∧ spyWalkInv h0 w'.
Proof.
  induction n as [|n IH]; intros fuel v w Hlev Hfuel Hinv Hkept.
  - cbn [levelsWithin] in Hlev. destruct fuel as [|fuel]; [lia|].
    cbn [walkFrom]. destruct (truthy v); [done|]. by exists w.
  - cbn [levelsWithin] in Hlev. destruct fuel as [|fuel]; [lia|].
    cbn [walkFrom]. destruct (truthy v); [|by exists w].
    destruct Hlev as (l & next0 & -> & Hl & Hnext0 & Hlev).
    unfold bind at 1.
    destruct (spy_walkLevel_total l w next0 Hl Hinv Hkept Hnext0)
      as (w1 & next & -> & Hinv1 & [[Hkept1 ->]|(s & -> & Hbare)]).
    + destruct (truthy next0) eqn:Hnext.
      * apply IH; [done|lia|done|done].
      * exists w1. split; [|done]. by destruct fuel.
    + destruct fuel as [|fuel]; [lia|]. cbn [walkFrom truthy].
      unfold bind at 1. rewrite (bareSpy_walkLevel s w1 Hbare).
      exists w1. split; [|done]. by destruct fuel.
Qed.

End SpyWalk.

(** ** [spyAllExcept] *)





Lemma walkableb_sound h : walkableb h = true → walkable h.
Proof.
  unfold walkableb. rewrite forallb_forall. intros Hall l o Hl.
  specialize (Hall (l, o)). unfold walkableObj in Hall. cbn [fst snd] in Hall.
  rewrite !andb_true_iff in Hall. destruct Hall as [[Hc Hp] Hps].
  { apply list_elem_of_In, list_elem_of_lookup. exists l. by rewrite list_lookup_imap, Hl. }
  apply bool_decide_eq_true_1 in Hc.
  split_and!; [done|by destruct (proto o)|].
  intros k e Hk. rewrite forallb_forall in Hps.
  assert ((k, AccessorProp GetThrows e) ∈ props o) as Hin.
  { clear -Hk. induction (props o) as [|[k' q] ps IH]; cbn [ownProp] in Hk; [done|].
    case_bool_decide.
    - injection Hk as ->. subst k'. left.
    - right. by apply IH. }
  apply list_elem_of_In in Hin. by specialize (Hps _ Hin).
Qed.



(** The run of the witness: [bar] and the inherited, non-enumerable [baz]
    are replaced by spies on the object itself, [foo] is not. *)
Example spyAllExcept_instance_run :
  propsOf (spyAllExcept 2 (VRef 1) (NameArray ["foo"]) None instanceHeap).1 1
  = [("foo", DataProp (VRef 2) true true);
     ("bar", DataProp (VRef 4) true true);
     ("baz", DataProp (VRef 5) true true)]
  ∧ map (λ v, (target v, visited v, via v))
      (visits (runWalk (spyAllExceptIterator (getMethodsToSkip (NameArray ["foo"])) None)
                 2 (VRef 1) instanceHeap).1)
    = [(VRef 1, "foo", ViaForIn); (VRef 1, "bar", ViaForIn); (VRef 1, "baz", ViaOwnNames)].
Proof. split; reflexivity. Qed.

(** A constructor: its static method and the methods of its [prototype]
    are spied, the excepted [foo] of the prototype is not. *)
Example spyAllExcept_class_run :
  (spyAllExcept 3 (VRef 0) (NameArray ["foo"]) None classHeap).2 = Return (VRef 0)
  ∧ propsOf (spyAllExcept 3 (VRef 0) (NameArray ["foo"]) None classHeap).1 0
    = [("prototype", DataProp (VRef 1) true false); ("create", DataProp (VRef 5) true true)]
  ∧ propsOf (spyAllExcept 3 (VRef 0) (NameArray ["foo"]) None classHeap).1 1
    = [("foo", DataProp (VRef 3) true true); ("bar", DataProp (VRef 6) true true)].
Proof. split_and!; reflexivity. Qed.

(** A read-only function member is shown to the iterator by the
    [for .. in] step all the same; the spy made for it does not take its
    place, and the member reads as the function it was. *)
Example spyAll_read_only_member :
  map (λ v, (target v, visited v, via v))
    (visits (runWalk (spyAllExceptIterator (getMethodsToSkip (NameArray [])) None)
               1 (VRef 0) readOnlyMethodHeap).1)
  = [(VRef 0, "save", ViaForIn)]
  ∧ spyAll 1 (VRef 0) readOnlyMethodHeap
    = (readOnlyMethodHeap ++ [Obj ProtoObject [] (KSpy (Spy [] PlanDefault (VRef 1)))],
       Return (VRef 0))
  ∧ get (spyAll 1 (VRef 0) readOnlyMethodHeap).1 0 "save" = Return (VRef 1).
Proof. split_and!; reflexivity. Qed.

(** * Further properties of the helpers *)

(** ** The exception list *)

(** X1. [resetAllExcept(obj, excepts)] does what [resetAll(obj)] does,
    whatever [excepts] is: same heap, same result, for every object and
    iteration budget. *)
Theorem resetAllExcept_is_resetAll (fuel : nat) (obj : value) (excepts : names)
    (h : heap) :
  resetAllExcept fuel obj excepts h = resetAll fuel obj h.
Proof. unfold resetAll. apply resetAllExcept_ignores_excepts. Qed.

(** X2. The skip test of [spyAllExcept] holds for a name exactly when the
    name is in the exception list or is a member of [Object.prototype]
    (which the map built by [getMethodsToSkip] inherits): [__proto__]
    cannot be stored in the map but is skipped all the same. *)
Theorem skipsMethod_iff (excepts : names) (k : string) :
  skipsMethod (getMethodsToSkip excepts) k = true
  ↔ k ∈ toArray excepts ∨ inheritedName k.
Proof.
  split.
  - intros Hskip.
    destruct (decide (k ∈ toArray excepts)) as [|Hnin]; [by left|].
    destruct (decide (k ∈ "__proto__" :: objectPrototypeMethods)) as [|Hninh]; [by right|].
    by rewrite (skipsMethod_other _ _ Hnin Hninh) in Hskip.
  - intros [Hin|Hinh]; [by apply skipsMethod_excepted|by apply skipsMethod_inherited].
Qed.

(** ** What the walk shows *)

(** X3. No walk ever shows the iterator a property named like a member
    of [Object.prototype] ([constructor], [toString], [valueOf],
    [hasOwnProperty], ..., [__proto__]), even when the object defines an
    enumerable property of that name itself: [spyAll] never spies and
    [resetAll] never resets such a member. *)
Theorem walk_never_shows_inherited_names (iterator : value → string → M unit)
    (fuel : nat) (obj : value) (h : heap) :
  Forall (λ v, ¬ inheritedName (visited v)) (visits (runWalk iterator fuel obj h).1).
Proof.
  apply Forall_forall. intros v Hin. by eapply inherited_names_never_visited.
Qed.

Example spyAll_leaves_own_toString :
  get (spyAll 1 (VRef 0) literalHeap).1 0 "toString" = Return (VRef 2)
  ∧ isSpy (spyAll 1 (VRef 0) literalHeap).1 (VRef 2) = false
  ∧ get (spyAll 1 (VRef 0) literalHeap).1 0 "save" = Return (VRef 4).
Proof. split_and!; reflexivity. Qed.

(** X4. In a run that stays inside the object model (it does not end
    on a primitive used as an object, a dangling reference or a prototype
    chain without end), whatever the walk shows the iterator is a heap
    object and a name that could be read on that object just before the
    call: the iterator is never called for a property whose read throws. *)
Theorem walk_shows_readable_members_only (iterator : value → string → M unit)
    (fuel : nat) (obj : value) (h : heap)
    (Hmodel : (runWalk iterator fuel obj h).2 ≠ Stuck) :
  Forall (λ v, ∃ l x, target v = VRef l ∧ get (store v) l (visited v) = Return x)
         (visits (runWalk iterator fuel obj h).1).
Proof.
  apply Forall_forall. intros v Hin. by eapply visited_members_were_readable.
Qed.

Lemma walk_shows_readable_members_only_witness :
  Forall (λ v, ∃ l x, target v = VRef l ∧ get (store v) l (visited v) = Return x)
         (visits (runWalk (spyAllExceptIterator (getMethodsToSkip (NameArray ["foo"])) None)
                    3 (VRef 0) classHeap).1).
Proof.
  apply (walk_shows_readable_members_only
           (spyAllExceptIterator (getMethodsToSkip (NameArray ["foo"])) None)
           3 (VRef 0) classHeap).
  vm_compute. discriminate.
Defined.

(** ** [toBeEmpty] *)




Example toBeEmpty_empty_array :
  toBeEmpty (VRef 0) [arrayLike 0] = ([arrayLike 0], Return (VBool true)).
Proof. reflexivity. Qed.

Example toBeEmpty_empty_string :
  toBeEmpty (VStr "") [] = ([], Return (VStr "")).
Proof. reflexivity. Qed.

(** ** Edge cases of [getCallWithArg] *)

(** X6. [NaN] is never found: [indexOf] compares with [===], so for a
    spied member [getCallWithArg(obj, method, NaN)] returns [undefined]
    even when a call was made with [NaN]. *)
Theorem getCallWithArg_NaN_not_found (h : heap) (obj : value) (method : string)
    (sp : value) (s : spy)
    (Hmember : getV h obj method = Return sp)
    (Hspy : spyOf h sp = Some s) :
  getCallWithArg obj method VNaN h = (h, Return None).
Proof.
  unfold getCallWithArg, callsOf, bind, lift, ret. rewrite Hmember. cbn. rewrite Hspy.
  f_equal. f_equal. induction (calls s) as [|c cs IH]; [done|].
  cbn [findCall]. unfold indexOf_found.
  replace (existsb (strict_equals VNaN) (args c)) with false; [done|].
  symmetry. by induction (args c).
Qed.

Lemma getCallWithArg_NaN_not_found_witness :
  getCallWithArg (VRef 0) "save" VNaN nanHeap = (nanHeap, Return None).
Proof.
  apply (getCallWithArg_NaN_not_found nanHeap (VRef 0) "save" (VRef 1)
           (Spy [Call [VNaN]; Call [VNum 7]] PlanDefault VUndefined)); reflexivity.
Defined.

(** X7. On a member that is not a spy [getCallWithArg] throws instead of
    answering "not found": when the object has no such member, or when
    the member has no [calls] (a plain function, say), reading
    [calls.length] fails with a [TypeError]. The heap is left as it was. *)
Theorem getCallWithArg_without_spy_throws (h : heap) (obj : value) (method : string)
    (sp arg : value)
    (Hmember : getV h obj method = Return sp)
    (Hnospy : spyOf h sp = None)
    (Hcalls : sp = VUndefined ∨ getV h sp "calls" = Return VUndefined) :
  getCallWithArg obj method arg h = (h, Throw TypeError).
Proof.
  unfold getCallWithArg, callsOf, bind, lift, ret, throw. rewrite Hmember. cbn.
  rewrite Hnospy. by destruct Hcalls as [->| ->].
Qed.

Lemma getCallWithArg_without_spy_throws_witness :
  getCallWithArg (VRef 0) "load" (VNum 7) nanHeap = (nanHeap, Throw TypeError).
Proof.
  apply (getCallWithArg_without_spy_throws nanHeap (VRef 0) "load" (VRef 2) (VNum 7)).
  - reflexivity.
  - reflexivity.
  - right. reflexivity.
Defined.

(** ** What [spyIf] touches *)

(** X8. Spying a plain function with [spyIf], in a slot that can be
    assigned, creates one object, a spy without recorded call, configured
    as [behavior] says and wrapping the function; the member then reads as
    that spy. Nothing else moves: every other object is as it was, and
    every property of another name reads the same on every object. *)
Theorem spyIf_touches_only_the_member (h : heap) (l : loc) (method : string)
    (b : option behavior) (v : value)
    (Hmember : get h l method = Return v)
    (Hplain : plainFunction h v = true)
    (Hassign : assignable h l method)
    (Hbehavior : supported b) :
  ∃ h', spyIf (VRef l) method b h = (h', Return (VRef (length h)))
    ∧ length h' = S (length h)
    ∧ get h' l method = Return (VRef (length h))
    ∧ spyOf h' (VRef (length h)) = Some (Spy [] (planFor b) v)
    ∧ (∀ l', l' ≠ l → l' < length h → h' !! l' = h !! l')
    ∧ (∀ l' n x, n ≠ method → get h l' n = Return x → get h' l' n = Return x).
Proof.
  destruct (spyIf_plain _ _ _ _ _ Hmember Hplain Hbehavior Hassign) as (h' & Hrun & Hi).
  exists h'. split_and!.
  - done.
  - by destruct Hi.
  - by eapply spyInstalled_get.
  - by eapply spyInstalled_isSpy.
  - by destruct Hi as (_ & _ & Hother & _).
  - intros l' n x Hne Hget. eapply get_agree; [|exact Hget|done].
    eapply spyInstalled_agreeOn; [exact Hi|done].
Qed.

Lemma spyIf_touches_only_the_member_witness :
  ∃ h', spyIf (VRef 0) "save" (Some (Behavior "andCallThrough" [])) threeMethods
        = (h', Return (VRef (length threeMethods)))
    ∧ length h' = S (length threeMethods)
    ∧ get h' 0 "save" = Return (VRef (length threeMethods))
    ∧ spyOf h' (VRef (length threeMethods))
      = Some (Spy [] (planFor (Some (Behavior "andCallThrough" []))) (VRef 1))
    ∧ (∀ l', l' ≠ 0 → l' < length threeMethods → h' !! l' = threeMethods !! l')
    ∧ (∀ l' n x, n ≠ "save" → get threeMethods l' n = Return x → get h' l' n = Return x).
Proof.
  apply (spyIf_touches_only_the_member threeMethods 0 "save"
           (Some (Behavior "andCallThrough" [])) (VRef 1)).
  - reflexivity.
  - reflexivity.
  - reflexivity.
  - by eexists.
Defined.

(** ** [resetAllExcept] and [resetAll] *)

Lemma resetsOf_lookup h h' x :
  resetsOf h h' →
  match h !! x with
  | Some o => ∃ o', h' !! x = Some o' ∧ proto o' = proto o ∧ props o' = props o
  | None => h' !! x = None
  end.
Proof.
  intros [Hlen Hr]. destruct (h !! x) as [o|] eqn:Hx.
  - destruct (Hr _ _ Hx) as [Hx'|Hx']; eexists; (split; [exact Hx'|]); [done|].
    by destruct (resetObj_shape o) as [-> ->].
  - apply lookup_ge_None in Hx. apply lookup_ge_None. lia.
Qed.

Lemma resetsOf_propsOf h h' x : resetsOf h h' → propsOf h' x = propsOf h x.
Proof.
  intros Hr. pose proof (resetsOf_lookup h h' x Hr) as Hx. unfold propsOf.
  destruct (h !! x); [by destruct Hx as (o' & -> & _ & ->)|by rewrite Hx].
Qed.

Lemma resetsOf_protoOf h h' x : resetsOf h h' → protoOf h' x = protoOf h x.
Proof.
  intros Hr. pose proof (resetsOf_lookup h h' x Hr) as Hx. unfold protoOf.
  destruct (h !! x); [by destruct Hx as (o' & -> & -> & _)|by rewrite Hx].
Qed.

Lemma resetsOf_protoChain h h' l : resetsOf h h' → protoChain h' l = protoChain h l.
Proof.
  intros Hr. unfold protoChain. rewrite (proj1 Hr).
  revert l. induction (length h) as [|f IH]; intros l; cbn [protoChainFrom]; [done|].
  pose proof (resetsOf_lookup h h' l Hr) as Hl.
  destruct (h !! l) as [o|]; [|by rewrite Hl].
  destruct Hl as (o' & -> & -> & _). destruct (proto o); try done. by rewrite IH.
Qed.

Lemma resetsOf_findProp h h' c n : resetsOf h h' → findProp h' c n = findProp h c n.
Proof.
  intros Hr. induction c as [|l c IH]; cbn [findProp]; [done|].
  by rewrite (resetsOf_propsOf _ _ _ Hr), IH.
Qed.

(** Resetting spies changes no read. *)
Lemma resetsOf_get_eq h h' l n : resetsOf h h' → get h' l n = get h l n.
Proof.
  intros Hr. unfold get. rewrite (resetsOf_protoChain _ _ _ Hr).
  destruct (protoChain h l) as [[c e]|]; [|done].
  by rewrite (resetsOf_findProp _ _ _ _ Hr), (resetsOf_protoOf _ _ _ Hr).
Qed.

Lemma resetsOf_descriptorOf h h' l n :
  resetsOf h h' → descriptorOf h' l n = descriptorOf h l n.
Proof.
  intros Hr. unfold descriptorOf.
  rewrite (resetsOf_propsOf _ _ _ Hr), (resetsOf_protoOf _ _ _ Hr).
  destruct (ownProp (propsOf h l) n); [done|].
  destruct (protoOf h l) as [| |p]; [done|done|].
  pose proof (resetsOf_lookup h h' p Hr) as Hp.
  destruct (h !! p) as [o|]; [|by rewrite Hp].
  by destruct Hp as (o' & -> & _ & ->).
Qed.

Lemma resetsOf_forInKeys h h' l : resetsOf h h' → forInKeys h' l = forInKeys h l.
Proof.
  intros Hr. unfold forInKeys. rewrite (resetsOf_protoChain _ _ _ Hr).
  destruct (protoChain h l) as [[c e]|]; [|done]. f_equal.
  generalize (@nil string). induction c as [|x c IH]; intros sh; cbn [enumKeys]; [done|].
  by rewrite (resetsOf_propsOf _ _ _ Hr), IH.
Qed.

Lemma resetsOf_filteredOwnNames h h' l :
  resetsOf h h' → filteredOwnNames h' l = filteredOwnNames h l.
Proof.
  intros Hr. unfold filteredOwnNames. rewrite (resetsOf_propsOf _ _ _ Hr).
  apply filter_ext. intros n. unfold readThrows. by rewrite (resetsOf_get_eq _ _ _ _ Hr).
Qed.

Lemma resetsOf_collectProps h h' l ps :
  resetsOf h h' → collectProps h' l ps = collectProps h l ps.
Proof.
  intros Hr. unfold collectProps.
  rewrite (resetsOf_get_eq _ _ _ _ Hr), (resetsOf_protoOf _ _ _ Hr).
  destruct (get h l "prototype") as [slot|e| |]; try done.
  destruct (truthy slot); [done|]. destruct (protoOf h l) as [| |p]; [done|done|].
  pose proof (resetsOf_lookup h h' p Hr) as Hp.
  destruct (h !! p) as [o|]; [|by rewrite Hp].
  by destruct Hp as (o' & -> & _ & ->).
Qed.

(** One call of the iterator of [resetAllExcept], on a heap that is a
    reset of [h0]. *)
Lemma resetAllExceptIterator_run ms cur i h0 hc v :
  resetSkipsMethod ms i = false →
  resetsOf h0 hc → get h0 cur i = Return v →
  ∃ h', resetAllExceptIterator ms (VRef cur) i hc = (h', Return tt)
    ∧ resetsOf h0 h'
    ∧ (∀ x o, h0 !! x = Some o → hc !! x = Some (resetObj o) → h' !! x = Some (resetObj o))
    ∧ (∀ x o, v = VRef x → h0 !! x = Some o → h' !! x = Some (resetObj o)).
Proof.
  intros Hskip Hr Hget. unfold resetAllExceptIterator.
  unfold bind at 1, lift at 1. cbn [getV]. rewrite (resetsOf_get_eq _ _ _ _ Hr), Hget.
  unfold bind at 1, lift at 1.
  assert (∀ x o, v = VRef x → h0 !! x = Some o → isSpy hc v = false →
            hc !! x = Some (resetObj o)) as Hnospy.
  { intros x o -> Hx Hspy. rewrite (resetsOf_isSpy _ _ _ Hr) in Hspy. simpl in Hspy.
    rewrite Hx in Hspy. destruct Hr as [_ Hr].
    destruct (Hr _ _ Hx) as [->| ->]; [|done].
    unfold resetObj. destruct o as [? ? []]; done. }
  destruct (isFunction hc v) eqn:Hfn; cbn [negb].
  2:{ exists hc. split_and!; [done|done|done|].
      intros x o Hv Hx. apply Hnospy; [done|done|].
      destruct (isSpy hc v) eqn:Hspy; [|done]. by rewrite (isSpy_isFunction _ _ Hspy) in Hfn. }
  rewrite Hskip. cbn [negb]. unfold bind at 1, lift at 1.
  destruct (isSpy hc v) eqn:Hspy.
  2:{ exists hc. split_and!; [done|done|done|]. intros x o Hv Hx. by apply Hnospy. }
  rewrite (resetsOf_isSpy _ _ _ Hr) in Hspy.
  destruct v as [| | | | | |x|]; try done. simpl in Hspy.
  destruct (h0 !! x) as [o|] eqn:Hx; [|done].
  destruct o as [p ps k]. destruct k as [| |s]; try done.
  destruct (reset_run h0 hc x s _ Hr Hx eq_refl) as (h' & Hrun & Hr' & Hx' & Hoth).
  exists h'. split_and!; [done|done| |].
  - intros y o Hy Hc. destruct (decide (y = x)) as [->|Hne]; [congruence|].
    by rewrite Hoth.
  - intros y o [= <-] Hy. congruence.
Qed.

Lemma resetAllInv_step h0 excepts w cur i p :
  resetAllInv h0 w → visitGuard w cur i p →
  resetAllInv h0
    (visitProp (resetAllExceptIterator (getMethodsToSkip excepts)) cur i p w).1.
Proof.
  intros [Hr Hvis] (_ & [v Hget] & _).
  rewrite (resetsOf_get_eq _ _ _ _ Hr) in Hget.
  destruct (resetAllExceptIterator_run (getMethodsToSkip excepts) cur i h0 (heapOf w) v
              (resetAllExcept_never_skips _ _) Hr Hget) as (h' & Hrun & Hr' & Hkeep & Hnew).
  unfold visitProp. rewrite Hrun. cbn [fst]. split; cbn [heapOf visits]; [done|].
  intros v0 tl x o [Hin|Hin]%elem_of_app Htl Hv0 Hx.
  - apply Hkeep; [done|]. by eapply Hvis.
  - apply list_elem_of_singleton in Hin as ->. cbn [target visited] in *.
    injection Htl as <-. rewrite Hget in Hv0. injection Hv0 as ->. by eapply Hnew.
Qed.

Lemma resetAllExcept_heap fuel obj excepts h :
  (resetAllExcept fuel obj excepts h).1
  = heapOf (runWalk (resetAllExceptIterator (getMethodsToSkip excepts)) fuel obj h).1.
Proof.
  unfold resetAllExcept, forEachWritableProperties, bind, ret.
  by destruct (runWalk _ fuel obj h) as [w [[]|e| |]].
Qed.

(** X9. [resetAllExcept] (and so [resetAll]) changes spies only, however
    it ends: the heap keeps its size, and every object is as it was or, if
    it is a spy, reset - no property is written, no prototype link
    changed, no function that is not a spy touched. *)
Theorem resetAllExcept_changes_spies_only (fuel : nat) (obj : value) (excepts : names)
    (h : heap) :
  resetsOf h (resetAllExcept fuel obj excepts h).1.
Proof.
  rewrite resetAllExcept_heap.
  apply (walk_invariant _ (resetAllInv h)).
  - intros w cur i p. apply resetAllInv_step.
  - split; [apply resetsOf_refl|]. intros v tl x o Hin. by apply elem_of_nil in Hin.
Qed.

(** ** The [for .. in] step *)

Lemma dictSetTrue_other (d : gmap string value) i k :
  k ≠ i → dictGet (dictSetTrue d i) k = dictGet d k.
Proof.
  intros Hne. unfold dictSetTrue. case_bool_decide; [done|].
  unfold dictGet. by rewrite lookup_insert_ne.
Qed.

Lemma elem_of_freshKeys keys :
  ∀ (found : gmap string value) k,
    (∀ k' v, found !! k' = Some v → v = VBool true) →
    (k ∈ freshKeys found keys ↔ k ∈ keys ∧ truthy (dictGet found k) = false).
Proof.
  induction keys as [|i keys IH]; intros found k Htrue; cbn [freshKeys].
  - split; [intros Hin; by apply elem_of_nil in Hin|].
    intros [Hin _]. by apply elem_of_nil in Hin.
  - destruct (truthy (dictGet found i)) eqn:Hi.
    + rewrite IH by done. split.
      * intros [Hin Hk]. split; [by right|done].
      * intros [[->|Hin]%elem_of_cons Hk]; [congruence|done].
    + rewrite elem_of_cons, IH by (by apply dictSetTrue_onlyTrue). split.
      * intros [->|[Hin Hk]]; [split; [left|done]|].
        split; [by right|].
        destruct (decide (k = i)) as [->|Hne]; [done|].
        by rewrite dictSetTrue_other in Hk.
      * intros [[->|Hin]%elem_of_cons Hk]; [by left|].
        destruct (decide (k = i)) as [->|Hne]; [by left|].
        right. split; [done|]. by rewrite dictSetTrue_other.
Qed.

(** When the [for .. in] loop of a level completes, it has called the
    iterator exactly for the keys not yet marked, in order, each once. *)
Lemma forInLoop_visits iterator cur keys :
  ∀ w w', forInLoop iterator cur keys w = (w', Return tt) →
    ∃ news, visits w' = visits w ++ news
      ∧ (λ v, (target v, visited v, via v)) <$> news
        = (λ k, (VRef cur, k, ViaForIn)) <$> freshKeys (foundProps w) keys.
Proof.
  induction keys as [|i keys IH]; intros w w'; cbn [forInLoop freshKeys].
  - unfold ret. intros [= <-]. exists []. by rewrite app_nil_r.
  - unfold bind at 1, lift at 1.
    destruct (truthy (dictGet (foundProps w) i)) eqn:Hfound; [by apply IH|].
    unfold bind at 1, lift at 1.
    destruct (get (heapOf w) cur i) as [x|e| |]; try done.
    unfold bind at 1. unfold visitProp at 1.
    destruct (iterator (VRef cur) i (heapOf w)) as [h1 [[]|e| |]]; try done.
    intros Hrest. destruct (IH _ _ Hrest) as (news & Hvis & Hnews).
    cbn [visits foundProps] in *.
    exists (Visit (VRef cur) i ViaForIn (heapOf w) :: news). split.
    + by rewrite Hvis, <- app_assoc.
    + cbn [fmap list_fmap]. by rewrite <- Hnews.
Qed.

(** The walk only ever appends to its record of calls. *)
Lemma propsLoop_visits_grow iterator cur ps w v0 :
  v0 ∈ visits w → v0 ∈ visits (propsLoop iterator cur ps w).1.
Proof.
  intros Hin.
  pose proof (propsLoop_inv iterator (λ w', v0 ∈ visits w') (λ w', v0 ∈ visits w')) as Hinv.
  specialize (Hinv ltac:(
    intros w1 c i p Hw1 _; unfold visitProp;
    destruct (iterator (VRef c) i (heapOf w1)) as [h1 [[]|e| |]]; cbn;
    apply elem_of_app; by left) cur ps w Hin).
  destruct (propsLoop iterator cur ps w) as [w' [[]|e| |]]; cbn in *; tauto.
Qed.

Lemma walkFrom_visits_grow iterator fuel v w v0 :
  v0 ∈ visits w → v0 ∈ visits (walkFrom iterator fuel v w).1.
Proof.
  intros Hin.
  pose proof (walkFrom_inv iterator (λ w', v0 ∈ visits w') (λ w', v0 ∈ visits w')) as Hinv.
  specialize (Hinv ltac:(
    intros w1 c i p Hw1 _; unfold visitProp;
    destruct (iterator (VRef c) i (heapOf w1)) as [h1 [[]|e| |]]; cbn;
    apply elem_of_app; by left) fuel v w Hin).
  destruct (walkFrom iterator fuel v w) as [w' [[]|e| |]]; cbn in *; tauto.
Qed.

Lemma empty_found_falsy k :
  ¬ inheritedName k → truthy (dictGet (∅ : gmap string value) k) = false.
Proof.
  intros Hinh. unfold dictGet. rewrite lookup_empty. unfold objectPrototypeGet.
  rewrite (bool_decide_eq_false_2 (k ∈ objectPrototypeMethods))
    by (intros Hin; apply Hinh; by right).
  by rewrite (bool_decide_eq_false_2 (k = "__proto__")) by (intros ->; apply Hinh; left).
Qed.

Lemma walk_shows_enumerable iterator fuel l h w keys k :
  runWalk iterator fuel (VRef l) h = (w, Return tt) →
  forInKeys h l = Return keys → k ∈ keys → ¬ inheritedName k →
  ∃ v, v ∈ visits w ∧ target v = VRef l ∧ visited v = k ∧ via v = ViaForIn.
Proof.
  intros Hrun Hkeys Hk Hinh. unfold runWalk in Hrun.
  destruct fuel as [|fuel]; [done|]. cbn [walkFrom truthy] in Hrun.
  unfold bind at 1 in Hrun. unfold walkLevel in Hrun.
  unfold bind at 1, lift at 1 in Hrun. cbn [heapOf] in Hrun. rewrite Hkeys in Hrun.
  unfold bind at 1 in Hrun.
  destruct (forInLoop iterator l keys (Walk h ∅ [])) as [w1 [[]|e| |]] eqn:Hloop; try done.
  destruct (forInLoop_visits _ _ _ _ _ Hloop) as (news & Hvis & Hnews).
  cbn [visits foundProps app] in *.
  assert (k ∈ freshKeys ∅ keys) as Hfresh.
  { apply elem_of_freshKeys; [|split; [done|by apply empty_found_falsy]].
    intros k' v'. by rewrite lookup_empty. }
  assert ((VRef l, k, ViaForIn) ∈ (λ v, (target v, visited v, via v)) <$> news) as Hin.
  { rewrite Hnews. apply list_elem_of_fmap. eauto. }
  apply list_elem_of_fmap in Hin as (v & Heq & Hv). injection Heq as Ht Hn Hp.
  exists v. split_and!; try done.
  assert (v ∈ visits w1) as Hv1 by (by rewrite Hvis).
  revert Hrun. unfold bind at 1, lift at 1. unfold bind at 1, lift at 1.
  destruct (collectProps _ _ _) as [ps|e| |]; try done.
  unfold bind at 1.
  pose proof (propsLoop_visits_grow iterator l ps w1 v Hv1) as Hv2.
  destruct (propsLoop iterator l ps w1) as [w2 [[]|e| |]]; try done.
  cbn [fst] in Hv2. unfold bind at 1, lift at 1.
  destruct (get (heapOf w2) l "prototype") as [slot|e| |]; try done.
  unfold ret. intros Hrest.
  pose proof (walkFrom_visits_grow iterator fuel (if truthy slot then slot else VNull) w2 v Hv2)
    as Hv3.
  by rewrite Hrest in Hv3.
Qed.

Lemma keepsKeys_same (o : obj) k :
  match ownProp (props o) k with
  | Some p =>
      ∃ p', ownProp (props o) k = Some p'
            ∧ isEnumerable (Some p') = isEnumerable (Some p)
  | None => ∀ p', ownProp (props o) k = Some p' → isEnumerable (Some p') = true
  end.
Proof.
  destruct (ownProp (props o) k) as [p|] eqn:Hp; [by eauto|]. intros p' Hp'. congruence.
Qed.

Lemma keepsKeys_refl h : keepsKeys h h.
Proof.
  intros l o Hl. exists o. split_and!; [done|done|]. apply keepsKeys_same.
Qed.

Lemma spyMade_keepsKeys l m p v h h' : spyMade l m p v h h' → keepsKeys h h'.
Proof.
  intros (Hlen & (o & Hl & Hl') & Hother & _) l0 o0 Hl0.
  destruct (decide (l0 = l)) as [->|Hne].
  - rewrite Hl in Hl0. injection Hl0 as <-. destruct Hl' as [Hl'|Hl'].
    + exists o. split_and!; [done|done|]. apply keepsKeys_same.
    + eexists. split; [exact Hl'|]. split; [done|]. cbn [props]. intros k.
      destruct (decide (m = k)) as [<-|Hmk].
      * rewrite ownProp_setOwn_eq. unfold installedProp.
        destruct (ownProp (props o) m) as [[? [] ?|g ?]|]; try by eauto.
        intros p' [= <-]. done.
      * rewrite ownProp_setOwn_ne by done. apply keepsKeys_same.
  - exists o0. split_and!; [|done|apply keepsKeys_same].
    rewrite Hother; [done|done|]. by eapply lookup_lt_Some.
Qed.

(** The iterator of [spyAllExcept] removes no key, whatever it is called
    on. *)
Lemma spyAllExceptIterator_keepsKeys excepts t k h :
  keepsKeys h (spyAllExceptIterator (getMethodsToSkip excepts) None t k h).1.
Proof.
  destruct t as [| | | | | |cur|];
    try (unfold spyAllExceptIterator, bind, lift; cbn [getV fst]; apply keepsKeys_refl).
  destruct (get h cur k) as [v|e| |] eqn:Hget.
  - destruct (spyAllExceptIterator_run (getMethodsToSkip excepts) None cur k h v Hget I)
      as (h' & -> & [[-> _]|(_ & _ & Hmade & _)]); cbn [fst].
    + intros ->. apply skipsMethod_proto.
    + apply keepsKeys_refl.
    + by eapply spyMade_keepsKeys.
  - unfold spyAllExceptIterator, bind, lift. cbn [getV]. rewrite Hget. apply keepsKeys_refl.
  - unfold spyAllExceptIterator, bind, lift. cbn [getV]. rewrite Hget. apply keepsKeys_refl.
  - unfold spyAllExceptIterator, bind, lift. cbn [getV]. rewrite Hget. apply keepsKeys_refl.
Qed.

(** X10. With an iterator that removes no key - no object loses a
    property or its prototype link, no property changes its enumerable
    flag, and no property appears that is not enumerable - a walk that
    runs to its end has shown the iterator every key the [for .. in] loop
    over [obj] yields - every enumerable property of [obj], own or
    inherited and not shadowed - except the names of [Object.prototype],
    with [obj] itself as target. *)
Theorem walk_shows_every_enumerable_name (iterator : value → string → M unit)
    (fuel : nat) (l : loc) (h : heap) (w : walk) (keys : list string)
    (Hkeeps : ∀ currentProto name h0, keepsKeys h0 (iterator currentProto name h0).1)
    (Hrun : runWalk iterator fuel (VRef l) h = (w, Return tt))
    (Hkeys : forInKeys h l = Return keys) :
  Forall (λ k, ¬ inheritedName k →
               ∃ v, v ∈ visits w ∧ target v = VRef l ∧ visited v = k ∧ via v = ViaForIn)
         keys.
Proof.
  apply Forall_forall. intros k Hk Hinh. by eapply walk_shows_enumerable.
Qed.

Lemma walk_shows_every_enumerable_name_witness :
  Forall (λ k, ¬ inheritedName k →
               ∃ v, v ∈ visits (runWalk (spyAllExceptIterator
                                           (getMethodsToSkip (NameArray ["foo"])) None)
                                  2 (VRef 1) instanceHeap).1
                    ∧ target v = VRef 1 ∧ visited v = k ∧ via v = ViaForIn)
         ["foo"; "bar"].
Proof.
  apply (walk_shows_every_enumerable_name
           (spyAllExceptIterator (getMethodsToSkip (NameArray ["foo"])) None)
           2 1 instanceHeap
           (runWalk (spyAllExceptIterator (getMethodsToSkip (NameArray ["foo"])) None)
              2 (VRef 1) instanceHeap).1 ["foo"; "bar"]).
  - intros currentProto name h0. apply spyAllExceptIterator_keepsKeys.
  - reflexivity.
  - reflexivity.
Defined.

(** ** The walk of [resetAll] runs to its end *)

Section ResetWalk.

Variables (h0 : heap) (excepts : names).
Hypothesis Hwalkable : walkable h0.

Lemma reset_visit_total cur i p w v :
  resetAllInv h0 w → get h0 cur i = Return v →
  ∃ w', visitProp (resetAllExceptIterator (getMethodsToSkip excepts)) cur i p w
        = (w', Return tt)
    ∧ resetAllInv h0 w'.
Proof.
  intros [Hr Hvis] Hget.
  destruct (resetAllExceptIterator_run (getMethodsToSkip excepts) cur i h0 (heapOf w) v
              (resetAllExcept_never_skips _ _) Hr Hget) as (h' & Hrun & Hr' & Hkeep & Hnew).
  eexists. unfold visitProp. rewrite Hrun. split; [done|].
  split; cbn [heapOf visits]; [done|].
  intros v0 tl x o [Hin|Hin]%elem_of_app Htl Hv0 Hx.
  - apply Hkeep; [done|]. by eapply Hvis.
  - apply list_elem_of_singleton in Hin as ->. cbn [target visited] in *.
    injection Htl as <-. rewrite Hget in Hv0. injection Hv0 as ->. by eapply Hnew.
Qed.

Lemma reset_forInLoop_total cur keys :
  is_Some (h0 !! cur) →
  ∀ w, resetAllInv h0 w →
  ∃ w', forInLoop (resetAllExceptIterator (getMethodsToSkip excepts)) cur keys w
        = (w', Return tt)
    ∧ resetAllInv h0 w'.
Proof.
  intros Hcur. induction keys as [|i keys IH]; intros w Hinv; [by exists w|].
  cbn [forInLoop]. unfold bind at 1, lift at 1.
  destruct (truthy (dictGet (foundProps w) i)); [by apply IH|].
  unfold bind at 1, lift at 1.
  destruct (walkable_get h0 cur i Hwalkable Hcur) as [v Hv].
  rewrite (resetsOf_get_eq _ _ _ _ (proj1 Hinv)), Hv. unfold bind at 1.
  destruct (reset_visit_total cur i ViaForIn w v Hinv Hv) as (w1 & -> & Hinv1).
  by apply IH.
Qed.

Lemma reset_propsLoop_total cur ps :
  is_Some (h0 !! cur) →
  (∀ n, n ∈ ps → ∃ d, descriptorOf h0 cur n = Return d) →
  ∀ w, resetAllInv h0 w →
  ∃ w', propsLoop (resetAllExceptIterator (getMethodsToSkip excepts)) cur ps w
        = (w', Return tt)
    ∧ resetAllInv h0 w'.
Proof.
  intros Hcur. induction ps as [|n ps IH]; intros Hdesc w Hinv; [by exists w|].
  assert (∀ n', n' ∈ ps → ∃ d, descriptorOf h0 cur n' = Return d) as Hrest.
  { intros n' Hin. apply Hdesc. by right. }
  cbn [propsLoop]. unfold bind at 1, lift at 1.
  destruct (walkable_get h0 cur n Hwalkable Hcur) as [v Hv].
  rewrite (resetsOf_get_eq _ _ _ _ (proj1 Hinv)), Hv. unfold bind at 1, lift at 1.
  destruct (negb (bool_decide (n = "prototype"))
            && negb (truthy (dictGet (foundProps w) n))); [|by apply IH].
  unfold bind at 1, lift at 1.
  rewrite (resetsOf_descriptorOf _ _ _ _ (proj1 Hinv)).
  destruct (Hdesc n) as [d ->]; [left|].
  destruct (writable d); [|by apply IH].
  unfold bind at 1.
  destruct (reset_visit_total cur n ViaOwnNames w v Hinv Hv) as (w1 & -> & Hinv1).
  by apply IH.
Qed.

Lemma reset_walkLevel_total cur w next0 :
  is_Some (h0 !! cur) → resetAllInv h0 w → get h0 cur "prototype" = Return next0 →
  ∃ w', walkLevel (resetAllExceptIterator (getMethodsToSkip excepts)) cur w
        = (w', Return (if truthy next0 then next0 else VNull))
    ∧ resetAllInv h0 w'.
Proof.
  intros Hcur Hinv Hnext0. pose proof Hcur as [o Hl].
  unfold walkLevel. unfold bind at 1, lift at 1.
  rewrite (resetsOf_forInKeys _ _ _ (proj1 Hinv)). unfold forInKeys.
  destruct (Hwalkable _ _ Hl) as ([[c e] ->] & _ & _).
  unfold bind at 1.
  destruct (reset_forInLoop_total cur (enumKeys h0 c []) Hcur w Hinv) as (w1 & -> & Hinv1).
  unfold bind at 1, lift at 1. unfold bind at 1, lift at 1.
  rewrite (resetsOf_filteredOwnNames _ _ _ (proj1 Hinv1)),
    (resetsOf_collectProps _ _ _ _ (proj1 Hinv1)),
    (walkable_filteredOwnNames _ _ Hwalkable Hcur).
  destruct (spy_collectProps_total cur h0 Hwalkable Hcur) as (ps & -> & Hdesc).
  unfold bind at 1.
  destruct (reset_propsLoop_total cur ps Hcur Hdesc w1 Hinv1) as (w2 & -> & Hinv2).
  unfold bind at 1, lift at 1.
  rewrite (resetsOf_get_eq _ _ _ _ (proj1 Hinv2)), Hnext0. by exists w2.
Qed.

Lemma reset_walkFrom_total n :
  ∀ fuel v w,
    levelsWithin n h0 v → n < fuel → resetAllInv h0 w →
    ∃ w', walkFrom (resetAllExceptIterator (getMethodsToSkip excepts)) fuel v w
          = (w', Return tt)
      ∧ resetAllInv h0 w'.
Proof.
  induction n as [|n IH]; intros fuel v w Hlev Hfuel Hinv.
  - cbn [levelsWithin] in Hlev. destruct fuel as [|fuel]; [lia|].
    cbn [walkFrom]. destruct (truthy v); [done|]. by exists w.
  - cbn [levelsWithin] in Hlev. destruct fuel as [|fuel]; [lia|].
    cbn [walkFrom]. destruct (truthy v); [|by exists w].
    destruct Hlev as (l & next0 & -> & Hl & Hnext0 & Hlev).
    unfold bind at 1.
    destruct (reset_walkLevel_total l w next0 Hl Hinv Hnext0) as (w1 & -> & Hinv1).
    destruct (truthy next0) eqn:Hnext.
    + apply IH; [done|lia|done].
    + exists w1. split; [|done]. by destruct fuel.
Qed.

End ResetWalk.

Lemma resetObj_spyOf h h' x o s :
  h !! x = Some o → spyOf h (VRef x) = Some s → h' !! x = Some (resetObj o) →
  spyOf h' (VRef x) = Some (Spy [] PlanDefault (originalValue s)).
Proof.
  intros Hx Hs Hx'. simpl in *. rewrite Hx in Hs. rewrite Hx'.
  destruct o as [p ps k]. destruct k as [| |s0]; try done. by injection Hs as ->.
Qed.

(** X11. On a heap where no getter throws, no object lacks a prototype
    and the chain of [prototype] slots from [obj] ends within [n] levels,
    [resetAll(obj)] with enough iteration budget returns [obj], and every
    spy shown to the iterator is reset afterwards: no recorded call, no
    configured behaviour. In particular every spy held by an enumerable
    property of [obj] is reset, unless the property is named like a member
    of [Object.prototype]. *)
Theorem resetAll_resets_every_visited_spy (h : heap) (l : loc) (n fuel : nat)
    (Hwalkable : walkable h)
    (Hlevels : levelsWithin n h (VRef l))
    (Hfuel : n < fuel) :
  ∃ w,
    runWalk (resetAllExceptIterator (getMethodsToSkip (NameArray []))) fuel (VRef l) h
    = (w, Return tt)
    ∧ resetAll fuel (VRef l) h = (heapOf w, Return (VRef l))
    ∧ (∀ v tl m s, v ∈ visits w → target v = VRef tl →
         get h tl (visited v) = Return m → spyOf h m = Some s →
         spyOf (heapOf w) m = Some (Spy [] PlanDefault (originalValue s)))
    ∧ (∀ keys k m s, forInKeys h l = Return keys → k ∈ keys → ¬ inheritedName k →
         get h l k = Return m → spyOf h m = Some s →
         spyOf (heapOf w) m = Some (Spy [] PlanDefault (originalValue s))).
Proof.
  destruct (reset_walkFrom_total h (NameArray []) Hwalkable n fuel (VRef l) (Walk h ∅ [])
              Hlevels Hfuel) as (w & Hrun & Hr & Hvis).
  { split; [apply resetsOf_refl|]. intros v tl x o Hin. by apply elem_of_nil in Hin. }
  assert (∀ v tl m s, v ∈ visits w → target v = VRef tl →
            get h tl (visited v) = Return m → spyOf h m = Some s →
            spyOf (heapOf w) m = Some (Spy [] PlanDefault (originalValue s))) as Hreset.
  { intros v tl m s Hin Htl Hm Hs.
    destruct m as [| | | | | |x|]; try done.
    destruct (h !! x) as [o|] eqn:Hx; [|by simpl in Hs; rewrite Hx in Hs].
    eapply resetObj_spyOf; [exact Hx|exact Hs|]. by eapply Hvis. }
  exists w. split_and!.
  - done.
  - unfold resetAll, resetAllExcept, forEachWritableProperties, runWalk, bind, ret.
    unfold runWalk in Hrun. by rewrite Hrun.
  - done.
  - intros keys k m s Hkeys Hk Hinh Hm Hs.
    destruct (walk_shows_enumerable _ _ _ _ _ _ _ Hrun Hkeys Hk Hinh) as (v & Hv & Ht & Hn & _).
    eapply (Hreset v l); [done|done| |done]. by rewrite Hn.
Qed.

Lemma resetAll_resets_every_visited_spy_witness :
  ∃ w,
    runWalk (resetAllExceptIterator (getMethodsToSkip (NameArray []))) 3 (VRef 0)
      spiedClassHeap
    = (w, Return tt)
    ∧ resetAll 3 (VRef 0) spiedClassHeap = (heapOf w, Return (VRef 0))
    ∧ (∀ v tl m s, v ∈ visits w → target v = VRef tl →
         get spiedClassHeap tl (visited v) = Return m → spyOf spiedClassHeap m = Some s →
         spyOf (heapOf w) m = Some (Spy [] PlanDefault (originalValue s)))
    ∧ (∀ keys k m s, forInKeys spiedClassHeap 0 = Return keys → k ∈ keys →
         ¬ inheritedName k →
         get spiedClassHeap 0 k = Return m → spyOf spiedClassHeap m = Some s →
         spyOf (heapOf w) m = Some (Spy [] PlanDefault (originalValue s))).
Proof.
  apply (resetAll_resets_every_visited_spy spiedClassHeap 0 2 3).
  - apply walkableb_sound. reflexivity.
  - cbn. exists 0, (VRef 1). split_and!; [done|by eexists|reflexivity|].
    exists 1, VUndefined. split_and!; [done|by eexists|reflexivity|done].
  - lia.
Defined.

Example resetAll_class_run :
  spyOf (resetAll 3 (VRef 0) spiedClassHeap).1 (VRef 2)
  = Some (Spy [] PlanDefault VUndefined)
  ∧ spyOf (resetAll 3 (VRef 0) spiedClassHeap).1 (VRef 3)
    = Some (Spy [] PlanDefault VUndefined)
  ∧ (resetAll 3 (VRef 0) spiedClassHeap).1 !! 4 = spiedClassHeap !! 4.
Proof. split_and!; reflexivity. Qed.

(** ** The effect of [spyAllExcept], name by name *)

Lemma spyEffectInv_init h ms b : spyEffectInv h ms b (Walk h ∅ []).
Proof.
  split_and!; unfold foundOnlyTrue; cbn [heapOf visits foundProps].
  - apply spiesAdded_refl.
  - intros k v Hk. by rewrite lookup_empty in Hk.
  - intros v Hin. by apply elem_of_nil in Hin.
  - intros l o Hle Hl. apply lookup_lt_Some in Hl. lia.
  - intros k _. apply agreeOn_refl.
  - intros v Hin. by apply elem_of_nil in Hin.
Qed.

Lemma spyEffectInv_step h0 ms b w cur i p :
  supported b → spyEffectInv h0 ms b w → visitGuard w cur i p →
  spyEffectInv h0 ms b (visitProp (spyAllExceptIterator ms b) cur i p w).1.
Proof.
  intros Hb (Hadd & Htrue & Hseen & Hnew & Hunseen & Hvis) (Hfresh & [v Hget] & _).
  assert (i ∉ visited <$> visits w) as Hi.
  { intros Hin. apply list_elem_of_fmap in Hin as (v0 & -> & Hv0).
    specialize (Hseen v0 Hv0). congruence. }
  assert (i ≠ "__proto__") as Hnp.
  { intros ->. rewrite (dictGet_inherited_truthy _ _ Htrue) in Hfresh; [done|left]. }
  destruct (spyAllExceptIterator_run ms b cur i (heapOf w) v Hget Hb) as (h' & Hrun & Hcase);
    [done|].
  unfold visitProp. rewrite Hrun. cbn [fst].
  assert (spiesAdded h0 h' ∧ (∀ n, n ≠ i → agreeOn n (heapOf w) h')
          ∧ (∀ x o, heapOf w !! x = Some o → ∃ o', h' !! x = Some o' ∧ okind o' = okind o)
          ∧ (∀ l o, length h0 ≤ l → h' !! l = Some o →
               ∃ orig, okind o = KSpy (Spy [] (planFor b) orig)))
    as (Hadd' & Hag' & Hkind' & Hnew').
  { destruct Hcase as [[-> _]|(_ & _ & Hinst & _)].
    - split_and!; [done| |by eauto|done]. intros n _. apply agreeOn_refl.
    - split_and!.
      + by eapply spyMade_spiesAdded.
      + intros n Hne. by eapply spyMade_agreeOn.
      + intros x o Hx. destruct (spyMade_links _ _ _ _ _ _ Hinst _ _ Hx) as (o' & ? & _ & ?).
        eauto.
      + intros l o Hle Hl. destruct (decide (l = length (heapOf w))) as [->|Hne].
        * destruct Hinst as (_ & _ & _ & Hn). rewrite Hn in Hl. injection Hl as <-. by eexists.
        * assert (l < length (heapOf w)) as Hlt.
          { apply lookup_lt_Some in Hl. destruct Hinst as [Hlen _]. lia. }
          destruct (lookup_lt_is_Some_2 _ _ Hlt) as [oc Hlc].
          destruct (spyMade_links _ _ _ _ _ _ Hinst _ _ Hlc) as (o' & Hl' & _ & Hk).
          rewrite Hl in Hl'. injection Hl' as <-.
          destruct (Hnew _ _ Hle Hlc) as [orig Horig]. exists orig. congruence. }
  split_and!; unfold foundOnlyTrue; cbn [heapOf visits foundProps].
  - done.
  - by apply dictSetTrue_onlyTrue.
  - intros v0 [Hin|Hin]%elem_of_app.
    + by apply dictSetTrue_keeps, Hseen.
    + apply list_elem_of_singleton in Hin as ->. by apply dictSetTrue_marks.
  - done.
  - intros k Hk. rewrite fmap_app in Hk.
    eapply agreeOn_trans; [apply Hunseen|apply Hag'].
    + intros Hin. apply Hk, elem_of_app. by left.
    + intros ->. apply Hk, elem_of_app. right. cbn. left.
  - intros v0 [Hin|Hin]%elem_of_app.
    + destruct (Hvis v0 Hin) as (Hag0 & Hadd0 & tl & m & Htl & Hm & Heff).
      assert (visited v0 ≠ i) as Hne.
      { intros Heq. apply Hi. rewrite <- Heq. apply list_elem_of_fmap. eauto. }
      split; [done|]. split; [done|]. exists tl, m. split; [done|]. split; [done|].
      destruct (plainFunction (store v0) m && negb (skipsMethod ms (visited v0))
                && bool_decide (assignable (store v0) tl (visited v0))).
      * destruct Heff as (s & o & Hs & Hle & Hso & Hk).
        destruct (Hkind' _ _ Hso) as (o' & Hso' & Hk').
        exists s, o'. split_and!; [|done|done|congruence].
        eapply get_agree; [by apply Hag'|done|done].
      * eapply agreeOn_trans; [exact Heff|by apply Hag'].
    + apply list_elem_of_singleton in Hin as ->. cbn [visited target store].
      split; [by apply Hunseen|]. split; [done|]. exists cur, v. split; [done|].
      split; [done|].
      destruct Hcase as [[-> [Hpl|Hskip]]|(Hskip & Hpl & Hinst & Hyes & Hno)].
      * rewrite Hpl. cbn [andb]. by apply Hunseen.
      * rewrite Hskip, andb_false_r. cbn [andb]. by apply Hunseen.
      * rewrite Hpl, Hskip. cbn [andb negb]. case_bool_decide as Ha.
        -- exists (length (heapOf w)), (Obj ProtoObject [] (KSpy (Spy [] (planFor b) v))).
           split_and!; [|by destruct Hadd| |done].
           ++ eapply spyInstalled_get; [by apply Hyes|done|done].
           ++ by destruct Hinst as (_ & _ & _ & Hn).
        -- eapply agreeOn_trans; [by apply Hunseen|].
           eapply spyMade_kept_agreeOn; [exact Hinst|by apply Hno].
Qed.

Lemma spyAllExcept_heap fuel obj excepts b h :
  (spyAllExcept fuel obj excepts b h).1
  = heapOf (runWalk (spyAllExceptIterator (getMethodsToSkip excepts) b) fuel obj h).1.
Proof.
  unfold spyAllExcept, forEachWritableProperties, bind, ret.
  by destruct (runWalk _ fuel obj h) as [w [[]|e| |]].
Qed.

Lemma spyEffectInv_runWalk fuel obj excepts b h :
  supported b →
  spyEffectInv h (getMethodsToSkip excepts) b
    (runWalk (spyAllExceptIterator (getMethodsToSkip excepts) b) fuel obj h).1.
Proof.
  intros Hb. apply (walk_invariant _ (spyEffectInv h (getMethodsToSkip excepts) b)).
  - intros w cur i p. by apply spyEffectInv_step.
  - apply spyEffectInv_init.
Qed.

(** A name that is skipped, or never shown, reads the same everywhere. *)
Lemma spyEffectInv_unspied h0 excepts b w k :
  spyEffectInv h0 (getMethodsToSkip excepts) b w →
  k ∈ toArray excepts ∨ inheritedName k ∨ k ∉ visited <$> visits w →
  agreeOn k h0 (heapOf w).
Proof.
  intros (_ & _ & _ & _ & Hunseen & Hvis) Hk.
  destruct (decide (k ∈ visited <$> visits w)) as [Hin|Hnin]; [|by apply Hunseen].
  apply list_elem_of_fmap in Hin as (v & -> & Hv).
  destruct (Hvis v Hv) as (_ & _ & tl & m & _ & _ & Heff).
  assert (skipsMethod (getMethodsToSkip excepts) (visited v) = true) as Hskip.
  { destruct Hk as [?|[?|Hnin]];
      [by apply skipsMethod_excepted|by apply skipsMethod_inherited|].
    exfalso. apply Hnin. apply list_elem_of_fmap. eauto. }
  by rewrite Hskip, andb_false_r in Heff.
Qed.

(** X12. However [spyAllExcept(obj, excepts, behavior)] ends, every object
    that existed keeps its kind and its prototype link (a function stays
    that function, a spy keeps its calls and its plan); every object added
    is a spy without recorded call, configured as [behavior] says; and a
    property named in [excepts], or named like a member of
    [Object.prototype], reads the same on every object. *)
Theorem spyAllExcept_configures_new_spies (fuel : nat) (obj : value) (excepts : names)
    (b : option behavior) (h : heap)
    (Hbehavior : supported b) :
  (∀ l o, h !! l = Some o →
     ∃ o', (spyAllExcept fuel obj excepts b h).1 !! l = Some o'
           ∧ proto o' = proto o ∧ okind o' = okind o)
  ∧ (∀ l o, length h ≤ l → (spyAllExcept fuel obj excepts b h).1 !! l = Some o →
       proto o = ProtoObject ∧ ∃ orig, okind o = KSpy (Spy [] (planFor b) orig))
  ∧ (∀ k l x, k ∈ toArray excepts ∨ inheritedName k → get h l k = Return x →
       get (spyAllExcept fuel obj excepts b h).1 l k = Return x).
Proof.
  rewrite spyAllExcept_heap.
  pose proof (spyEffectInv_runWalk fuel obj excepts b h Hbehavior) as Hinv.
  pose proof Hinv as ((_ & Hold & Hnewp) & _ & _ & Hnew & _ & _).
  split_and!.
  - done.
  - intros l o Hle Hl. split; [by destruct (Hnewp _ _ Hle Hl)|by eapply Hnew].
  - intros k l x Hk Hget. eapply get_agree; [|exact Hget|done].
    eapply spyEffectInv_unspied; [exact Hinv|]. destruct Hk; auto.
Qed.

Lemma spyAllExcept_configures_new_spies_witness :
  (∀ l o, spiedHeap !! l = Some o →
     ∃ o', (spyAllExcept 1 (VRef 0) (OneName "bar")
              (Some (Behavior "andReturn" [VNum 10])) spiedHeap).1 !! l = Some o'
           ∧ proto o' = proto o ∧ okind o' = okind o)
  ∧ (∀ l o, length spiedHeap ≤ l →
       (spyAllExcept 1 (VRef 0) (OneName "bar")
          (Some (Behavior "andReturn" [VNum 10])) spiedHeap).1 !! l = Some o →
       proto o = ProtoObject
       ∧ ∃ orig, okind o
                 = KSpy (Spy [] (planFor (Some (Behavior "andReturn" [VNum 10]))) orig))
  ∧ (∀ k l x, k ∈ toArray (OneName "bar") ∨ inheritedName k →
       get spiedHeap l k = Return x →
       get (spyAllExcept 1 (VRef 0) (OneName "bar")
              (Some (Behavior "andReturn" [VNum 10])) spiedHeap).1 l k = Return x).
Proof.
  apply (spyAllExcept_configures_new_spies 1 (VRef 0) (OneName "bar")
           (Some (Behavior "andReturn" [VNum 10])) spiedHeap).
  by eexists.
Defined.

(** ** [spyAll] *)

(** X13. On a heap where no getter throws, no object lacks a prototype
    and the chain of [prototype] slots from [obj] ends within [n] levels,
    [spyAll(obj)] with enough iteration budget returns [obj]. Afterwards
    every enumerable property of [obj] (own or inherited, not named like a
    member of [Object.prototype]) that held a plain function in a slot
    that can be assigned reads, on [obj], as a new spy - with no call, no
    behaviour, wrapping that function, unless it is the [prototype] slot,
    which the walk goes on to visit; one that held anything else, or
    cannot be assigned, reads as before. *)
Theorem spyAll_spies_enumerable_functions (h : heap) (l : loc) (n fuel : nat)
    (Hwalkable : walkable h)
    (Hlevels : levelsWithin n h (VRef l))
    (Hfuel : n < fuel) :
  ∃ h', spyAll fuel (VRef l) h = (h', Return (VRef l))
    ∧ ∀ keys k m, forInKeys h l = Return keys → k ∈ keys → ¬ inheritedName k →
        get h l k = Return m →
        if plainFunction h m && bool_decide (assignable h l k)
        then ∃ s, get h' l k = Return (VRef s) ∧ length h ≤ s
                  ∧ isSpy h' (VRef s) = true
                  ∧ (k ≠ "prototype" →
                       spyOf h' (VRef s) = Some (Spy [] PlanDefault m))
        else get h' l k = Return m.
Proof.
  destruct (spy_walkFrom_total h (getMethodsToSkip (NameArray [])) None I
              (skipsMethod_proto (NameArray [])) n fuel (VRef l)
              (Walk h ∅ []) Hlevels Hfuel) as (w & Hrun & _).
  { split; [done|apply spiesAdded_refl]. }
  { intros x _. done. }
  pose proof (spyEffectInv_runWalk fuel (VRef l) (NameArray []) None h I) as Hinv.
  unfold runWalk in Hinv. rewrite Hrun in Hinv. cbn [fst] in Hinv.
  exists (heapOf w). split.
  { unfold spyAll, spyAllExcept, forEachWritableProperties, runWalk, bind, ret.
    by rewrite Hrun. }
  intros keys k m Hkeys Hk Hinh Hm.
  destruct (walk_shows_enumerable _ _ _ _ _ _ _ Hrun Hkeys Hk Hinh) as (v & Hv & Ht & Hn & _).
  destruct Hinv as (_ & _ & _ & _ & _ & Hvis).
  destruct (Hvis v Hv) as (Hag & Hadd & tl & m' & Htl & Hm' & Heff).
  rewrite Hn in *. rewrite Ht in Htl. injection Htl as <-.
  rewrite (get_agree _ _ _ _ _ Hag Hm ltac:(done)) in Hm'. injection Hm' as <-.
  rewrite (spiesAdded_plainFunction _ _ _ Hadd) in Heff.
  rewrite (skipsMethod_other (NameArray []) k) in Heff; [|by apply not_elem_of_nil|done].
  rewrite andb_true_r in Heff.
  rewrite (bool_decide_ext _ _ (assignable_agree _ _ _ _ Hag
             (get_Return_protoChain _ _ _ _ Hm))) in Heff.
  destruct (plainFunction h m && bool_decide (assignable h l k)).
  - destruct Heff as (s & o & Hs & Hle & Hso & Hko). exists s.
    assert (spyOf (heapOf w) (VRef s) = Some (Spy [] PlanDefault m)) as Hspy.
    { simpl. rewrite Hso. destruct o as [? ? ko]. simpl in Hko. by subst ko. }
    split_and!; [done|done|by eapply spyOf_isSpy|done].
  - eapply get_agree; [exact Heff|done|done].
Qed.

Lemma spyAll_spies_enumerable_functions_witness :
  ∃ h', spyAll 3 (VRef 0) classHeap = (h', Return (VRef 0))
    ∧ ∀ keys k m, forInKeys classHeap 0 = Return keys → k ∈ keys → ¬ inheritedName k →
        get classHeap 0 k = Return m →
        if plainFunction classHeap m && bool_decide (assignable classHeap 0 k)
        then ∃ s, get h' 0 k = Return (VRef s) ∧ length classHeap ≤ s
                  ∧ isSpy h' (VRef s) = true
                  ∧ (k ≠ "prototype" →
                       spyOf h' (VRef s) = Some (Spy [] PlanDefault m))
        else get h' 0 k = Return m.
Proof.
  apply (spyAll_spies_enumerable_functions classHeap 0 2 3).
  - apply walkableb_sound. reflexivity.
  - cbn. exists 0, (VRef 1). split_and!; [done|by eexists|reflexivity|].
    exists 1, VUndefined. split_and!; [done|by eexists|reflexivity|done].
  - lia.
Defined.

(** ** [spyAllExcept] on an object literal *)

Lemma enumKeys_single_eq h l o :
  h !! l = Some o → enumKeys h [l] [] = enumerableNames (props o).
Proof.
  intros Hl. cbn [enumKeys]. unfold propsOf, enumerableNames. rewrite Hl, app_nil_r.
  apply filter_ext. intros k. rewrite bool_decide_eq_false_2; [|apply not_elem_of_nil].
  by rewrite andb_true_r.
Qed.

Lemma literal_protoChain h l o :
  h !! l = Some o → proto o = ProtoObject →
  protoChain h l = Some ([l], EndObjectPrototype).
Proof.
  intros Hl Hp. unfold protoChain. pose proof (lookup_lt_Some _ _ _ Hl) as Hlt.
  destruct (length h) as [|f]; [lia|]. cbn [protoChainFrom]. by rewrite Hl, Hp.
Qed.

Lemma literal_collectProps h l o :
  walkable h → h !! l = Some o → proto o = ProtoObject →
  collectProps h l [] = Return [].
Proof.
  intros Hw Hl Hp. unfold collectProps.
  destruct (walkable_get h l "prototype" Hw) as [slot ->]; [by eexists|].
  destruct (truthy slot); [done|]. unfold protoOf. by rewrite Hl, Hp.
Qed.

Lemma walkFrom_ref iterator f l w :
  walkFrom iterator (S f) (VRef l) w
  = match walkLevel iterator l w with
    | (w', Return next) => walkFrom iterator f next w'
    | (w', Throw e) => (w', Throw e)
    | (w', Stuck) => (w', Stuck)
    | (w', OutOfFuel) => (w', OutOfFuel)
    end.
Proof. reflexivity. Qed.

Lemma walkFrom_falsy iterator f v w :
  truthy v = false → walkFrom iterator f v w = (w, Return tt).
Proof. intros Hv. destruct f; cbn [walkFrom]; by rewrite Hv. Qed.

Lemma walkLevel_run iterator cur w keys w1 ps w2 slot :
  forInKeys (heapOf w) cur = Return keys →
  forInLoop iterator cur keys w = (w1, Return tt) →
  collectProps (heapOf w1) cur (filteredOwnNames (heapOf w1) cur) = Return ps →
  propsLoop iterator cur ps w1 = (w2, Return tt) →
  get (heapOf w2) cur "prototype" = Return slot →
  walkLevel iterator cur w = (w2, Return (if truthy slot then slot else VNull)).
Proof.
  intros Hkeys Hloop Hps Hprops Hslot. unfold walkLevel, bind, lift, ret.
  by rewrite Hkeys, Hloop, Hps, Hprops, Hslot.
Qed.

(** The walk of [spyAllExcept] over an object literal: one level, one
    [for .. in] loop. *)
Lemma spy_walk_literal h l o ms b fuel slot :
  h !! l = Some o → proto o = ProtoObject → walkable h →
  get h l "prototype" = Return slot → truthy slot = false →
  supported b → skipsMethod ms "__proto__" = true → 2 ≤ fuel →
  ∃ w, runWalk (spyAllExceptIterator ms b) fuel (VRef l) h = (w, Return tt)
    ∧ (λ v, (target v, visited v, via v)) <$> visits w
      = (λ k, (VRef l, k, ViaForIn)) <$> freshKeys ∅ (enumerableNames (props o)).
Proof.
  intros Hl Hp Hwalk Hslot Hfalsy Hb Hms Hfuel.
  destruct fuel as [|[|f]]; [lia|lia|].
  assert (is_Some (h !! l)) as Hcur by (by eexists).
  destruct (spy_forInLoop_total h ms b Hb Hms l (enumerableNames (props o)) Hcur
              (Walk h ∅ []))
    as (w1 & Hloop & Hinv1 & Hslots1 & _).
  { split; [done|apply spiesAdded_refl]. }
  { left. intros x _. done. }
  destruct (forInLoop_visits _ _ _ _ _ Hloop) as (news & Hvis & Hnews).
  cbn [visits foundProps app] in Hvis, Hnews.
  destruct Hinv1 as [Hwalk1 Hadd1].
  destruct (proj1 (proj2 Hadd1) _ _ Hl) as (o1 & Hl1 & Hp1 & _).
  assert (is_Some (heapOf w1 !! l)) as Hcur1 by (by eexists).
  destruct (walkable_get (heapOf w1) l "prototype" Hwalk1 Hcur1) as [slot1 Hslot1].
  assert (walkLevel (spyAllExceptIterator ms b) l (Walk h ∅ [])
          = (w1, Return (if truthy slot1 then slot1 else VNull))) as Hlevel.
  { eapply walkLevel_run; [| exact Hloop | | | exact Hslot1].
    - unfold forInKeys. cbn [heapOf].
      by rewrite (literal_protoChain _ _ _ Hl Hp), (enumKeys_single_eq _ _ _ Hl).
    - rewrite (walkable_filteredOwnNames _ _ Hwalk1 Hcur1).
      apply (literal_collectProps _ _ _ Hwalk1 Hl1). congruence.
    - done. }
  exists w1. split; [|by rewrite Hvis, Hnews].
  unfold runWalk. rewrite walkFrom_ref, Hlevel.
  destruct Hslots1 as [Hkept|(s & Hs & _ & Hbare)].
  - rewrite (Hkept l Hcur), Hslot in Hslot1. injection Hslot1 as <-.
    rewrite Hfalsy. by apply walkFrom_falsy.
  - rewrite Hs in Hslot1. injection Hslot1 as <-. cbn [truthy].
    rewrite walkFrom_ref, (bareSpy_walkLevel ms b s w1 Hbare). by apply walkFrom_falsy.
Qed.

(** X14. [spyAllExcept] on an object literal - its prototype is
    [Object.prototype], it has no truthy [prototype] property, no getter
    throws. The call returns the object, and the iterator was called
    exactly for its enumerable own properties not named like a member of
    [Object.prototype], in order. An enumerable own plain function in a
    slot that can be assigned, whose name is neither excepted nor such a
    name, reads as a new spy configured with [behavior]; every other
    name - a non-enumerable own method or a read-only one included -
    reads the same on every object. *)
Theorem spyAllExcept_on_object_literal (h : heap) (l : loc) (o : obj)
    (excepts : names) (b : option behavior) (fuel : nat) (slot : value)
    (Hobj : h !! l = Some o)
    (Hproto : proto o = ProtoObject)
    (Hwalkable : walkable h)
    (Hslot : get h l "prototype" = Return slot)
    (Hfalsy : truthy slot = false)
    (Hbehavior : supported b)
    (Hfuel : 2 ≤ fuel) :
  ∃ w,
    runWalk (spyAllExceptIterator (getMethodsToSkip excepts) b) fuel (VRef l) h
    = (w, Return tt)
    ∧ spyAllExcept fuel (VRef l) excepts b h = (heapOf w, Return (VRef l))
    ∧ (λ v, (target v, visited v, via v)) <$> visits w
      = (λ k, (VRef l, k, ViaForIn)) <$> freshKeys ∅ (enumerableNames (props o))
    ∧ (∀ k m, k ∈ enumerableNames (props o) → ¬ inheritedName k → k ∉ toArray excepts →
         get h l k = Return m → plainFunction h m = true → assignable h l k →
         ∃ s, get (heapOf w) l k = Return (VRef s) ∧ length h ≤ s
              ∧ spyOf (heapOf w) (VRef s) = Some (Spy [] (planFor b) m))
    ∧ (∀ k, k ∉ enumerableNames (props o) ∨ inheritedName k ∨ k ∈ toArray excepts
            ∨ (∃ m, get h l k = Return m ∧ plainFunction h m = false)
            ∨ ¬ assignable h l k →
         ∀ l' x, get h l' k = Return x → get (heapOf w) l' k = Return x).
Proof.
  destruct (spy_walk_literal h l o (getMethodsToSkip excepts) b fuel slot Hobj Hproto
              Hwalkable Hslot Hfalsy Hbehavior (skipsMethod_proto excepts) Hfuel)
    as (w & Hrun & Hvisits).
  pose proof (spyEffectInv_runWalk fuel (VRef l) excepts b h Hbehavior) as Hinv.
  rewrite Hrun in Hinv. cbn [fst] in Hinv.
  assert (∀ k, k ∈ visited <$> visits w
               ↔ k ∈ enumerableNames (props o) ∧ ¬ inheritedName k) as Hnames.
  { intros k.
    assert (visited <$> visits w = freshKeys ∅ (enumerableNames (props o))) as ->.
    { apply (f_equal (fmap (λ x : value * string * path, x.1.2))) in Hvisits.
      rewrite <- !list_fmap_compose in Hvisits. cbn in Hvisits.
      by rewrite list_fmap_id in Hvisits. }
    rewrite elem_of_freshKeys by (intros k' v'; by rewrite lookup_empty).
    split.
    - intros [Hin Hf]. split; [done|]. intros Hinh.
      by rewrite (dictGet_inherited_truthy _ _ ltac:(intros k' v'; by rewrite lookup_empty) Hinh)
        in Hf.
    - intros [Hin Hinh]. split; [done|by apply empty_found_falsy]. }
  assert (∀ k v, v ∈ visits w → visited v = k → target v = VRef l) as Htargets.
  { intros k v Hv _.
    assert ((target v, visited v, via v) ∈ (λ v, (target v, visited v, via v)) <$> visits w)
      as Hin by (apply list_elem_of_fmap; eauto).
    rewrite Hvisits in Hin. apply list_elem_of_fmap in Hin as (k' & Heq & _).
    by injection Heq as -> _ _. }
  assert (is_Some (protoChain h l)) as Hchain.
  { rewrite (literal_protoChain _ _ _ Hobj Hproto). by eexists. }
  exists w. split_and!.
  - done.
  - unfold spyAllExcept, forEachWritableProperties, bind, ret. by rewrite Hrun.
  - done.
  - intros k m Hk Hinh Hex Hm Hpl Ha.
    assert (k ∈ visited <$> visits w) as Hin by (by apply Hnames).
    apply list_elem_of_fmap in Hin as (v & -> & Hv).
    destruct Hinv as (_ & _ & _ & _ & _ & Hvis).
    destruct (Hvis v Hv) as (Hag & Hadd & tl & m' & Htl & Hm' & Heff).
    rewrite (Htargets _ v Hv eq_refl) in Htl. injection Htl as <-.
    rewrite (get_agree _ _ _ _ _ Hag Hm ltac:(done)) in Hm'. injection Hm' as <-.
    rewrite (spiesAdded_plainFunction _ _ _ Hadd), Hpl in Heff.
    rewrite (skipsMethod_other excepts (visited v)) in Heff by done.
    rewrite bool_decide_eq_true_2 in Heff by (by apply (assignable_agree _ _ _ _ Hag Hchain)).
    destruct Heff as (s & os & Hs & Hle & Hso & Hko). exists s. split_and!; [done|done|].
    simpl. rewrite Hso. destruct os as [? ? ko]. simpl in Hko. by subst ko.
  - intros k Hk l' x Hget. eapply get_agree; [|exact Hget|done].
    destruct (decide (k ∈ visited <$> visits w)) as [Hin|Hnin].
    2:{ eapply spyEffectInv_unspied; [exact Hinv|]. auto. }
    pose proof (proj1 (Hnames k) Hin) as [Henum Hninh].
    destruct Hk as [Hk|[Hk|[Hk|Hk]]]; [done|done| |].
    { eapply spyEffectInv_unspied; [exact Hinv|]. auto. }
    apply list_elem_of_fmap in Hin as (v & -> & Hv).
    destruct Hinv as (_ & _ & _ & _ & _ & Hvis).
    destruct (Hvis v Hv) as (Hag & Hadd & tl & m' & Htl & Hm' & Heff).
    rewrite (Htargets _ v Hv eq_refl) in Htl. injection Htl as <-.
    destruct Hk as [(m & Hm & Hpl)|Hna].
    + rewrite (get_agree _ _ _ _ _ Hag Hm ltac:(done)) in Hm'. injection Hm' as <-.
      by rewrite (spiesAdded_plainFunction _ _ _ Hadd), Hpl in Heff.
    + rewrite bool_decide_eq_false_2 in Heff
        by (by rewrite (assignable_agree _ _ _ _ Hag Hchain)).
      by rewrite andb_false_r in Heff.
Qed.

Lemma spyAllExcept_on_object_literal_witness :
  ∃ w,
    runWalk (spyAllExceptIterator (getMethodsToSkip (NameArray [])) None) 2 (VRef 0)
      literalHeap
    = (w, Return tt)
    ∧ spyAllExcept 2 (VRef 0) (NameArray []) None literalHeap = (heapOf w, Return (VRef 0))
    ∧ (λ v, (target v, visited v, via v)) <$> visits w
      = (λ k, (VRef 0, k, ViaForIn))
        <$> freshKeys ∅ (enumerableNames
                           [("save", DataProp (VRef 1) true true);
                            ("toString", DataProp (VRef 2) true true);
                            ("hidden", DataProp (VRef 3) true false);
                            ("size", DataProp (VNum 3) true true)])
    ∧ (∀ k m, k ∈ enumerableNames
                    [("save", DataProp (VRef 1) true true);
                     ("toString", DataProp (VRef 2) true true);
                     ("hidden", DataProp (VRef 3) true false);
                     ("size", DataProp (VNum 3) true true)] →
         ¬ inheritedName k → k ∉ toArray (NameArray []) →
         get literalHeap 0 k = Return m → plainFunction literalHeap m = true →
         assignable literalHeap 0 k →
         ∃ s, get (heapOf w) 0 k = Return (VRef s) ∧ length literalHeap ≤ s
              ∧ spyOf (heapOf w) (VRef s) = Some (Spy [] (planFor None) m))
    ∧ (∀ k, k ∉ enumerableNames
                  [("save", DataProp (VRef 1) true true);
                   ("toString", DataProp (VRef 2) true true);
                   ("hidden", DataProp (VRef 3) true false);
                   ("size", DataProp (VNum 3) true true)]
            ∨ inheritedName k ∨ k ∈ toArray (NameArray [])
            ∨ (∃ m, get literalHeap 0 k = Return m ∧ plainFunction literalHeap m = false)
            ∨ ¬ assignable literalHeap 0 k →
         ∀ l' x, get literalHeap l' k = Return x → get (heapOf w) l' k = Return x).
Proof.
  apply (spyAllExcept_on_object_literal literalHeap 0
           (Obj ProtoObject [("save", DataProp (VRef 1) true true);
                             ("toString", DataProp (VRef 2) true true);
                             ("hidden", DataProp (VRef 3) true false);
                             ("size", DataProp (VNum 3) true true)] KObject)
           (NameArray []) None 2 VUndefined).
  - reflexivity.
  - reflexivity.
  - apply walkableb_sound. reflexivity.
  - reflexivity.
  - reflexivity.
  - done.
  - lia.
Defined.

Example spyAll_literal_run :
  propsOf (spyAll 2 (VRef 0) literalHeap).1 0
  = [("save", DataProp (VRef 4) true true);
     ("toString", DataProp (VRef 2) true true);
     ("hidden", DataProp (VRef 3) true false);
     ("size", DataProp (VNum 3) true true)].
Proof. reflexivity. Qed.

(** ** [spyEach], turn by turn *)

Lemma spyEach_run h l methods bs :
  (∀ m, m ∈ toArray methods → ∃ v, get h l m = Return v) →
  (∀ b, b ∈ toBehaviorArray bs → supported b) →
  (∀ m v, m ∈ toArray methods → get h l m = Return v → plainFunction h v = true →
     putTargetOf h l m ≠ Some PutProtoSetter) →
  ∃ h', spyEach (VRef l) methods bs h = (h', Return (VRef l))
    ∧ (∀ n, n ∉ toArray methods → agreeOn n h h')
    ∧ (∀ n v, get h l n = Return v → plainFunction h v = false → agreeOn n h h')
    ∧ (∀ n, ¬ assignable h l n → agreeOn n h h')
    ∧ (∀ j m v, firstIndex (toArray methods) m j →
         get h l m = Return v → plainFunction h v = true → assignable h l m →
         installedAs h h' l m
           (planFor (turnBehavior (bool_decide (length (toBehaviorArray bs) = 1))
                       (toBehaviorArray bs) j))).
Proof.
  intros Hread Hsup Hns.
  destruct (spyEachLoop_effect h l (bool_decide (length (toBehaviorArray bs) = 1))
              (toBehaviorArray bs) (toArray methods) 0 h (spyEachInv_init h l) Hread)
    as (h' & Hloop & _ & _ & _ & Hunt & Hnonpl & Hnoassign & Hfirst); [|done|].
  { intros j. by apply turnBehavior_supported. }
  exists h'. split_and!.
  - unfold spyEach, bind, ret. by rewrite Hloop.
  - done.
  - done.
  - intros n Hn. apply Hnoassign; [apply agreeOn_refl|done].
  - intros j m v Hj Hg Hpl Ha. eapply (Hfirst j); [done|apply agreeOn_refl|done|done|done].
Qed.

(** X15. When a single behaviour is given to [spyEach] - a bare value, a
    one-element array, or nothing at all - it is applied to every named
    method: each named member that was a plain function, in a slot that
    can be assigned, reads as a new spy configured with that behaviour,
    and the call returns [obj]. *)
Theorem spyEach_single_behavior (h : heap) (l : loc) (methods : names)
    (bs : behaviors) (b : option behavior)
    (Hsingle : toBehaviorArray bs = [b])
    (Hread : ∀ m, m ∈ toArray methods → ∃ v, get h l m = Return v)
    (Hassign : ∀ m v, m ∈ toArray methods → get h l m = Return v →
                 plainFunction h v = true → assignable h l m)
    (Hbehavior : supported b) :
  ∃ h', spyEach (VRef l) methods bs h = (h', Return (VRef l))
    ∧ ∀ m v, m ∈ toArray methods → get h l m = Return v → plainFunction h v = true →
        installedAs h h' l m (planFor b).
Proof.
  destruct (spyEach_run h l methods bs Hread) as (h' & Hrun & _ & _ & _ & Hfirst).
  { rewrite Hsingle. intros b0 ->%list_elem_of_singleton. done. }
  { intros m v Hin Hv Hpl. apply assignable_not_setter. by eapply Hassign. }
  exists h'. split; [done|]. intros m v Hin Hg Hpl.
  destruct (firstIndex_exists _ _ Hin) as [j Hj].
  specialize (Hfirst j m v Hj Hg Hpl (Hassign m v Hin Hg Hpl)).
  by rewrite Hsingle in Hfirst.
Qed.

Lemma spyEach_single_behavior_witness :
  ∃ h', spyEach (VRef 0) (NameArray ["save"; "load"; "save"])
          (OneBehavior (Some (Behavior "andReturn" [VNum 1]))) threeMethods
        = (h', Return (VRef 0))
    ∧ ∀ m v, m ∈ toArray (NameArray ["save"; "load"; "save"]) →
        get threeMethods 0 m = Return v → plainFunction threeMethods v = true →
        installedAs threeMethods h' 0 m (planFor (Some (Behavior "andReturn" [VNum 1]))).
Proof.
  apply (spyEach_single_behavior threeMethods 0 (NameArray ["save"; "load"; "save"])
           (OneBehavior (Some (Behavior "andReturn" [VNum 1])))
           (Some (Behavior "andReturn" [VNum 1]))).
  - reflexivity.
  - intros m Hin. cbn [toArray] in Hin.
    repeat (apply elem_of_cons in Hin as [->|Hin]; [by eexists|]).
    by apply elem_of_nil in Hin.
  - intros m v Hin _ _. cbn [toArray] in Hin.
    repeat (apply elem_of_cons in Hin as [->|Hin]; [reflexivity|]).
    by apply elem_of_nil in Hin.
  - by eexists.
Defined.

(** X16. When [behaviors] is an array that does not hold exactly one
    entry, [spyEach] pairs by position, and for a name listed more than
    once the first position decides: a named member that was a plain
    function, in a slot that can be assigned, reads as a new spy
    configured with the behaviour at the first index of its name (none if
    there is none at that index); later entries for the same name change
    nothing. *)
Theorem spyEach_pairs_by_first_index (h : heap) (l : loc) (methods : list string)
    (bs : list (option behavior))
    (Hmany : length bs ≠ 1)
    (Hread : ∀ m, m ∈ methods → ∃ v, get h l m = Return v)
    (Hassign : ∀ m v, m ∈ methods → get h l m = Return v →
                 plainFunction h v = true → assignable h l m)
    (Hsup : ∀ b, b ∈ bs → supported b) :
  ∃ h', spyEach (VRef l) (NameArray methods) (BehaviorArray bs) h = (h', Return (VRef l))
    ∧ ∀ j m v, firstIndex methods m j → get h l m = Return v →
        plainFunction h v = true →
        installedAs h h' l m (planFor (behaviorAt bs j)).
Proof.
  destruct (spyEach_run h l (NameArray methods) (BehaviorArray bs) Hread Hsup)
    as (h' & Hrun & _ & _ & _ & Hfirst).
  { intros m v Hin Hv Hpl. apply assignable_not_setter. by eapply Hassign. }
  exists h'. split; [done|]. intros j m v Hj Hg Hpl.
  assert (m ∈ methods) as Hin by (destruct Hj as [Hj _]; by eapply list_elem_of_lookup_2).
  specialize (Hfirst j m v Hj Hg Hpl (Hassign m v Hin Hg Hpl)).
  cbn [toBehaviorArray] in Hfirst.
  by rewrite bool_decide_eq_false_2 in Hfirst.
Qed.

Lemma spyEach_pairs_by_first_index_witness :
  ∃ h', spyEach (VRef 0) (NameArray ["save"; "load"; "save"])
          (BehaviorArray [Some (Behavior "andReturn" [VNum 1]);
                          Some (Behavior "andCallThrough" []);
                          Some (Behavior "andReturn" [VNum 3])]) threeMethods
        = (h', Return (VRef 0))
    ∧ ∀ j m v, firstIndex ["save"; "load"; "save"] m j →
        get threeMethods 0 m = Return v → plainFunction threeMethods v = true →
        installedAs threeMethods h' 0 m
          (planFor (behaviorAt [Some (Behavior "andReturn" [VNum 1]);
                                Some (Behavior "andCallThrough" []);
                                Some (Behavior "andReturn" [VNum 3])] j)).
Proof.
  apply (spyEach_pairs_by_first_index threeMethods 0 ["save"; "load"; "save"]
           [Some (Behavior "andReturn" [VNum 1]); Some (Behavior "andCallThrough" []);
            Some (Behavior "andReturn" [VNum 3])]).
  - cbn. lia.
  - intros m Hin.
    repeat (apply elem_of_cons in Hin as [->|Hin]; [by eexists|]).
    by apply elem_of_nil in Hin.
  - intros m v Hin _ _.
    repeat (apply elem_of_cons in Hin as [->|Hin]; [reflexivity|]).
    by apply elem_of_nil in Hin.
  - intros b Hin.
    repeat (apply elem_of_cons in Hin as [->|Hin]; [by eexists|]).
    by apply elem_of_nil in Hin.
Defined.

(** X17. [spyEach] leaves alone what it was not asked to spy and what it
    cannot spy: a property whose name is not listed reads the same on
    every object, and so does a listed property that does not hold a
    plain function on [obj] (a number, a missing member, a spy), or that
    sits in a slot that cannot be assigned. This needs that no listed
    plain function is read through the [__proto__] accessor of
    [Object.prototype]: that one is the prototype of [obj], and spying it
    replaces the prototype. *)
Theorem spyEach_leaves_the_rest (h : heap) (l : loc) (methods : names) (bs : behaviors)
    (Hread : ∀ m, m ∈ toArray methods → ∃ v, get h l m = Return v)
    (Hsetter : ∀ m v, m ∈ toArray methods → get h l m = Return v →
                 plainFunction h v = true → putTargetOf h l m ≠ Some PutProtoSetter)
    (Hsup : ∀ b, b ∈ toBehaviorArray bs → supported b) :
  ∃ h', spyEach (VRef l) methods bs h = (h', Return (VRef l))
    ∧ (∀ n l' x, n ∉ toArray methods → get h l' n = Return x → get h' l' n = Return x)
    ∧ (∀ n v l' x, get h l n = Return v → plainFunction h v = false →
         get h l' n = Return x → get h' l' n = Return x)
    ∧ (∀ n l' x, ¬ assignable h l n → get h l' n = Return x → get h' l' n = Return x).
Proof.
  destruct (spyEach_run h l methods bs Hread Hsup Hsetter)
    as (h' & Hrun & Hunt & Hnonpl & Hnoassign & _).
  exists h'. split_and!; [done| | |].
  - intros n l' x Hn Hg. eapply get_agree; [by apply Hunt|done|done].
  - intros n v l' x Hv Hpl Hg. eapply get_agree; [by eapply Hnonpl|done|done].
  - intros n l' x Hn Hg. eapply get_agree; [by apply Hnoassign|done|done].
Qed.

Lemma spyEach_leaves_the_rest_witness :
  ∃ h', spyEach (VRef 0) (NameArray ["foo"; "bar"; "fixed"; "missing"]) (OneBehavior None)
          mixedHeap
        = (h', Return (VRef 0))
    ∧ (∀ n l' x, n ∉ toArray (NameArray ["foo"; "bar"; "fixed"; "missing"]) →
         get mixedHeap l' n = Return x → get h' l' n = Return x)
    ∧ (∀ n v l' x, get mixedHeap 0 n = Return v → plainFunction mixedHeap v = false →
         get mixedHeap l' n = Return x → get h' l' n = Return x)
    ∧ (∀ n l' x, ¬ assignable mixedHeap 0 n →
         get mixedHeap l' n = Return x → get h' l' n = Return x).
Proof.
  apply (spyEach_leaves_the_rest mixedHeap 0 (NameArray ["foo"; "bar"; "fixed"; "missing"])
           (OneBehavior None)).
  - intros m Hin. cbn [toArray] in Hin.
    repeat (apply elem_of_cons in Hin as [->|Hin]; [by eexists|]).
    by apply elem_of_nil in Hin.
  - intros m v Hin _ _. cbn [toArray] in Hin.
    repeat (apply elem_of_cons in Hin as [->|Hin]; [vm_compute; discriminate|]).
    by apply elem_of_nil in Hin.
  - intros b Hin. cbn [toBehaviorArray] in Hin.
    apply list_elem_of_singleton in Hin as ->. done.
Defined.

(** Without that condition the statement fails: listing [__proto__] on an
    object whose prototype is a plain function makes the spy the new
    prototype, and a member that was inherited through the old one, and
    was not listed, is no longer found. *)
Example spyEach_proto_name_replaces_prototype :
  get protoFunctionHeap 1 "foo" = Return (VNum 1)
  ∧ (spyEach (VRef 1) (OneName "__proto__") (OneBehavior None) protoFunctionHeap).2
    = Return (VRef 1)
  ∧ protoOf (spyEach (VRef 1) (OneName "__proto__") (OneBehavior None) protoFunctionHeap).1 1
    = ProtoLoc 2
  ∧ get (spyEach (VRef 1) (OneName "__proto__") (OneBehavior None) protoFunctionHeap).1
      1 "foo"
    = Return VUndefined.
Proof. split_and!; reflexivity. Qed.

(** ** A missing object, and what the walk itself changes *)

(** X18. On an object that is [undefined] or [null], every helper that
    reads a named member raises a TypeError at its first read and changes
    nothing: [spyIf], [getCallWithArg], and [spyEach] and [resetEach] as
    soon as they are given at least one name. *)
Theorem named_helpers_throw_on_missing_object (obj : value) (m : string)
    (methods : names) (bs : behaviors) (b : option behavior) (arg : value) (h : heap)
    (Hmissing : obj = VUndefined ∨ obj = VNull)
    (Hnamed : toArray methods ≠ []) :
  spyIf obj m b h = (h, Throw TypeError)
  ∧ spyEach obj methods bs h = (h, Throw TypeError)
  ∧ resetEach obj methods h = (h, Throw TypeError)
  ∧ getCallWithArg obj m arg h = (h, Throw TypeError).
Proof.
  assert (∀ k, getV h obj k = Throw TypeError) as Hget.
  { intros k. by destruct Hmissing as [-> | ->]. }
  assert (∀ k b0, spyIf obj k b0 h = (h, Throw TypeError)) as HspyIf.
  { intros k b0. unfold spyIf, bind, lift. by rewrite Hget. }
  split_and!.
  - apply HspyIf.
  - unfold spyEach. destruct (toArray methods) as [|m0 ms]; [done|].
    unfold bind at 1. rewrite spyEachLoop_cons. unfold bind at 1. by rewrite HspyIf.
  - unfold resetEach. destruct (toArray methods) as [|m0 ms]; [done|].
    cbn [resetEachLoop]. unfold bind, lift. by rewrite Hget.
  - unfold getCallWithArg, bind, lift. by rewrite Hget.
Qed.

Lemma named_helpers_throw_on_missing_object_witness :
  spyIf VUndefined "save" None plainHeap = (plainHeap, Throw TypeError)
  ∧ spyEach VUndefined (OneName "save") (OneBehavior None) plainHeap
    = (plainHeap, Throw TypeError)
  ∧ resetEach VUndefined (OneName "save") plainHeap = (plainHeap, Throw TypeError)
  ∧ getCallWithArg VUndefined "save" (VNum 1) plainHeap = (plainHeap, Throw TypeError).
Proof.
  apply (named_helpers_throw_on_missing_object VUndefined "save" (OneName "save")
           (OneBehavior None) None (VNum 1) plainHeap).
  - by left.
  - done.
Defined.

(** X19. The helpers that walk the object do not look at a falsy one:
    for [undefined], [null], [false], [0], [NaN] or the empty string,
    [spyAllExcept], [spyAll], [resetAllExcept] and [resetAll] return the
    argument at once, raise nothing and change nothing. *)
Theorem walking_helpers_return_falsy_object (obj : value) (excepts : names)
    (b : option behavior) (fuel : nat) (h : heap)
    (Hfalsy : truthy obj = false) :
  spyAllExcept fuel obj excepts b h = (h, Return obj)
  ∧ spyAll fuel obj h = (h, Return obj)
  ∧ resetAllExcept fuel obj excepts h = (h, Return obj)
  ∧ resetAll fuel obj h = (h, Return obj).
Proof.
  assert (∀ iterator, forEachWritableProperties iterator fuel obj h = (h, Return tt)) as Hwalk.
  { intros iterator. unfold forEachWritableProperties, runWalk.
    by rewrite walkFrom_falsy. }
  unfold spyAll, resetAll, spyAllExcept, resetAllExcept, bind, ret.
  by rewrite !Hwalk.
Qed.

Lemma walking_helpers_return_falsy_object_witness :
  spyAllExcept 0 VNull (OneName "save") None plainHeap = (plainHeap, Return VNull)
  ∧ spyAll 0 VNull plainHeap = (plainHeap, Return VNull)
  ∧ resetAllExcept 0 VNull (OneName "save") plainHeap = (plainHeap, Return VNull)
  ∧ resetAll 0 VNull plainHeap = (plainHeap, Return VNull).
Proof.
  apply (walking_helpers_return_falsy_object VNull (OneName "save") None 0 plainHeap).
  reflexivity.
Defined.

(** X20. The walk changes the objects only through the iterator: a
    property of the heap that holds before the walk and that every
    iterator call keeps, whatever that call returns or raises, holds of
    the heap the walk leaves, however the walk ends. *)
Theorem walk_changes_heap_through_iterator_only (iterator : value → string → M unit)
    (P : heap → Prop) (fuel : nat) (obj : value) (h : heap)
    (Hbefore : P h)
    (Hkept : ∀ currentProto name h0, P h0 → P (iterator currentProto name h0).1) :
  P (forEachWritableProperties iterator fuel obj h).1.
Proof.
  pose proof (walk_invariant iterator (λ w, P (heapOf w)) fuel obj h) as Hinv.
  unfold forEachWritableProperties.
  destruct (runWalk iterator fuel obj h) as [w r]. apply Hinv; [|done].
  intros w0 cur i p Hw _. unfold visitProp.
  specialize (Hkept (VRef cur) i (heapOf w0) Hw).
  by destruct (iterator (VRef cur) i (heapOf w0)).
Qed.

Lemma walk_changes_heap_through_iterator_only_witness :
  (forEachWritableProperties (λ _ _, ret tt) 3 (VRef 0) classHeap).1 = classHeap.
Proof.
  apply (walk_changes_heap_through_iterator_only (λ _ _, ret tt)
           (λ h0, h0 = classHeap) 3 (VRef 0) classHeap).
  - reflexivity.
  - intros currentProto name h0 Hh0. exact Hh0.
Defined.

(** ** What the own-names step lets be spied *)


(** An inherited read-only method is not shown by the own-names step,
    while the same method, writable, is. *)
Example own_names_step_skips_read_only :
  map (λ v, (target v, visited v, via v))
    (visits (runWalk observe 2 (VRef 1) instanceHeap).1)
  = [(VRef 1, "foo", ViaForIn); (VRef 1, "bar", ViaForIn); (VRef 1, "baz", ViaOwnNames)]
  ∧ map (λ v, (target v, visited v, via v))
      (visits (runWalk observe 2 (VRef 1)
                 (<[0 := Obj ProtoObject [("baz", DataProp (VRef 3) false false)] KObject]>
                    instanceHeap)).1)
    = [(VRef 1, "foo", ViaForIn); (VRef 1, "bar", ViaForIn)].
Proof. split; reflexivity. Qed.

(** ** A member that cannot be overwritten *)

(** X22. On a plain function in a slot that cannot be assigned - the
    property found first on the prototype chain is a data property that is
    not writable, or an accessor - [spyIf] still makes a spy, configured
    as [behavior] says, and returns it, but the spy does not take the
    member's place: every object that existed is as it was, and the member
    reads as the function it was. So a second call finds a plain function
    again and returns another new spy. *)
Theorem spyIf_leaves_read_only_member (h : heap) (l : loc) (method : string)
    (b b' : option behavior) (v : value)
    (Hmember : get h l method = Return v)
    (Hplain : plainFunction h v = true)
    (Hreadonly : putTargetOf h l method = Some PutIgnored)
    (Hbehavior : supported b)
    (Hbehavior' : supported b') :
  ∃ h1 h2,
    spyIf (VRef l) method b h = (h1, Return (VRef (length h)))
    ∧ length h1 = S (length h)
    ∧ (∀ l', l' < length h → h1 !! l' = h !! l')
    ∧ spyOf h1 (VRef (length h)) = Some (Spy [] (planFor b) v)
    ∧ get h1 l method = Return v
    ∧ spyIf (VRef l) method b' h1 = (h2, Return (VRef (S (length h)))).
Proof.
  assert (¬ assignable h l method) as Hna by (unfold assignable; by rewrite Hreadonly).
  destruct (spyIf_plain_made h l method b v Hmember Hplain Hbehavior)
    as (h1 & Hrun & Hmade & _ & Hno); [by rewrite Hreadonly|].
  specialize (Hno Hna).
  pose proof (spyMade_kept_agreeOn _ _ _ _ _ _ method Hmade Hno) as Hag.
  pose proof (get_agree _ _ _ _ _ Hag Hmember ltac:(done)) as Hget1.
  pose proof (spyMade_spiesAdded h h h1 _ _ _ _ (spiesAdded_refl h) Hmade) as Hadd.
  pose proof Hmade as (Hlen & _ & Hother & _).
  destruct (spyIf_plain_made h1 l method b' v Hget1) as (h2 & Hrun2 & _); [|done| |].
  { by rewrite (spiesAdded_plainFunction _ _ _ Hadd). }
  { rewrite (putTargetOf_agree _ _ _ _ Hag (get_Return_protoChain _ _ _ _ Hmember)).
    by rewrite Hreadonly. }
  exists h1, h2. split_and!; [done|done| |by eapply spyMade_isSpy|done|by rewrite <- Hlen].
  intros l' Hl'. destruct (decide (l' = l)) as [->|Hne]; [done|by apply Hother].
Qed.

Lemma spyIf_leaves_read_only_member_witness :
  ∃ h1 h2,
    spyIf (VRef 0) "save" (Some (Behavior "andReturn" [VNum 1])) readOnlyMethodHeap
    = (h1, Return (VRef (length readOnlyMethodHeap)))
    ∧ length h1 = S (length readOnlyMethodHeap)
    ∧ (∀ l', l' < length readOnlyMethodHeap → h1 !! l' = readOnlyMethodHeap !! l')
    ∧ spyOf h1 (VRef (length readOnlyMethodHeap))
      = Some (Spy [] (planFor (Some (Behavior "andReturn" [VNum 1]))) (VRef 1))
    ∧ get h1 0 "save" = Return (VRef 1)
    ∧ spyIf (VRef 0) "save" None h1 = (h2, Return (VRef (S (length readOnlyMethodHeap)))).
Proof.
  apply (spyIf_leaves_read_only_member readOnlyMethodHeap 0 "save"
           (Some (Behavior "andReturn" [VNum 1])) None (VRef 1)).
  - reflexivity.
  - reflexivity.
  - reflexivity.
  - by eexists.
  - done.
Defined.
